(** * Elemental: the [MR,* ] distributed matrix

    A shallow embedding of [src/core/DistMatrix/Base_MR_STAR.cpp]: the
    per-process code of [DistMatrixBase<T,MR,STAR>] (alignment, views,
    resizing, entrywise access and the redistributions into [MR,* ]),
    together with a lock-step semantics of the collectives it issues over
    an r x c process grid.

    Conventions.
    - A C++ [int] is a [Z]; signed overflow is undefined behaviour in the
      source and is not modelled.  The C++ operators [/] and [%] truncate
      towards zero: they are [Z.quot] and [Z.rem].
    - A raw buffer ([T*]) is a function [Z -> T]; pointer arithmetic
      [&buf[off]] is an explicit offset.
    - A member function is a state transformer over [this] that may raise
      an exception and may issue collectives ([Method]).
    - [#ifndef RELEASE] blocks are guarded by the build flag [release]. *)

From Stdlib Require Import ZArith List Bool Lia String.
Import ListNotations.
Local Open Scope Z_scope.

(** ** Index utilities *)

(** Modelled from the spec: [Shift], [LocalLength] and [MaxLocalLength]
    live in a utilities header that is not part of the sources at hand.
    "Shift for a given rank = (rank - alignment + stride) mod stride." *)
Definition Shift (rank alignment stride : Z) : Z :=
  (rank - alignment + stride) mod stride.

(** [RawShift] is [Shift] without the debug checks of its arguments. *)
Definition RawShift := Shift.

(** Modelled from the spec: "Local length of a global extent n = ... the
    ceiling of (n - shift)/stride, clamped at 0." *)
Definition LocalLength (n shift stride : Z) : Z :=
  Z.max 0 ((n - shift + stride - 1) / stride).

(** [RawLocalLength] is [LocalLength] without the debug checks. *)
Definition RawLocalLength := LocalLength.

(** Modelled from the spec: the largest local length over all shifts, that
    is the local length at shift 0. *)
Definition MaxLocalLength (n stride : Z) : Z := LocalLength n 0 stride.

(** The indices [i] of [0 .. n-1] with [i mod stride = shift], counted. *)
Definition count_indices (n : nat) (shift stride : Z) : nat :=
  List.length (filter (fun i => (i mod stride) =? shift) (map Z.of_nat (seq 0 n))).

(** [Zsum k f] is [f 0 + ... + f (k-1)]. *)
Fixpoint Zsum (k : nat) (f : Z -> Z) : Z :=
  match k with
  | O => 0
  | S k' => Zsum k' f + f (Z.of_nat k')
  end.


(** ** The process grid *)

(** Modelled from the spec: the [Grid] class is not part of the sources at
    hand.  A process sees the grid as its height [r], its width [c] and its
    own coordinates: [MCRank] is its grid row and [MRRank] its grid column.
    [VCRank] linearises the grid column-major and [VRRank] row-major. *)
Module Grid.
Record t : Type := mk { Height : Z; Width : Z; MCRank : Z; MRRank : Z }.
Definition Size (g : t) : Z := Height g * Width g.
Definition VCRank (g : t) : Z := MCRank g + Height g * MRRank g.
Definition VRRank (g : t) : Z := MRRank g + Width g * MCRank g.
Definition eqb (g h : t) : bool :=
  (Height g =? Height h) && (Width g =? Width h) &&
  (MCRank g =? MCRank h) && (MRRank g =? MRRank h).
End Grid.

(** The communication scopes of a grid: [MCComm] spans a grid column (the
    rank of a member is its [MCRank]), [MRComm] spans a grid row (rank
    [MRRank]), [VCComm] and [VRComm] span the whole grid. *)
Inductive Comm : Type := MCComm | MRComm | VCComm | VRComm.

Definition Comm_eqb (a b : Comm) : bool :=
  match a, b with
  | MCComm, MCComm | MRComm, MRComm | VCComm, VCComm | VRComm, VRComm => true
  | _, _ => false
  end.

Inductive Error : Type :=
| logic_error (msg : string)
| runtime_error (msg : string).

Inductive Outcome (A : Type) : Type :=
| Normal (a : A)
| Raised (e : Error).
Arguments Normal {A} a.
Arguments Raised {A} e.

Definition in_range (lo hi x : Z) : bool := (lo <=? x) && (x <? hi).

(** [for_loop n body s] is [for (int j = 0; j < n; ++j) s = body j s]. *)
Fixpoint for_loop {S : Type} (n : nat) (body : Z -> S -> S) (s : S) : S :=
  match n with
  | O => s
  | Datatypes.S n' => body (Z.of_nat n') (for_loop n' body s)
  end.

Section Elemental.

(** The entry type [T] with its addition, the contents of storage that was
    allocated but not written, the value of an uninitialised local, the
    build flag ([release = true] when [RELEASE] is defined) and the
    constant [mpi::MIN_COLL_MSG], which the sources at hand do not define. *)
Variable T : Type.
Variable addT : T -> T -> T.
Variable uninit : Z -> T.
Variable uninitT : T.
Variable release : bool.
Variable MIN_COLL_MSG : Z.

Definition Buffer : Type := Z -> T.

Definition upd (b : Buffer) (idx : Z) (v : T) : Buffer :=
  fun i => if i =? idx then v else b i.

(** [memcpy( &dst[dOff], &src[sOff], n*sizeof(T) )] *)
Definition memcpy (dst : Buffer) (dOff : Z) (src : Buffer) (sOff : Z) (n : Z) : Buffer :=
  fun i => if in_range dOff (dOff + n) i then src (sOff + (i - dOff)) else dst i.

(** ** The local matrix *)

(** Modelled from the spec: the sequential [Matrix<T>] class is not part of
    the sources at hand.  "a local buffer of shape localHeight x localWidth
    with a leading dimension >= localHeight, either owned ... or a view".
    Entry (i,j) is stored at [i + j*ldim].  A view is a snapshot of its
    owner's storage: writes through a view are not propagated back to the
    owner, and nothing below depends on that. *)
Record Matrix : Type := mkMatrix {
  m_height : Z;
  m_width : Z;
  m_ldim : Z;
  m_data : Buffer;
  m_viewing : bool;
  m_lockedView : bool
}.

Definition Matrix_empty : Matrix := mkMatrix 0 0 1 uninit false false.

Definition Matrix_Get (m : Matrix) (i j : Z) : T := m_data m (i + j * m_ldim m).

Definition Matrix_with_data (m : Matrix) (b : Buffer) : Matrix :=
  mkMatrix (m_height m) (m_width m) (m_ldim m) b (m_viewing m) (m_lockedView m).

(** Modelled from the spec: "locked views forbid mutation". *)
Definition Matrix_Set (m : Matrix) (i j : Z) (u : T) : Outcome Matrix :=
  if m_lockedView m then Raised (logic_error "Cannot modify data of locked matrices.")
  else Normal (Matrix_with_data m (upd (m_data m) (i + j * m_ldim m) u)).

Definition Matrix_Update (m : Matrix) (i j : Z) (u : T) : Outcome Matrix :=
  if m_lockedView m then Raised (logic_error "Cannot modify data of locked matrices.")
  else Normal (Matrix_with_data m
                 (upd (m_data m) (i + j * m_ldim m)
                      (addT (m_data m (i + j * m_ldim m)) u))).

(** Modelled from the spec: "fails on views with mismatched fixed size;
    otherwise ... reallocates owned storage (old contents not preserved)". *)
Definition Matrix_ResizeTo (m : Matrix) (height width : Z) : Outcome Matrix :=
  if m_viewing m then
    if (height =? m_height m) && (width =? m_width m) then Normal m
    else Raised (logic_error "Cannot change the size of a view.")
  else Normal (mkMatrix height width (Z.max height 1) uninit false false).

(** Modelled from the spec: views reference "a sub-rectangle of an owner's
    local buffer"; "locked views forbid mutation". *)
Definition Matrix_View (A : Matrix) (i j height width : Z) : Matrix :=
  mkMatrix height width (m_ldim A)
           (fun idx => m_data A (idx + (i + j * m_ldim A))) true false.

Definition Matrix_LockedView (A : Matrix) (i j height width : Z) : Matrix :=
  mkMatrix height width (m_ldim A)
           (fun idx => m_data A (idx + (i + j * m_ldim A))) true true.

(** Modelled from the spec: the plain copy [Matrix::operator=], "local
    storage is copied": an owning target takes the source's shape, a view
    must already have it, and the entries are copied column by column. *)
Definition Matrix_assign (m A : Matrix) : Outcome Matrix :=
  if m_lockedView m then Raised (logic_error "Cannot assign to a locked view.")
  else
    match Matrix_ResizeTo m (m_height A) (m_width A) with
    | Raised e => Raised e
    | Normal m' =>
        Normal (Matrix_with_data m'
          (for_loop (Z.to_nat (m_width m'))
             (fun j b => memcpy b (j * m_ldim m') (m_data A) (j * m_ldim A) (m_height m'))
             (m_data m')))
    end.

(** The owned allocation of a local matrix, in entries. *)
Definition Matrix_MemorySize (m : Matrix) : Z :=
  if m_viewing m then 0 else m_ldim m * m_width m.

(** ** The distributed matrix *)

(** The state of one process's [DistMatrix] object.  The fields are those
    the member functions of [Base_MR_STAR.cpp] read and write; the same
    record serves for the sources of another distribution ([MR,MC],
    [VR,* ], [* ,* ], ...), whose row fields are then meaningful too.  The
    scratch arena [_auxMemory] is acquired and released within each
    redistribution and is a local buffer there. *)
Record DistMatrix : Type := mkDistMatrix {
  _viewing : bool;
  _lockedView : bool;
  _height : Z;
  _width : Z;
  _localMatrix : Matrix;
  _constrainedColAlignment : bool;
  _constrainedRowAlignment : bool;
  _colAlignment : Z;
  _rowAlignment : Z;
  _colShift : Z;
  _rowShift : Z;
  _grid : Grid.t
}.

(** Accessors, named as in the source. *)
Definition Viewing (d : DistMatrix) : bool := _viewing d.
Definition Height (d : DistMatrix) : Z := _height d.
Definition Width (d : DistMatrix) : Z := _width d.
Definition ColAlignment (d : DistMatrix) : Z := _colAlignment d.
Definition RowAlignment (d : DistMatrix) : Z := _rowAlignment d.
Definition ColShift (d : DistMatrix) : Z := _colShift d.
Definition RowShift (d : DistMatrix) : Z := _rowShift d.
Definition ConstrainedColAlignment (d : DistMatrix) : bool := _constrainedColAlignment d.
Definition LocalMatrix (d : DistMatrix) : Matrix := _localMatrix d.
Definition LockedLocalMatrix (d : DistMatrix) : Matrix := _localMatrix d.
Definition LocalHeight (d : DistMatrix) : Z := m_height (_localMatrix d).
Definition LocalWidth (d : DistMatrix) : Z := m_width (_localMatrix d).
Definition LocalLDim (d : DistMatrix) : Z := m_ldim (_localMatrix d).
Definition LocalBuffer (d : DistMatrix) : Buffer := m_data (_localMatrix d).
Definition LockedLocalBuffer (d : DistMatrix) : Buffer := m_data (_localMatrix d).
Definition GetLocalEntry (d : DistMatrix) (i j : Z) : T := Matrix_Get (_localMatrix d) i j.

(** Field updates. *)
Definition set_size (d : DistMatrix) (height width : Z) : DistMatrix :=
  mkDistMatrix (_viewing d) (_lockedView d) height width (_localMatrix d)
    (_constrainedColAlignment d) (_constrainedRowAlignment d)
    (_colAlignment d) (_rowAlignment d) (_colShift d) (_rowShift d) (_grid d).

Definition set_colAlignment (d : DistMatrix) (colAlignment colShift : Z) : DistMatrix :=
  mkDistMatrix (_viewing d) (_lockedView d) (_height d) (_width d) (_localMatrix d)
    (_constrainedColAlignment d) (_constrainedRowAlignment d)
    colAlignment (_rowAlignment d) colShift (_rowShift d) (_grid d).

Definition set_constrainedColAlignment (d : DistMatrix) (b : bool) : DistMatrix :=
  mkDistMatrix (_viewing d) (_lockedView d) (_height d) (_width d) (_localMatrix d)
    b (_constrainedRowAlignment d)
    (_colAlignment d) (_rowAlignment d) (_colShift d) (_rowShift d) (_grid d).

Definition set_localMatrix (d : DistMatrix) (m : Matrix) : DistMatrix :=
  mkDistMatrix (_viewing d) (_lockedView d) (_height d) (_width d) m
    (_constrainedColAlignment d) (_constrainedRowAlignment d)
    (_colAlignment d) (_rowAlignment d) (_colShift d) (_rowShift d) (_grid d).

Definition set_view (d : DistMatrix) (viewing lockedView : bool) : DistMatrix :=
  mkDistMatrix viewing lockedView (_height d) (_width d) (_localMatrix d)
    (_constrainedColAlignment d) (_constrainedRowAlignment d)
    (_colAlignment d) (_rowAlignment d) (_colShift d) (_rowShift d) (_grid d).

(** ** Programs that communicate *)

(** The code of one process: it returns, or it issues a collective over a
    communication scope and continues with what the collective delivers.
    - [Broadcast u root comm]: [mpi::Broadcast( &u, 1, root, comm )];
    - [SendRecv buf sendOff sendCount dest recvOff recvCount source comm]:
      [mpi::SendRecv( &buf[sendOff], sendCount, dest, 0,
                      &buf[recvOff], recvCount, source, ANY_TAG, comm )];
    - [AllGather buf sendOff count recvOff comm]:
      [mpi::AllGather( &buf[sendOff], count, &buf[recvOff], count, comm )]. *)
Inductive Prog (R : Type) : Type :=
| Ret (r : R)
| Broadcast (u : T) (root : Z) (comm : Comm) (k : T -> Prog R)
| SendRecv (buf : Buffer) (sendOff sendCount dest recvOff recvCount source : Z)
           (comm : Comm) (k : Buffer -> Prog R)
| AllGather (buf : Buffer) (sendOff count recvOff : Z) (comm : Comm)
            (k : Buffer -> Prog R).
Arguments Ret {R} r.
Arguments Broadcast {R} u root comm k.
Arguments SendRecv {R} buf sendOff sendCount dest recvOff recvCount source comm k.
Arguments AllGather {R} buf sendOff count recvOff comm k.

Fixpoint Prog_bind {R S : Type} (p : Prog R) (f : R -> Prog S) : Prog S :=
  match p with
  | Ret r => f r
  | Broadcast u root comm k => Broadcast u root comm (fun v => Prog_bind (k v) f)
  | SendRecv buf so sc d ro rc s comm k =>
      SendRecv buf so sc d ro rc s comm (fun b => Prog_bind (k b) f)
  | AllGather buf so n ro comm k =>
      AllGather buf so n ro comm (fun b => Prog_bind (k b) f)
  end.

(** A program is silent when it issues no collective at all. *)
Definition silent {R : Type} (p : Prog R) : bool :=
  match p with Ret _ => true | _ => false end.

(** A member function: from the state of [this] to a program that ends with
    an outcome (a value or an exception) and the state of [this] then. *)
Definition Method (A : Type) : Type := DistMatrix -> Prog (Outcome A * DistMatrix).

Definition ret {A : Type} (a : A) : Method A := fun this => Ret (Normal a, this).

Definition throw {A : Type} (e : Error) : Method A := fun this => Ret (Raised e, this).

Definition bind {A B : Type} (m : Method A) (f : A -> Method B) : Method B :=
  fun this =>
    Prog_bind (m this)
      (fun r => match fst r with
                | Normal a => f a (snd r)
                | Raised e => Ret (Raised e, snd r)
                end).

Definition get : Method DistMatrix := fun this => Ret (Normal this, this).

Definition modify (f : DistMatrix -> DistMatrix) : Method unit :=
  fun this => Ret (Normal tt, f this).

Definition broadcast (u : T) (root : Z) (comm : Comm) : Method T :=
  fun this => Broadcast u root comm (fun v => Ret (Normal v, this)).

Definition sendrecv (buf : Buffer) (sendOff sendCount dest recvOff recvCount source : Z)
    (comm : Comm) : Method Buffer :=
  fun this => SendRecv buf sendOff sendCount dest recvOff recvCount source comm
                (fun b => Ret (Normal b, this)).

Definition allgather (buf : Buffer) (sendOff count recvOff : Z) (comm : Comm) : Method Buffer :=
  fun this => AllGather buf sendOff count recvOff comm (fun b => Ret (Normal b, this)).

Notation "x <- m ;; k" := (bind m (fun x => k))
  (at level 61, m at next level, right associativity).
Notation "m ;;; k" := (bind m (fun _ => k))
  (at level 61, right associativity).

(** [#ifndef RELEASE ... #endif] *)
Definition debug (m : Method unit) : Method unit :=
  if release then ret tt else m.

Definition when (b : bool) (m : Method unit) : Method unit :=
  if b then m else ret tt.

(** Lifts an operation of the local matrix to [this]. *)
Definition onLocalMatrix (f : Matrix -> Outcome Matrix) : Method unit :=
  fun this =>
    match f (_localMatrix this) with
    | Normal m => Ret (Normal tt, set_localMatrix this m)
    | Raised e => Ret (Raised e, this)
    end.

Definition setLocalBuffer (b : Buffer) : Method unit :=
  modify (fun this => set_localMatrix this (Matrix_with_data (_localMatrix this) b)).

(** ** Assertions of the base class *)

(** Modelled from the spec: the assertions are members of the abstract base
    class, which is not part of the sources at hand.  "the target's
    alignment must currently be free ... violating this is a fatal misuse
    error". *)
Definition AssertFreeColAlignment : Method unit :=
  this <- get ;;
  if _constrainedColAlignment this
  then throw (logic_error "Assertion that column alignment be free failed.")
  else ret tt.

(** Modelled from the spec: "locked views forbid mutation". *)
Definition AssertNotLockedView : Method unit :=
  this <- get ;;
  if _viewing this && _lockedView this
  then throw (logic_error "Assertion that matrix not be a locked view failed.")
  else ret tt.

(** Modelled from the spec: a view is made by an object that holds no owned
    data of its own. *)
Definition AssertNotStoringData : Method unit :=
  this <- get ;;
  if 0 <? Matrix_MemorySize (_localMatrix this)
  then throw (logic_error "Assertion that matrix not be storing data failed.")
  else ret tt.

(** Modelled from the spec: both objects live on the same process grid. *)
Definition AssertSameGrid (A : DistMatrix) : Method unit :=
  this <- get ;;
  if Grid.eqb (_grid this) (_grid A) then ret tt
  else throw (logic_error "Assertion that grids match failed.").

(** Modelled from the spec: "a size mismatch between a fixed-size view
    destination and the source's global shape is detected and reported
    before any collective begins". *)
Definition AssertSameSize (A : DistMatrix) : Method unit :=
  this <- get ;;
  if (Height this =? Height A) && (Width this =? Width A) then ret tt
  else throw (logic_error "Assertion that matrices be the same size failed.").

(** Modelled from the spec: "EntryOutOfRange (Get/Set/Update index outside
    current global extent)". *)
Definition AssertValidEntry (i j : Z) : Method unit :=
  this <- get ;;
  if (i <? 0) || (i >=? Height this) || (j <? 0) || (j >=? Width this)
  then throw (logic_error "Entry is out of bounds.")
  else ret tt.

(** Modelled from the spec: the sub-rectangle lies within the owner. *)
Definition AssertValidSubmatrix (A : DistMatrix) (i j height width : Z) : Method unit :=
  if (i <? 0) || (j <? 0)
  then throw (logic_error "Indices of submatrix were negative.")
  else if (height <? 0) || (width <? 0)
  then throw (logic_error "Dimensions of submatrix were negative.")
  else if (i + height >? Height A) || (j + width >? Width A)
  then throw (logic_error "Submatrix is out of bounds.")
  else ret tt.

(** ** Member functions of [DistMatrixBase<T,MR,STAR>] *)

(** Modelled from the spec: [SetLocalEntry] and [UpdateLocalEntry] are
    members of the base class; they write or accumulate into local
    storage. *)
Definition SetLocalEntry (i j : Z) (u : T) : Method unit :=
  onLocalMatrix (fun m => Matrix_Set m i j u).

Definition UpdateLocalEntry (i j : Z) (u : T) : Method unit :=
  onLocalMatrix (fun m => Matrix_Update m i j u).

(** [AlignCols( int colAlignment )] *)
Definition AlignCols (colAlignment : Z) : Method unit :=
  debug AssertFreeColAlignment ;;;
  this <- get ;;
  let g := _grid this in
  debug (if (colAlignment <? 0) || (colAlignment >=? Grid.Width g)
         then throw (runtime_error "Invalid column alignment for [MR,* ]")
         else ret tt) ;;;
  modify (fun this =>
    set_colAlignment this colAlignment (Shift (Grid.MRRank g) colAlignment (Grid.Width g))) ;;;
  modify (fun this => set_constrainedColAlignment this true) ;;;
  modify (fun this => set_size this 0 0) ;;;
  onLocalMatrix (fun m => Matrix_ResizeTo m 0 0).

(** [Align( int colAlignment )] *)
Definition Align (colAlignment : Z) : Method unit :=
  debug AssertFreeColAlignment ;;;
  AlignCols colAlignment.

(** [AlignWith( const DistMatrixBase<T,MR,MC>& A )] *)
Definition AlignWith_MR_MC (A : DistMatrix) : Method unit :=
  debug (AssertFreeColAlignment ;;; AssertSameGrid A) ;;;
  modify (fun this => set_colAlignment this (ColAlignment A) (ColShift A)) ;;;
  modify (fun this => set_constrainedColAlignment this true) ;;;
  modify (fun this => set_size this 0 0) ;;;
  onLocalMatrix (fun m => Matrix_ResizeTo m 0 0).

(** [AlignWith( const DistMatrixBase<T,MR,STAR>& A )] *)
Definition AlignWith_MR_STAR (A : DistMatrix) : Method unit :=
  debug (AssertFreeColAlignment ;;; AssertSameGrid A) ;;;
  modify (fun this => set_colAlignment this (ColAlignment A) (ColShift A)) ;;;
  modify (fun this => set_constrainedColAlignment this true) ;;;
  modify (fun this => set_size this 0 0) ;;;
  onLocalMatrix (fun m => Matrix_ResizeTo m 0 0).

(** [AlignWith( const DistMatrixBase<T,MC,MR>& A )] *)
Definition AlignWith_MC_MR (A : DistMatrix) : Method unit :=
  debug (AssertFreeColAlignment ;;; AssertSameGrid A) ;;;
  modify (fun this => set_colAlignment this (RowAlignment A) (RowShift A)) ;;;
  modify (fun this => set_constrainedColAlignment this true) ;;;
  modify (fun this => set_size this 0 0) ;;;
  onLocalMatrix (fun m => Matrix_ResizeTo m 0 0).

(** [AlignWith( const DistMatrixBase<T,STAR,MR>& A )] *)
Definition AlignWith_STAR_MR (A : DistMatrix) : Method unit :=
  debug (AssertFreeColAlignment ;;; AssertSameGrid A) ;;;
  modify (fun this => set_colAlignment this (RowAlignment A) (RowShift A)) ;;;
  modify (fun this => set_constrainedColAlignment this true) ;;;
  modify (fun this => set_size this 0 0) ;;;
  onLocalMatrix (fun m => Matrix_ResizeTo m 0 0).

(** [AlignWith( const DistMatrixBase<T,VR,STAR>& A )] *)
Definition AlignWith_VR_STAR (A : DistMatrix) : Method unit :=
  debug (AssertFreeColAlignment ;;; AssertSameGrid A) ;;;
  this <- get ;;
  let g := _grid this in
  modify (fun this =>
    set_colAlignment this (ColAlignment A)
      (Shift (Grid.MRRank g) (ColAlignment A) (Grid.Width g))) ;;;
  modify (fun this => set_constrainedColAlignment this true) ;;;
  modify (fun this => set_size this 0 0) ;;;
  onLocalMatrix (fun m => Matrix_ResizeTo m 0 0).

(** [AlignWith( const DistMatrixBase<T,STAR,VR>& A )] *)
Definition AlignWith_STAR_VR (A : DistMatrix) : Method unit :=
  debug (AssertFreeColAlignment ;;; AssertSameGrid A) ;;;
  this <- get ;;
  let g := _grid this in
  modify (fun this =>
    set_colAlignment this (RowAlignment A)
      (Shift (Grid.MRRank g) (RowAlignment A) (Grid.Width g))) ;;;
  modify (fun this => set_constrainedColAlignment this true) ;;;
  modify (fun this => set_size this 0 0) ;;;
  onLocalMatrix (fun m => Matrix_ResizeTo m 0 0).

(** [View( DistMatrixBase<T,MR,STAR>& A )] *)
Definition View (A : DistMatrix) : Method unit :=
  debug (AssertFreeColAlignment ;;; AssertNotStoringData ;;; AssertSameGrid A) ;;;
  modify (fun this => set_size this (Height A) (Width A)) ;;;
  modify (fun this => set_colAlignment this (ColAlignment A) (ColShift A)) ;;;
  modify (fun this =>
    set_localMatrix this
      (Matrix_View (LocalMatrix A) 0 0 (LocalHeight A) (LocalWidth A))) ;;;
  modify (fun this => set_view this true false).

(** [LockedView( const DistMatrixBase<T,MR,STAR>& A )] *)
Definition LockedView (A : DistMatrix) : Method unit :=
  debug (AssertFreeColAlignment ;;; AssertNotStoringData ;;; AssertSameGrid A) ;;;
  modify (fun this => set_size this (Height A) (Width A)) ;;;
  modify (fun this => set_colAlignment this (ColAlignment A) (ColShift A)) ;;;
  modify (fun this =>
    set_localMatrix this
      (Matrix_LockedView (LockedLocalMatrix A) 0 0 (LocalHeight A) (LocalWidth A))) ;;;
  modify (fun this => set_view this true true).

(** [View( DistMatrixBase<T,MR,STAR>& A, int i, int j, int height, int width )] *)
Definition ViewSub (A : DistMatrix) (i j height width : Z) : Method unit :=
  debug (AssertFreeColAlignment ;;; AssertNotStoringData ;;; AssertSameGrid A ;;;
         AssertValidSubmatrix A i j height width) ;;;
  modify (fun this => set_size this height width) ;;;
  this <- get ;;
  let g := _grid this in
  let c := Grid.Width g in
  let col := Grid.MRRank g in
  let colAlignment := Z.rem (ColAlignment A + i) c in
  let colShift := Shift col colAlignment c in
  modify (fun this => set_colAlignment this colAlignment colShift) ;;;
  let localHeightBefore := LocalLength i (ColShift A) c in
  let localHeight := LocalLength height colShift c in
  modify (fun this =>
    set_localMatrix this
      (Matrix_View (LocalMatrix A) localHeightBefore j localHeight width)) ;;;
  modify (fun this => set_view this true false).

(** [LockedView( const DistMatrixBase<T,MR,STAR>& A, int i, int j, int height, int width )] *)
Definition LockedViewSub (A : DistMatrix) (i j height width : Z) : Method unit :=
  debug (AssertFreeColAlignment ;;; AssertNotStoringData ;;; AssertSameGrid A ;;;
         AssertValidSubmatrix A i j height width) ;;;
  modify (fun this => set_size this height width) ;;;
  this <- get ;;
  let g := _grid this in
  let c := Grid.Width g in
  let col := Grid.MRRank g in
  let colAlignment := Z.rem (ColAlignment A + i) c in
  let colShift := Shift col colAlignment c in
  modify (fun this => set_colAlignment this colAlignment colShift) ;;;
  let localHeightBefore := LocalLength i (ColShift A) c in
  let localHeight := LocalLength height colShift c in
  modify (fun this =>
    set_localMatrix this
      (Matrix_LockedView (LockedLocalMatrix A) localHeightBefore j localHeight width)) ;;;
  modify (fun this => set_view this true true).

(** [ResizeTo( int height, int width )] *)
Definition ResizeTo (height width : Z) : Method unit :=
  debug (AssertNotLockedView ;;;
         if (height <? 0) || (width <? 0)
         then throw (logic_error "Height and width must be non-negative.")
         else ret tt) ;;;
  modify (fun this => set_size this height width) ;;;
  this <- get ;;
  onLocalMatrix (fun m =>
    Matrix_ResizeTo m (LocalLength height (ColShift this) (Grid.Width (_grid this))) width).

(** [Get( int i, int j )] *)
Definition Get (i j : Z) : Method T :=
  debug (AssertValidEntry i j) ;;;
  this <- get ;;
  let g := _grid this in
  let ownerCol := Z.rem (i + ColAlignment this) (Grid.Width g) in
  let u := if Grid.MRRank g =? ownerCol
           then let iLoc := Z.quot (i - ColShift this) (Grid.Width g) in
                GetLocalEntry this iLoc j
           else uninitT in
  broadcast u ownerCol MRComm.

(** [Set( int i, int j, T u )] *)
Definition Set_ (i j : Z) (u : T) : Method unit :=
  debug (AssertValidEntry i j) ;;;
  this <- get ;;
  let g := _grid this in
  let ownerCol := Z.rem (i + ColAlignment this) (Grid.Width g) in
  when (Grid.MRRank g =? ownerCol)
    (let iLoc := Z.quot (i - ColShift this) (Grid.Width g) in
     SetLocalEntry iLoc j u).

(** [Update( int i, int j, T u )] *)
Definition Update (i j : Z) (u : T) : Method unit :=
  debug (AssertValidEntry i j) ;;;
  this <- get ;;
  let g := _grid this in
  let ownerCol := Z.rem (i + ColAlignment this) (Grid.Width g) in
  when (Grid.MRRank g =? ownerCol)
    (let iLoc := Z.quot (i - ColShift this) (Grid.Width g) in
     UpdateLocalEntry iLoc j u).

(** The assertions that open every [operator=]. *)
Definition assign_asserts (A : DistMatrix) : Method unit :=
  debug (AssertNotLockedView ;;; AssertSameGrid A ;;;
         (this <- get ;; when (Viewing this) (AssertSameSize A))).

(** [operator=( const DistMatrixBase<T,MD,STAR>& A )] *)
Definition assign_MD_STAR (A : DistMatrix) : Method unit :=
  assign_asserts A ;;;
  throw (logic_error "[MR,* ] = [MD,* ] not yet implemented.").

(** [operator=( const DistMatrixBase<T,STAR,MD>& A )] *)
Definition assign_STAR_MD (A : DistMatrix) : Method unit :=
  assign_asserts A ;;;
  throw (logic_error "[MR,* ] = [* ,MD] not yet implemented.").

(** The unpack loop shared by both branches of [operator=] from [MR,MC]:
    the portion gathered from grid row [k] holds the columns
    [rowShift + jLocal*r] of [this]. *)
Definition unpack_MR_MC (r width localHeight thisLDim rowAlignmentOfA : Z)
    (gathered : Buffer) (gatheredOff portionSize : Z) (thisLocalBuffer : Buffer) : Buffer :=
  for_loop (Z.to_nat r)
    (fun k tb =>
       let data := gatheredOff + k * portionSize in
       let rowShift := RawShift k rowAlignmentOfA r in
       let localWidth := RawLocalLength width rowShift r in
       for_loop (Z.to_nat localWidth)
         (fun jLocal tb =>
            memcpy tb ((rowShift + jLocal * r) * thisLDim)
                   gathered (data + jLocal * localHeight) localHeight)
         tb)
    thisLocalBuffer.

(** [operator=( const DistMatrixBase<T,MR,MC>& A )] *)
Definition assign_MR_MC (A : DistMatrix) : Method unit :=
  assign_asserts A ;;;
  this <- get ;;
  let g := _grid this in
  when (negb (Viewing this))
    (when (negb (ConstrainedColAlignment this))
       (modify (fun this =>
          set_colAlignment this (ColAlignment A)
            (Shift (Grid.MRRank g) (ColAlignment A) (Grid.Width g)))) ;;;
     ResizeTo (Height A) (Width A)) ;;;
  this <- get ;;
  if ColAlignment this =? ColAlignment A then
    let r := Grid.Height g in
    let width := Width this in
    let localHeight := LocalHeight this in
    let localWidthOfA := LocalWidth A in
    let maxLocalWidth := MaxLocalLength width r in
    let portionSize := Z.max (localHeight * maxLocalWidth) MIN_COLL_MSG in
    let buffer := uninit in
    let originalData := 0 in
    let gatheredData := portionSize in
    let ALocalBuffer := LockedLocalBuffer A in
    let ALDim := LocalLDim A in
    let packed :=
      for_loop (Z.to_nat localWidthOfA)
        (fun jLocal buf =>
           memcpy buf (originalData + jLocal * localHeight)
                  ALocalBuffer (jLocal * ALDim) localHeight)
        buffer in
    gathered <- allgather packed originalData portionSize gatheredData MCComm ;;
    setLocalBuffer
      (unpack_MR_MC r width localHeight (LocalLDim this) (RowAlignment A)
         gathered gatheredData portionSize (LocalBuffer this))
  else
    let r := Grid.Height g in
    let c := Grid.Width g in
    let col := Grid.MRRank g in
    let colAlignment := ColAlignment this in
    let colAlignmentOfA := ColAlignment A in
    let sendCol := Z.rem (col + c + colAlignment - colAlignmentOfA) c in
    let recvCol := Z.rem (col + c + colAlignmentOfA - colAlignment) c in
    let height := Height this in
    let width := Width this in
    let localHeight := LocalHeight this in
    let localHeightOfA := LocalHeight A in
    let localWidthOfA := LocalWidth A in
    let maxLocalHeight := MaxLocalLength height c in
    let maxLocalWidth := MaxLocalLength width r in
    let portionSize := Z.max (maxLocalHeight * maxLocalWidth) MIN_COLL_MSG in
    let buffer := uninit in
    let firstBuffer := 0 in
    let secondBuffer := portionSize in
    let ALocalBuffer := LockedLocalBuffer A in
    let ALDim := LocalLDim A in
    let packed :=
      for_loop (Z.to_nat localWidthOfA)
        (fun jLocal buf =>
           memcpy buf (secondBuffer + jLocal * localHeightOfA)
                  ALocalBuffer (jLocal * ALDim) localHeightOfA)
        buffer in
    received <- sendrecv packed secondBuffer portionSize sendCol
                         firstBuffer portionSize recvCol MRComm ;;
    gathered <- allgather received firstBuffer portionSize secondBuffer MCComm ;;
    setLocalBuffer
      (unpack_MR_MC r width localHeight (LocalLDim this) (RowAlignment A)
         gathered secondBuffer portionSize (LocalBuffer this)).

(** [operator=( const DistMatrixBase<T,MR,STAR>& A )] *)
Definition assign_MR_STAR (A : DistMatrix) : Method unit :=
  assign_asserts A ;;;
  this <- get ;;
  let g := _grid this in
  when (negb (Viewing this))
    (when (negb (ConstrainedColAlignment this))
       (modify (fun this => set_colAlignment this (ColAlignment A) (ColShift A))) ;;;
     ResizeTo (Height A) (Width A)) ;;;
  this <- get ;;
  if ColAlignment this =? ColAlignment A then
    onLocalMatrix (fun m => Matrix_assign m (LockedLocalMatrix A))
  else
    let rank := Grid.MRRank g in
    let c := Grid.Width g in
    let colAlignment := ColAlignment this in
    let colAlignmentOfA := ColAlignment A in
    let sendRank := Z.rem (rank + c + colAlignment - colAlignmentOfA) c in
    let recvRank := Z.rem (rank + c + colAlignmentOfA - colAlignment) c in
    let width := Width this in
    let localHeight := LocalHeight this in
    let localHeightOfA := LocalHeight A in
    let sendSize := localHeightOfA * width in
    let recvSize := localHeight * width in
    let buffer := uninit in
    let sendBuffer := 0 in
    let recvBuffer := sendSize in
    let ALocalBuffer := LockedLocalBuffer A in
    let ALDim := LocalLDim A in
    let packed :=
      for_loop (Z.to_nat width)
        (fun j buf =>
           memcpy buf (sendBuffer + j * localHeightOfA)
                  ALocalBuffer (j * ALDim) localHeightOfA)
        buffer in
    received <- sendrecv packed sendBuffer sendSize sendRank
                         recvBuffer recvSize recvRank MRComm ;;
    let thisLDim := LocalLDim this in
    setLocalBuffer
      (for_loop (Z.to_nat width)
         (fun j tb =>
            memcpy tb (j * thisLDim) received (recvBuffer + j * localHeight) localHeight)
         (LocalBuffer this)).

(** The unpack loop shared by both branches of [operator=] from [VR,* ]:
    the portion gathered from grid row [k] holds the local rows
    [colOffset + iLocal*r] of [this]. *)
Definition unpack_VR_STAR (r c p col height width colShift thisLDim vrAlignment : Z)
    (gathered : Buffer) (gatheredOff portionSize : Z) (thisLocalBuffer : Buffer) : Buffer :=
  for_loop (Z.to_nat r)
    (fun k tb =>
       let data := gatheredOff + k * portionSize in
       let colShiftOfA := RawShift (col + c * k) vrAlignment p in
       let colOffset := Z.quot (colShiftOfA - colShift) c in
       let localHeight := RawLocalLength height colShiftOfA p in
       for_loop (Z.to_nat width)
         (fun j tb =>
            for_loop (Z.to_nat localHeight)
              (fun iLocal tb =>
                 upd tb ((colOffset + iLocal * r) + j * thisLDim)
                     (gathered (data + (iLocal + j * localHeight))))
              tb)
         tb)
    thisLocalBuffer.

(** [operator=( const DistMatrixBase<T,VR,STAR>& A )] *)
Definition assign_VR_STAR (A : DistMatrix) : Method unit :=
  assign_asserts A ;;;
  this <- get ;;
  let g := _grid this in
  when (negb (Viewing this))
    (when (negb (ConstrainedColAlignment this))
       (modify (fun this =>
          set_colAlignment this (Z.rem (ColAlignment A) (Grid.Width g))
            (Shift (Grid.MRRank g) (Z.rem (ColAlignment A) (Grid.Width g)) (Grid.Width g)))) ;;;
     ResizeTo (Height A) (Width A)) ;;;
  this <- get ;;
  if ColAlignment this =? Z.rem (ColAlignment A) (Grid.Width g) then
    let r := Grid.Height g in
    let c := Grid.Width g in
    let p := r * c in
    let col := Grid.MRRank g in
    let height := Height this in
    let width := Width this in
    let localHeightOfA := LocalHeight A in
    let maxLocalHeightOfA := MaxLocalLength height p in
    let portionSize := Z.max (maxLocalHeightOfA * width) MIN_COLL_MSG in
    let buffer := uninit in
    let originalData := 0 in
    let gatheredData := portionSize in
    let ALocalBuffer := LockedLocalBuffer A in
    let ALDim := LocalLDim A in
    let packed :=
      for_loop (Z.to_nat width)
        (fun j buf =>
           memcpy buf (originalData + j * localHeightOfA)
                  ALocalBuffer (j * ALDim) localHeightOfA)
        buffer in
    gathered <- allgather packed originalData portionSize gatheredData MCComm ;;
    setLocalBuffer
      (unpack_VR_STAR r c p col height width (ColShift this) (LocalLDim this)
         (ColAlignment A) gathered gatheredData portionSize (LocalBuffer this))
  else
    let r := Grid.Height g in
    let c := Grid.Width g in
    let p := Grid.Size g in
    let col := Grid.MRRank g in
    let rank := Grid.VRRank g in
    let colAlignment := ColAlignment this in
    let colAlignmentOfA := ColAlignment A in
    let colShift := ColShift this in
    let sendRank := Z.rem (rank + p + colAlignment - colAlignmentOfA) p in
    let recvRank := Z.rem (rank + p + colAlignmentOfA - colAlignment) p in
    let height := Height this in
    let width := Width this in
    let localHeightOfA := LocalHeight A in
    let maxLocalHeightOfA := MaxLocalLength height p in
    let portionSize := Z.max (maxLocalHeightOfA * width) MIN_COLL_MSG in
    let buffer := uninit in
    let firstBuffer := 0 in
    let secondBuffer := portionSize in
    let ALocalBuffer := LockedLocalBuffer A in
    let ALDim := LocalLDim A in
    let packed :=
      for_loop (Z.to_nat width)
        (fun j buf =>
           memcpy buf (secondBuffer + j * localHeightOfA)
                  ALocalBuffer (j * ALDim) localHeightOfA)
        buffer in
    received <- sendrecv packed secondBuffer portionSize sendRank
                         firstBuffer portionSize recvRank VRComm ;;
    gathered <- allgather received firstBuffer portionSize secondBuffer MCComm ;;
    setLocalBuffer
      (unpack_VR_STAR r c p col height width colShift (LocalLDim this)
         colAlignment gathered secondBuffer portionSize (LocalBuffer this)).

(** [operator=( const DistMatrixBase<T,STAR,STAR>& A )] *)
Definition assign_STAR_STAR (A : DistMatrix) : Method unit :=
  assign_asserts A ;;;
  this <- get ;;
  let g := _grid this in
  when (negb (Viewing this)) (ResizeTo (Height A) (Width A)) ;;;
  this <- get ;;
  let c := Grid.Width g in
  let colShift := ColShift this in
  let width := Width this in
  let localHeight := LocalHeight this in
  let thisLDim := LocalLDim this in
  let ALocalBuffer := LockedLocalBuffer A in
  let ALDim := LocalLDim A in
  setLocalBuffer
    (for_loop (Z.to_nat width)
       (fun j tb =>
          for_loop (Z.to_nat localHeight)
            (fun iLocal tb =>
               upd tb (iLocal + j * thisLDim)
                   (ALocalBuffer ((colShift + iLocal * c) + j * ALDim)))
            tb)
       (LocalBuffer this)).

(** ** The grid of processes, in lock step *)

(** One value per process: [w k q] belongs to the process in grid row [k]
    and grid column [q]. *)
Definition World (X : Type) : Type := Z -> Z -> X.

Definition ranks (n : Z) : list Z := map Z.of_nat (seq 0 (Z.to_nat n)).

Section Collectives.

(** The grid is [r x c]. *)
Variables r c : Z.
Context {R : Type}.

Definition comm_size (comm : Comm) : Z :=
  match comm with
  | MCComm => r
  | MRComm => c
  | VCComm | VRComm => r * c
  end.

(** The rank of process [(k,q)] within its scope. *)
Definition comm_rank (comm : Comm) (k q : Z) : Z :=
  match comm with
  | MCComm => k
  | MRComm => q
  | VCComm => k + r * q
  | VRComm => q + c * k
  end.

(** The member of rank [rank] in the scope of process [(k,q)]. *)
Definition comm_peer (comm : Comm) (k q rank : Z) : Z * Z :=
  match comm with
  | MCComm => (rank, q)
  | MRComm => (k, rank)
  | VCComm => (rank mod r, rank / r)
  | VRComm => (rank / c, rank mod c)
  end.

Definition all_grid (P : Z -> Z -> bool) : bool :=
  forallb (fun k => forallb (fun q => P k q) (ranks c)) (ranks r).

(** What the pending collective of process [(k,q)] delivers, when its
    partners are at a matching collective; [None] is a mismatch, on which
    the processes would hang.
    - A broadcast delivers the root's value.
    - A send-receive delivers the [sendCount] entries its source sends,
      provided the source sends to this process, the destination receives
      from it, and the message fits the receive count.
    - An all-gather delivers the portions of all members, in rank order,
      provided all contribute the same count. *)
Definition deliver (w : World (Prog R)) (k q : Z) : option (Prog R) :=
  match w k q with
  | Ret x => Some (Ret x)
  | Broadcast u root comm kont =>
      if in_range 0 (comm_size comm) root then
        let peer := comm_peer comm k q root in
        match w (fst peer) (snd peer) with
        | Broadcast u' root' comm' _ =>
            if (root' =? root) && Comm_eqb comm' comm then Some (kont u') else None
        | _ => None
        end
      else None
  | SendRecv buf sendOff sendCount dest recvOff recvCount source comm kont =>
      if in_range 0 (comm_size comm) source && in_range 0 (comm_size comm) dest then
        let src := comm_peer comm k q source in
        let dst := comm_peer comm k q dest in
        match w (fst src) (snd src), w (fst dst) (snd dst) with
        | SendRecv buf' sendOff' sendCount' dest' _ _ _ comm' _,
          SendRecv _ _ _ _ _ _ source'' comm'' _ =>
            if (dest' =? comm_rank comm k q) && Comm_eqb comm' comm &&
               (sendCount' <=? recvCount) &&
               (source'' =? comm_rank comm k q) && Comm_eqb comm'' comm
            then Some (kont (fun idx =>
                   if in_range recvOff (recvOff + sendCount') idx
                   then buf' (sendOff' + (idx - recvOff))
                   else buf idx))
            else None
        | _, _ => None
        end
      else None
  | AllGather buf sendOff count recvOff comm kont =>
      if forallb
           (fun m =>
              let peer := comm_peer comm k q m in
              match w (fst peer) (snd peer) with
              | AllGather _ _ count' _ comm' _ => (count' =? count) && Comm_eqb comm' comm
              | _ => false
              end)
           (ranks (comm_size comm))
      then Some (kont (fun idx =>
             if in_range recvOff (recvOff + comm_size comm * count) idx
             then let m := (idx - recvOff) / count in
                  let peer := comm_peer comm k q m in
                  match w (fst peer) (snd peer) with
                  | AllGather buf' sendOff' _ _ _ _ =>
                      buf' (sendOff' + (idx - recvOff) mod count)
                  | _ => buf idx
                  end
             else buf idx))
      else None
  end.

Definition is_some {X : Type} (o : option X) : bool :=
  match o with Some _ => true | None => false end.

(** All processes complete their pending collective together. *)
Definition step_world (w : World (Prog R)) : option (World (Prog R)) :=
  if all_grid (fun k q => is_some (deliver w k q))
  then Some (fun k q => match deliver w k q with Some p => p | None => w k q end)
  else None.

Definition finished (w : World (Prog R)) : bool :=
  all_grid (fun k q => silent (w k q)).

(** Runs the grid until every process has returned; [None] when the
    collectives do not match or the fuel runs out. *)
Fixpoint run_world (fuel : nat) (w : World (Prog R)) : option (World (Prog R)) :=
  if finished w then Some w
  else match fuel with
       | O => None
       | Datatypes.S fuel' =>
           match step_world w with
           | Some w' => run_world fuel' w'
           | None => None
           end
       end.

End Collectives.

(** [call r c m this] runs the member function [m] on every process of the
    [r x c] grid, process [(k,q)] on its own object [this k q]; the
    collectives it issues take at most [fuel] rounds. *)
Definition call {A : Type} (r c : Z) (fuel : nat) (m : Z -> Z -> Method A)
    (this : World DistMatrix) : option (World (Prog (Outcome A * DistMatrix))) :=
  run_world r c fuel (fun k q => m k q (this k q)).

(** ** Well-formed objects and the matrices they represent *)

Definition on_grid (r c k q : Z) : Prop := 0 <= k < r /\ 0 <= q < c.

(** The local matrix is a proper [h x w] panel. *)
Definition Matrix_wf (m : Matrix) (h w : Z) : Prop :=
  m_height m = h /\ m_width m = w /\ h <= m_ldim m /\ 1 <= m_ldim m.

(** The object of process [(k,q)] is an [MR,* ] matrix of global shape
    [h x w] with column alignment [a]. *)
Definition MR_STAR_wf (r c k q : Z) (d : DistMatrix) (h w a : Z) : Prop :=
  _grid d = Grid.mk r c k q /\
  _height d = h /\ _width d = w /\ 0 <= h /\ 0 <= w /\
  _colAlignment d = a /\ 0 <= a < c /\
  _colShift d = Shift q a c /\
  Matrix_wf (_localMatrix d) (LocalLength h (Shift q a c) c) w.

(** The [MR,* ] objects of the grid hold the global matrix [G]: process
    [(k,q)] stores the rows [colShift + iLocal*c], every grid row a copy. *)
Definition MR_STAR_represents (r c : Z) (d : World DistMatrix) (h w a : Z)
    (G : Z -> Z -> T) : Prop :=
  forall k q, on_grid r c k q ->
    MR_STAR_wf r c k q (d k q) h w a /\
    forall iLocal j, 0 <= iLocal < LocalHeight (d k q) -> 0 <= j < w ->
      GetLocalEntry (d k q) iLocal j = G (ColShift (d k q) + iLocal * c) j.

(** The [* ,* ] objects of the grid hold [G]: every process a full copy. *)
Definition STAR_STAR_represents (r c : Z) (d : World DistMatrix) (h w : Z)
    (G : Z -> Z -> T) : Prop :=
  forall k q, on_grid r c k q ->
    _grid (d k q) = Grid.mk r c k q /\
    _height (d k q) = h /\ _width (d k q) = w /\ 0 <= h /\ 0 <= w /\
    Matrix_wf (_localMatrix (d k q)) h w /\
    forall i j, 0 <= i < h -> 0 <= j < w -> GetLocalEntry (d k q) i j = G i j.

(** An owning [MR,* ] object that can take an assignment: if its alignment
    is constrained it is [b], otherwise it will follow the source's [a]. *)
Definition MR_STAR_target (r c k q : Z) (d : DistMatrix) (a b : Z) : Prop :=
  _grid d = Grid.mk r c k q /\
  _viewing d = false /\ m_viewing (_localMatrix d) = false /\
  _lockedView d = false /\ m_lockedView (_localMatrix d) = false /\
  0 <= b < c /\
  (if _constrainedColAlignment d
   then _colAlignment d = b /\ _colShift d = Shift q b c
   else b = a).

(** Every process of the grid has returned normally from a call, with its
    object in the state [d' k q]. *)
Definition returns {A : Type} (r c : Z)
    (res : option (World (Prog (Outcome A * DistMatrix))))
    (v : World A) (d' : World DistMatrix) : Prop :=
  exists w, res = Some w /\
    forall k q, on_grid r c k q -> w k q = Ret (Normal (v k q), d' k q).

(** ** Sample objects *)

(** An empty shell on the grid [g], as a constructor leaves it: no data,
    alignment 0 and free. *)
Definition shell (g : Grid.t) : DistMatrix :=
  mkDistMatrix false false 0 0 Matrix_empty false false 0 0
    (Shift (Grid.MRRank g) 0 (Grid.Width g)) 0 g.

(** An owning [MR,* ] matrix of global shape [h x w] with the entries of
    [G], aligned at [a] and constrained, as process column [q] of a grid
    of width [c] holds it. *)
Definition sample (g : Grid.t) (h w a : Z) (G : Z -> Z -> T) : DistMatrix :=
  let c := Grid.Width g in
  let s := Shift (Grid.MRRank g) a c in
  let lh := LocalLength h s c in
  mkDistMatrix false false h w
    (mkMatrix lh w (Z.max lh 1)
       (fun idx => G (s + (idx mod Z.max lh 1) * c) (idx / Z.max lh 1)) false false)
    true false a 0 s 0 g.

(** ** Vocabulary of the statements *)

Inductive Collective : Type := BroadcastOp | SendRecvOp | AllGatherOp.

(** The collectives a program issues, in order, each with its scope and
    the count of entries this process contributes.  The control flow of the
    member functions does not depend on the data a collective delivers;
    the continuation is followed on the process's own buffer. *)
Fixpoint collectives {R : Type} (p : Prog R) : list (Collective * Comm * Z) :=
  match p with
  | Ret _ => []
  | Broadcast u _ comm k => (BroadcastOp, comm, 1) :: collectives (k u)
  | SendRecv buf _ sendCount _ _ _ _ comm k =>
      (SendRecvOp, comm, sendCount) :: collectives (k buf)
  | AllGather buf _ count _ comm k => (AllGatherOp, comm, count) :: collectives (k buf)
  end.

(** [ensures P p]: [P] holds of the result of [p], whatever the
    collectives deliver. *)
Fixpoint ensures {R : Type} (P : R -> Prop) (p : Prog R) : Prop :=
  match p with
  | Ret x => P x
  | Broadcast _ _ _ k => forall v, ensures P (k v)
  | SendRecv _ _ _ _ _ _ _ _ k => forall b, ensures P (k b)
  | AllGather _ _ _ _ _ k => forall b, ensures P (k b)
  end.

(** The alignment invariant of an [MR,* ] object. *)
Definition col_aligned (d : DistMatrix) : Prop :=
  0 <= _colAlignment d < Grid.Width (_grid d) /\
  _colShift d =
  (Grid.MRRank (_grid d) - _colAlignment d + Grid.Width (_grid d)) mod Grid.Width (_grid d).

(** The outcome of a permitted alignment call: the object is empty and
    constrained to the alignment [a]. *)
Definition aligned_empty (p : Prog (Outcome unit * DistMatrix)) (g : Grid.t) (a : Z) : Prop :=
  exists this',
    p = Ret (Normal tt, this') /\
    Height this' = 0 /\ Width this' = 0 /\
    LocalHeight this' = 0 /\ LocalWidth this' = 0 /\
    ColAlignment this' = a /\ 0 <= a < Grid.Width g /\
    ColShift this' = Shift (Grid.MRRank g) a (Grid.Width g) /\
    ConstrainedColAlignment this' = true.

(** [Writes f W]: the buffer transformer [f] stores [v] at every index
    [idx] with [W idx v] and leaves the indices outside [W] alone. *)
Definition Writes (f : Buffer -> Buffer) (W : Z -> T -> Prop) : Prop :=
  forall b idx,
    (forall v, W idx v -> f b idx = v) /\
    ((forall v, ~ W idx v) -> f b idx = b idx).


(** Two [MR,* ] objects per process with the same shape, alignment and
    local entries. *)
Definition same_entries (r c : Z) (d1 d2 : World DistMatrix) : Prop :=
  forall k q, on_grid r c k q ->
    Height (d1 k q) = Height (d2 k q) /\ Width (d1 k q) = Width (d2 k q) /\
    ColAlignment (d1 k q) = ColAlignment (d2 k q) /\
    ColShift (d1 k q) = ColShift (d2 k q) /\
    LocalHeight (d1 k q) = LocalHeight (d2 k q) /\
    LocalWidth (d1 k q) = LocalWidth (d2 k q) /\
    forall iLocal j, 0 <= iLocal < LocalHeight (d2 k q) -> 0 <= j < LocalWidth (d2 k q) ->
      GetLocalEntry (d1 k q) iLocal j = GetLocalEntry (d2 k q) iLocal j.

(** The state of the target of process column [q] once it is aligned at
    [b] and resized to [h x w], before its entries are written. *)
Definition resized (r c h w k q b : Z) (B : DistMatrix) : DistMatrix :=
  mkDistMatrix false false h w
    (mkMatrix (LocalLength h (Shift q b c) c) w
              (Z.max (LocalLength h (Shift q b c) c) 1) uninit false false)
    (_constrainedColAlignment B) (_constrainedRowAlignment B)
    b (_rowAlignment B) (Shift q b c) (_rowShift B) (Grid.mk r c k q).


(** An owning [MR,* ] object aligned at [b], whether the alignment is
    constrained or not. *)
Definition MR_STAR_owner (r c k q : Z) (d : DistMatrix) (b : Z) : Prop :=
  _grid d = Grid.mk r c k q /\
  _viewing d = false /\ m_viewing (_localMatrix d) = false /\
  _lockedView d = false /\ m_lockedView (_localMatrix d) = false /\
  0 <= b < c /\
  _colAlignment d = b /\ _colShift d = Shift q b c.


(** ** Bulk local transforms and the transposing redistributions *)

(** [Side] and [Shape] as the trapezoidal routines take them. *)
Inductive Side : Type := LEFT | RIGHT.
Inductive Shape : Type := LOWER | UPPER.

(** [memset( &dst[dOff], 0, n*sizeof(T) )], with [v] the value of [T] whose
    bytes are all zero. *)
Definition memset (dst : Buffer) (dOff : Z) (v : T) (n : Z) : Buffer :=
  fun i => if in_range dOff (dOff + n) i then v else dst i.

Section Ring.

(** The constants [0] and [1] of the entry type, its product and its
    conjugation. *)
Variables zeroT oneT : T.
Variable mulT : T -> T -> T.
Variable Conj : T -> T.

(** Modelled from the spec: [Matrix::SetToZero] and the base-class member
    [SetToZero] that forwards to it are not part of the sources at hand;
    "zero/fill: operate purely on the local buffer"; "locked views forbid
    mutation". *)
Definition Matrix_SetToZero (m : Matrix) : Outcome Matrix :=
  if m_lockedView m then Raised (logic_error "Cannot modify data of locked matrices.")
  else Normal (Matrix_with_data m
         (for_loop (Z.to_nat (m_width m))
            (fun j b => memset b (j * m_ldim m) zeroT (m_height m))
            (m_data m))).

Definition SetToZero : Method unit := onLocalMatrix Matrix_SetToZero.

(** [MakeTrapezoidal( Side side, Shape shape, int offset )] *)
Definition MakeTrapezoidal (side : Side) (shape : Shape) (offset : Z) : Method unit :=
  debug AssertNotLockedView ;;;
  this <- get ;;
  let height := Height this in
  let width := Width this in
  let localHeight := LocalHeight this in
  let c := Grid.Width (_grid this) in
  let colShift := ColShift this in
  match shape with
  | LOWER =>
      let thisLocalBuffer := LocalBuffer this in
      let thisLDim := LocalLDim this in
      setLocalBuffer
        (for_loop (Z.to_nat width)
           (fun j tb =>
              let lastZeroRow :=
                match side with
                | LEFT => j - offset - 1
                | RIGHT => j - offset + height - width - 1
                end in
              if lastZeroRow >=? 0 then
                let boundary := Z.min (lastZeroRow + 1) height in
                let numZeroRows := RawLocalLength boundary colShift c in
                memset tb (j * thisLDim) zeroT numZeroRows
              else tb)
           thisLocalBuffer)
  | UPPER =>
      let thisLocalBuffer := LocalBuffer this in
      let thisLDim := LocalLDim this in
      setLocalBuffer
        (for_loop (Z.to_nat width)
           (fun j tb =>
              let firstZeroRow :=
                match side with
                | LEFT => Z.max (j - offset + 1) 0
                | RIGHT => Z.max (j - offset + height - width + 1) 0
                end in
              let numNonzeroRows := RawLocalLength firstZeroRow colShift c in
              if numNonzeroRows <? localHeight then
                memset tb (numNonzeroRows + j * thisLDim) zeroT (localHeight - numNonzeroRows)
              else tb)
           thisLocalBuffer)
  end.

(** [ScaleTrapezoidal( T alpha, Side side, Shape shape, int offset )] *)
Definition ScaleTrapezoidal (alpha : T) (side : Side) (shape : Shape) (offset : Z)
    : Method unit :=
  debug AssertNotLockedView ;;;
  this <- get ;;
  let height := Height this in
  let width := Width this in
  let localHeight := LocalHeight this in
  let c := Grid.Width (_grid this) in
  let colShift := ColShift this in
  match shape with
  | UPPER =>
      let thisLocalBuffer := LocalBuffer this in
      let thisLDim := LocalLDim this in
      setLocalBuffer
        (for_loop (Z.to_nat width)
           (fun j tb =>
              let lastRow :=
                match side with
                | LEFT => j - offset
                | RIGHT => j - offset + height - width
                end in
              let boundary := Z.min (lastRow + 1) height in
              let numRows := RawLocalLength boundary colShift c in
              let thisCol := j * thisLDim in
              for_loop (Z.to_nat numRows)
                (fun iLocal tb => upd tb (thisCol + iLocal) (mulT (tb (thisCol + iLocal)) alpha))
                tb)
           thisLocalBuffer)
  | LOWER =>
      let thisLocalBuffer := LocalBuffer this in
      let thisLDim := LocalLDim this in
      setLocalBuffer
        (for_loop (Z.to_nat width)
           (fun j tb =>
              let firstRow :=
                match side with
                | LEFT => Z.max (j - offset) 0
                | RIGHT => Z.max (j - offset + height - width) 0
                end in
              let numZeroRows := RawLocalLength firstRow colShift c in
              let thisCol := numZeroRows + j * thisLDim in
              for_loop (Z.to_nat (localHeight - numZeroRows))
                (fun iLocal tb => upd tb (thisCol + iLocal) (mulT (tb (thisCol + iLocal)) alpha))
                tb)
           thisLocalBuffer)
  end.

(** [SetToIdentity()] *)
Definition SetToIdentity : Method unit :=
  debug AssertNotLockedView ;;;
  this <- get ;;
  let width := Width this in
  let localHeight := LocalHeight this in
  let c := Grid.Width (_grid this) in
  let colShift := ColShift this in
  SetToZero ;;;
  this <- get ;;
  let thisLocalBuffer := LocalBuffer this in
  let thisLDim := LocalLDim this in
  setLocalBuffer
    (for_loop (Z.to_nat localHeight)
       (fun iLocal tb =>
          let i := colShift + iLocal * c in
          if i <? width then upd tb (iLocal + i * thisLDim) oneT else tb)
       thisLocalBuffer).

(** Modelled from the spec: the base-class assertion that a view has the
    shape of the transpose of the source. *)
Definition AssertSameSizeAsTranspose (A : DistMatrix) : Method unit :=
  this <- get ;;
  if (Height this =? Width A) && (Width this =? Height A) then ret tt
  else throw (logic_error "Assertion that matrices be the same size (after transposing) failed.").

(** The body shared by [AdjointFrom] and [TransposeFrom], which differ
    only in the operation [op] applied to each entry while packing
    ([Conj] for the adjoint, nothing for the transpose).  The source [A]
    is an [MC,MR] matrix. *)
Definition TransposeFrom_with (op : T -> T) (A : DistMatrix) : Method unit :=
  debug (AssertNotLockedView ;;; AssertSameGrid A ;;;
         (this <- get ;; when (Viewing this) (AssertSameSizeAsTranspose A))) ;;;
  this <- get ;;
  let g := _grid this in
  when (negb (Viewing this))
    (when (negb (ConstrainedColAlignment this))
       (modify (fun this =>
          set_colAlignment this (RowAlignment A)
            (Shift (Grid.MRRank g) (RowAlignment A) (Grid.Width g)))) ;;;
     ResizeTo (Width A) (Height A)) ;;;
  this <- get ;;
  if ColAlignment this =? RowAlignment A then
    let r := Grid.Height g in
    let width := Width this in
    let localHeight := LocalHeight this in
    let localHeightOfA := LocalHeight A in
    let maxLocalWidth := MaxLocalLength width r in
    let portionSize := Z.max (localHeight * maxLocalWidth) MIN_COLL_MSG in
    let buffer := uninit in
    let originalData := 0 in
    let gatheredData := portionSize in
    let ALocalBuffer := LockedLocalBuffer A in
    let ALDim := LocalLDim A in
    let packed :=
      for_loop (Z.to_nat localHeightOfA)
        (fun jLocal buf =>
           for_loop (Z.to_nat localHeight)
             (fun iLocal buf =>
                upd buf (originalData + (iLocal + jLocal * localHeight))
                    (op (ALocalBuffer (jLocal + iLocal * ALDim))))
             buf)
        buffer in
    gathered <- allgather packed originalData portionSize gatheredData MCComm ;;
    let colAlignmentOfA := ColAlignment A in
    setLocalBuffer
      (unpack_MR_MC r width localHeight (LocalLDim this) colAlignmentOfA
         gathered gatheredData portionSize (LocalBuffer this))
  else
    let r := Grid.Height g in
    let c := Grid.Width g in
    let col := Grid.MRRank g in
    let colAlignment := ColAlignment this in
    let rowAlignmentOfA := RowAlignment A in
    let sendCol := Z.rem (col + c + colAlignment - rowAlignmentOfA) c in
    let recvCol := Z.rem (col + c + rowAlignmentOfA - colAlignment) c in
    let height := Height this in
    let width := Width this in
    let localHeight := LocalHeight this in
    let localHeightOfA := LocalHeight A in
    let localWidthOfA := LocalWidth A in
    let maxLocalHeight := MaxLocalLength height c in
    let maxLocalWidth := MaxLocalLength width r in
    let portionSize := Z.max (maxLocalHeight * maxLocalWidth) MIN_COLL_MSG in
    let buffer := uninit in
    let firstBuffer := 0 in
    let secondBuffer := portionSize in
    let ALocalBuffer := LockedLocalBuffer A in
    let ALDim := LocalLDim A in
    let packed :=
      for_loop (Z.to_nat localHeightOfA)
        (fun jLocal buf =>
           for_loop (Z.to_nat localWidthOfA)
             (fun iLocal buf =>
                upd buf (secondBuffer + (iLocal + jLocal * localWidthOfA))
                    (op (ALocalBuffer (jLocal + iLocal * ALDim))))
             buf)
        buffer in
    received <- sendrecv packed secondBuffer portionSize sendCol
                         firstBuffer portionSize recvCol MRComm ;;
    gathered <- allgather received firstBuffer portionSize secondBuffer MCComm ;;
    let colAlignmentOfA := ColAlignment A in
    setLocalBuffer
      (unpack_MR_MC r width localHeight (LocalLDim this) colAlignmentOfA
         gathered secondBuffer portionSize (LocalBuffer this)).

(** [AdjointFrom( const DistMatrixBase<T,MC,MR>& A )] *)
Definition AdjointFrom (A : DistMatrix) : Method unit := TransposeFrom_with Conj A.

(** [TransposeFrom( const DistMatrixBase<T,MC,MR>& A )] *)
Definition TransposeFrom (A : DistMatrix) : Method unit := TransposeFrom_with (fun u => u) A.

End Ring.

(** ** Matrices of the other distributions *)

(** The object of process [(k,q)] is an [MR,MC] matrix of global shape
    [h x w], its rows dealt over the grid columns from alignment [a] and
    its columns over the grid rows from alignment [ra]. *)
Definition MR_MC_wf (r c k q : Z) (d : DistMatrix) (h w a ra : Z) : Prop :=
  _grid d = Grid.mk r c k q /\
  _height d = h /\ _width d = w /\ 0 <= h /\ 0 <= w /\
  _colAlignment d = a /\ 0 <= a < c /\ _colShift d = Shift q a c /\
  _rowAlignment d = ra /\ 0 <= ra < r /\ _rowShift d = Shift k ra r /\
  Matrix_wf (_localMatrix d) (LocalLength h (Shift q a c) c) (LocalLength w (Shift k ra r) r).

(** The [MR,MC] objects of the grid hold [G]: process [(k,q)] stores the
    entries in rows [colShift + iLocal*c] and columns [rowShift + jLocal*r]. *)
Definition MR_MC_represents (r c : Z) (d : World DistMatrix) (h w a ra : Z)
    (G : Z -> Z -> T) : Prop :=
  forall k q, on_grid r c k q ->
    MR_MC_wf r c k q (d k q) h w a ra /\
    forall iLocal jLocal, 0 <= iLocal < LocalHeight (d k q) -> 0 <= jLocal < LocalWidth (d k q) ->
      GetLocalEntry (d k q) iLocal jLocal =
      G (ColShift (d k q) + iLocal * c) (RowShift (d k q) + jLocal * r).

(** The object of process [(k,q)] is an [MC,MR] matrix of global shape
    [h x w], its rows dealt over the grid rows from alignment [ca] and its
    columns over the grid columns from alignment [ra]. *)
Definition MC_MR_wf (r c k q : Z) (d : DistMatrix) (h w ca ra : Z) : Prop :=
  _grid d = Grid.mk r c k q /\
  _height d = h /\ _width d = w /\ 0 <= h /\ 0 <= w /\
  _colAlignment d = ca /\ 0 <= ca < r /\ _colShift d = Shift k ca r /\
  _rowAlignment d = ra /\ 0 <= ra < c /\ _rowShift d = Shift q ra c /\
  Matrix_wf (_localMatrix d) (LocalLength h (Shift k ca r) r) (LocalLength w (Shift q ra c) c).

Definition MC_MR_represents (r c : Z) (d : World DistMatrix) (h w ca ra : Z)
    (G : Z -> Z -> T) : Prop :=
  forall k q, on_grid r c k q ->
    MC_MR_wf r c k q (d k q) h w ca ra /\
    forall iLocal jLocal, 0 <= iLocal < LocalHeight (d k q) -> 0 <= jLocal < LocalWidth (d k q) ->
      GetLocalEntry (d k q) iLocal jLocal =
      G (ColShift (d k q) + iLocal * r) (RowShift (d k q) + jLocal * c).

(** The object of process [(k,q)] is a [VR,* ] matrix of global shape
    [h x w]: its rows are dealt over all [r*c] processes in row-major
    order, from alignment [a]. *)
Definition VR_STAR_wf (r c k q : Z) (d : DistMatrix) (h w a : Z) : Prop :=
  _grid d = Grid.mk r c k q /\
  _height d = h /\ _width d = w /\ 0 <= h /\ 0 <= w /\
  _colAlignment d = a /\ 0 <= a < r * c /\
  _colShift d = Shift (q + c * k) a (r * c) /\
  Matrix_wf (_localMatrix d) (LocalLength h (Shift (q + c * k) a (r * c)) (r * c)) w.

Definition VR_STAR_represents (r c : Z) (d : World DistMatrix) (h w a : Z)
    (G : Z -> Z -> T) : Prop :=
  forall k q, on_grid r c k q ->
    VR_STAR_wf r c k q (d k q) h w a /\
    forall iLocal j, 0 <= iLocal < LocalHeight (d k q) -> 0 <= j < w ->
      GetLocalEntry (d k q) iLocal j = G (ColShift (d k q) + iLocal * (r * c)) j.

(** The matrix a trapezoidal routine keeps: the entries on or below
    ([LOWER]) or on or above ([UPPER]) the diagonal of the given offset,
    counted from the top-left ([LEFT]) or the bottom-right ([RIGHT])
    corner of an [h x w] matrix. *)
Definition in_trapezoid (side : Side) (shape : Shape) (offset h w i j : Z) : bool :=
  let d := match side with LEFT => j - offset | RIGHT => j - offset + h - w end in
  match shape with
  | LOWER => d <=? i
  | UPPER => i <=? d
  end.


(** [AlignColsWith( A )], one overload per source distribution, each
    [{ AlignWith( A ); }]. *)
Definition AlignColsWith_MR_MC (A : DistMatrix) : Method unit := AlignWith_MR_MC A.
Definition AlignColsWith_MR_STAR (A : DistMatrix) : Method unit := AlignWith_MR_STAR A.
Definition AlignColsWith_MC_MR (A : DistMatrix) : Method unit := AlignWith_MC_MR A.
Definition AlignColsWith_STAR_MR (A : DistMatrix) : Method unit := AlignWith_STAR_MR A.
Definition AlignColsWith_VR_STAR (A : DistMatrix) : Method unit := AlignWith_VR_STAR A.
Definition AlignColsWith_STAR_VR (A : DistMatrix) : Method unit := AlignWith_STAR_VR A.

(** ** Sample objects of the other distributions *)

(** An owning [MR,MC] matrix with the entries of [G], as process [(k,q)]
    of the grid holds it. *)
Definition sample_MR_MC (g : Grid.t) (h w a ra : Z) (G : Z -> Z -> T) : DistMatrix :=
  let s := Shift (Grid.MRRank g) a (Grid.Width g) in
  let rs := Shift (Grid.MCRank g) ra (Grid.Height g) in
  let lh := LocalLength h s (Grid.Width g) in
  let lw := LocalLength w rs (Grid.Height g) in
  mkDistMatrix false false h w
    (mkMatrix lh lw (Z.max lh 1)
       (fun idx => G (s + (idx mod Z.max lh 1) * Grid.Width g)
                     (rs + (idx / Z.max lh 1) * Grid.Height g)) false false)
    true true a ra s rs g.

(** An owning [MC,MR] matrix with the entries of [G]. *)
Definition sample_MC_MR (g : Grid.t) (h w ca ra : Z) (G : Z -> Z -> T) : DistMatrix :=
  let s := Shift (Grid.MCRank g) ca (Grid.Height g) in
  let rs := Shift (Grid.MRRank g) ra (Grid.Width g) in
  let lh := LocalLength h s (Grid.Height g) in
  let lw := LocalLength w rs (Grid.Width g) in
  mkDistMatrix false false h w
    (mkMatrix lh lw (Z.max lh 1)
       (fun idx => G (s + (idx mod Z.max lh 1) * Grid.Height g)
                     (rs + (idx / Z.max lh 1) * Grid.Width g)) false false)
    true true ca ra s rs g.

(** An owning [VR,* ] matrix with the entries of [G]. *)
Definition sample_VR_STAR (g : Grid.t) (h w a : Z) (G : Z -> Z -> T) : DistMatrix :=
  let p := Grid.Height g * Grid.Width g in
  let s := Shift (Grid.MRRank g + Grid.Width g * Grid.MCRank g) a p in
  let lh := LocalLength h s p in
  mkDistMatrix false false h w
    (mkMatrix lh w (Z.max lh 1)
       (fun idx => G (s + (idx mod Z.max lh 1) * p) (idx / Z.max lh 1)) false false)
    true false a 0 s 0 g.

(** An owning [* ,* ] matrix with the entries of [G]: every process holds
    the whole matrix. *)
Definition sample_STAR_STAR (g : Grid.t) (h w : Z) (G : Z -> Z -> T) : DistMatrix :=
  mkDistMatrix false false h w
    (mkMatrix h w (Z.max h 1)
       (fun idx => G (idx mod Z.max h 1) (idx / Z.max h 1)) false false)
    false false 0 0 0 0 g.

(** ** Member functions that broadcast or reduce whole buffers *)

(** [SetToRandom], [SumOverCol] and [Print] issue four further collectives:
    - [BroadcastBuf buf count root comm]:
      [mpi::Broadcast( buf, count, root, comm )];
    - [AllReduceSum buf sendOff recvOff count comm]:
      [mpi::AllReduce( &buf[sendOff], &buf[recvOff], count, mpi::SUM, comm )];
    - [ReduceSum send recv count root comm]:
      [mpi::Reduce( &send[0], &recv[0], count, mpi::SUM, root, comm )];
    - [Barrier comm]: [mpi::Barrier( comm )]. *)
Inductive Prog2 (R : Type) : Type :=
| Ret2 (r : R)
| BroadcastBuf (buf : Buffer) (count root : Z) (comm : Comm) (k : Buffer -> Prog2 R)
| AllReduceSum (buf : Buffer) (sendOff recvOff count : Z) (comm : Comm)
               (k : Buffer -> Prog2 R)
| ReduceSum (send recv : Buffer) (count root : Z) (comm : Comm) (k : Buffer -> Prog2 R)
| Barrier (comm : Comm) (k : Prog2 R).
Arguments Ret2 {R} r.
Arguments BroadcastBuf {R} buf count root comm k.
Arguments AllReduceSum {R} buf sendOff recvOff count comm k.
Arguments ReduceSum {R} send recv count root comm k.
Arguments Barrier {R} comm k.

Definition silent2 {R : Type} (p : Prog2 R) : bool :=
  match p with Ret2 _ => true | _ => false end.

Definition Method2 (A : Type) : Type := DistMatrix -> Prog2 (Outcome A * DistMatrix).

(** Runs a member function that issues no collective (an assertion), then
    continues with [k]. *)
Definition locally (m : Method unit) (k : Method2 unit) : Method2 unit :=
  fun this =>
    match m this with
    | Ret (Normal _, this') => k this'
    | Ret (Raised e, this') => Ret2 (Raised e, this')
    | _ => k this
    end.

(** [SetToRandom()].  [SampleUnitBall n] is the value of the [n]-th call of
    [SampleUnitBall<T>()] on this process, counted from 0. *)
Definition SetToRandom (SampleUnitBall : Z -> T) : Method2 unit :=
  locally (debug AssertNotLockedView)
    (fun this =>
       let g := _grid this in
       let width := Width this in
       let localHeight := LocalHeight this in
       let bufSize := localHeight * width in
       let buffer := uninit in
       let buffer :=
         if Grid.MCRank g =? 0 then
           for_loop (Z.to_nat width)
             (fun j buf =>
                for_loop (Z.to_nat localHeight)
                  (fun i buf =>
                     upd buf (i + j * localHeight) (SampleUnitBall (i + j * localHeight)))
                  buf)
             buffer
         else buffer in
       BroadcastBuf buffer bufSize 0 MCComm
         (fun buffer =>
            let thisLocalBuffer := LocalBuffer this in
            let thisLDim := LocalLDim this in
            Ret2 (Normal tt,
                  set_localMatrix this
                    (Matrix_with_data (_localMatrix this)
                       (for_loop (Z.to_nat width)
                          (fun j tb =>
                             for_loop (Z.to_nat localHeight)
                               (fun iLocal tb =>
                                  upd tb (iLocal + j * thisLDim)
                                      (buffer (iLocal + j * localHeight)))
                               tb)
                          thisLocalBuffer))))).

(** [SumOverCol()] *)
Definition SumOverCol : Method2 unit :=
  locally (debug AssertNotLockedView)
    (fun this =>
       let width := Width this in
       let localHeight := LocalHeight this in
       let localSize := Z.max (localHeight * width) MIN_COLL_MSG in
       let buffer := uninit in
       let sendBuf := 0 in
       let recvBuf := localSize in
       let thisLocalBuffer := LocalBuffer this in
       let thisLDim := LocalLDim this in
       let packed :=
         for_loop (Z.to_nat width)
           (fun j buf =>
              memcpy buf (sendBuf + j * localHeight) thisLocalBuffer (j * thisLDim) localHeight)
           buffer in
       AllReduceSum packed sendBuf recvBuf localSize MCComm
         (fun buffer =>
            Ret2 (Normal tt,
                  set_localMatrix this
                    (Matrix_with_data (_localMatrix this)
                       (for_loop (Z.to_nat width)
                          (fun j tb =>
                             memcpy tb (j * thisLDim) buffer (recvBuf + j * localHeight)
                                    localHeight)
                          thisLocalBuffer))))).

(** What [Print] writes to its stream: [os << msg], [os << u] for an
    entry, [os << " "], [os << "\n"] and [os << endl]. *)
Inductive Token : Type :=
| Msg (s : string)
| Entry (u : T)
| Space
| Newline
| Endl.

(** [Print( ostream& os, const string msg )]; the result is what this
    process wrote to [os].  [zeroT] is the [0] the send buffer is filled
    with. *)
Definition Print (zeroT : T) (msg : string) (this : DistMatrix) : Prog2 (list Token) :=
  let g := _grid this in
  let os := if (Grid.VCRank g =? 0) && negb (String.eqb msg EmptyString)
            then [Msg msg; Endl] else [] in
  let height := Height this in
  let width := Width this in
  let localHeight := LocalHeight this in
  let c := Grid.Width g in
  let colShift := ColShift this in
  if (height =? 0) || (width =? 0) then Ret2 os
  else if Grid.MCRank g =? 0 then
    let sendBuf : Buffer := fun _ => zeroT in
    let thisLocalBuffer := LockedLocalBuffer this in
    let thisLDim := LocalLDim this in
    let sendBuf :=
      for_loop (Z.to_nat localHeight)
        (fun iLocal sb =>
           for_loop (Z.to_nat width)
             (fun j sb =>
                upd sb ((colShift + iLocal * c) + j * height)
                    (thisLocalBuffer (iLocal + j * thisLDim)))
             sb)
        sendBuf in
    let recvBuf := uninit in
    ReduceSum sendBuf recvBuf (height * width) 0 MRComm
      (fun recvBuf =>
         let os :=
           if Grid.MRRank g =? 0 then
             for_loop (Z.to_nat height)
               (fun i os =>
                  for_loop (Z.to_nat width)
                    (fun j os => os ++ [Entry (recvBuf (i + j * height)); Space])
                    os ++ [Newline])
               os ++ [Endl]
           else os in
         Barrier VCComm (Ret2 os))
  else Barrier VCComm (Ret2 os).

(** [Tsum n f] is [f 0 + ... + f (n-1)], added in the order of the ranks;
    the sum over no rank is not used. *)
Fixpoint Tsum (n : nat) (f : Z -> T) : T :=
  match n with
  | O => uninitT
  | S O => f 0
  | S n' => addT (Tsum n' f) (f (Z.of_nat n'))
  end.

Section Collectives2.

Variables r c : Z.
Context {R : Type}.

(** What the pending collective of process [(k,q)] delivers, once all the
    members of its scope have reached a matching collective; [None] as
    long as they have not.
    - A broadcast delivers the first [count] entries of the root's buffer,
      provided the root broadcasts the same count over the same scope.
    - An all-reduce delivers, at the receive offset, the entrywise sums
      of the contributions of all members, provided all contribute the
      same count.
    - A reduce delivers these sums to the root and leaves the receive
      buffer of the others as it is.
    - A barrier lets the process go on. *)
Definition deliver2 (w : World (Prog2 R)) (k q : Z) : option (Prog2 R) :=
  match w k q with
  | Ret2 x => Some (Ret2 x)
  | BroadcastBuf buf count root comm kont =>
      if in_range 0 (comm_size r c comm) root then
        let peer := comm_peer r c comm k q root in
        match w (fst peer) (snd peer) with
        | BroadcastBuf buf' count' root' comm' _ =>
            if (root' =? root) && (count' =? count) && Comm_eqb comm' comm
            then Some (kont (fun idx => if in_range 0 count idx then buf' idx else buf idx))
            else None
        | _ => None
        end
      else None
  | AllReduceSum buf sendOff recvOff count comm kont =>
      if forallb
           (fun m =>
              let peer := comm_peer r c comm k q m in
              match w (fst peer) (snd peer) with
              | AllReduceSum _ _ _ count' comm' _ => (count' =? count) && Comm_eqb comm' comm
              | _ => false
              end)
           (ranks (comm_size r c comm))
      then Some (kont (fun idx =>
             if in_range recvOff (recvOff + count) idx
             then Tsum (Z.to_nat (comm_size r c comm))
                    (fun m =>
                       let peer := comm_peer r c comm k q m in
                       match w (fst peer) (snd peer) with
                       | AllReduceSum buf' sendOff' _ _ _ _ => buf' (sendOff' + (idx - recvOff))
                       | _ => buf idx
                       end)
             else buf idx))
      else None
  | ReduceSum send recv count root comm kont =>
      if forallb
           (fun m =>
              let peer := comm_peer r c comm k q m in
              match w (fst peer) (snd peer) with
              | ReduceSum _ _ count' root' comm' _ =>
                  (count' =? count) && (root' =? root) && Comm_eqb comm' comm
              | _ => false
              end)
           (ranks (comm_size r c comm))
      then Some (kont
             (if comm_rank r c comm k q =? root
              then fun idx =>
                     if in_range 0 count idx
                     then Tsum (Z.to_nat (comm_size r c comm))
                            (fun m =>
                               let peer := comm_peer r c comm k q m in
                               match w (fst peer) (snd peer) with
                               | ReduceSum send' _ _ _ _ _ => send' idx
                               | _ => recv idx
                               end)
                     else recv idx
              else recv))
      else None
  | Barrier comm kont =>
      if forallb
           (fun m =>
              let peer := comm_peer r c comm k q m in
              match w (fst peer) (snd peer) with
              | Barrier comm' _ => Comm_eqb comm' comm
              | _ => false
              end)
           (ranks (comm_size r c comm))
      then Some kont
      else None
  end.

(** One step: every process whose pending collective is matched completes
    it; the others wait.  A step in which no process can move is a
    deadlock. *)
Definition step_world2 (w : World (Prog2 R)) : option (World (Prog2 R)) :=
  if all_grid r c (fun k q => negb (is_some (deliver2 w k q)))
  then None
  else Some (fun k q => match deliver2 w k q with Some p => p | None => w k q end).

Definition finished2 (w : World (Prog2 R)) : bool :=
  all_grid r c (fun k q => silent2 (w k q)).

Fixpoint run_world2 (fuel : nat) (w : World (Prog2 R)) : option (World (Prog2 R)) :=
  if finished2 w then Some w
  else match fuel with
       | O => None
       | Datatypes.S fuel' =>
           match step_world2 w with
           | Some w' => run_world2 fuel' w'
           | None => None
           end
       end.

End Collectives2.

Definition call2 {A : Type} (r c : Z) (fuel : nat) (m : Z -> Z -> Method2 A)
    (this : World DistMatrix) : option (World (Prog2 (Outcome A * DistMatrix))) :=
  run_world2 r c fuel (fun k q => m k q (this k q)).

Definition returns2 {A : Type} (r c : Z)
    (res : option (World (Prog2 (Outcome A * DistMatrix))))
    (v : World A) (d' : World DistMatrix) : Prop :=
  exists w, res = Some w /\
    forall k q, on_grid r c k q -> w k q = Ret2 (Normal (v k q), d' k q).

(** The tokens of an [h x w] matrix as [Print] writes it: row by row, every
    entry followed by a space, every row by a newline, and [endl] last. *)
Definition matrix_tokens (h w : Z) (G : Z -> Z -> T) : list Token :=
  flat_map (fun i => flat_map (fun j => [Entry (G i j); Space]) (ranks w) ++ [Newline])
           (ranks h) ++ [Endl].
Lemma LocalLength_closed (n shift stride : Z) :
  0 <= n -> 0 <= shift < stride ->
  LocalLength n shift stride =
  n / stride + (if shift <? n mod stride then 1 else 0).
Proof.
  intros Hn Hs. unfold LocalLength.
  assert (Hst : 0 < stride) by lia.
  pose proof (Z.div_mod n stride ltac:(lia)) as Hdm.
  pose proof (Z.mod_pos_bound n stride Hst) as Hm.
  pose proof (Z.div_pos n stride Hn Hst) as Hq.
  set (q := n / stride) in *. set (m := n mod stride) in *.
  destruct (Z.ltb_spec shift m) as [Hlt | Hge].
  - assert (E : (n - shift + stride - 1) / stride = q + 1).
    { symmetry. apply Z.div_unique with (r := m - shift - 1); lia. }
    rewrite E. lia.
  - assert (E : (n - shift + stride - 1) / stride = q).
    { symmetry. apply Z.div_unique with (r := m - shift + stride - 1); lia. }
    rewrite E. lia.
Qed.

Lemma LocalLength_nonneg (n shift stride : Z) : 0 <= LocalLength n shift stride.
Proof. unfold LocalLength. lia. Qed.

Lemma Zsum_const (k : nat) (a : Z) : Zsum k (fun _ => a) = Z.of_nat k * a.
Proof. induction k as [|k IH]; [reflexivity|]. cbn [Zsum]. rewrite IH. lia. Qed.

Lemma Zsum_plus (k : nat) (f g : Z -> Z) :
  Zsum k (fun s => f s + g s) = Zsum k f + Zsum k g.
Proof. induction k as [|k IH]; [reflexivity|]. cbn [Zsum]. rewrite IH. lia. Qed.

Lemma Zsum_ext (k : nat) (f g : Z -> Z) :
  (forall s, 0 <= s < Z.of_nat k -> f s = g s) -> Zsum k f = Zsum k g.
Proof.
  induction k as [|k IH]; intros H; [reflexivity|]. cbn [Zsum].
  rewrite IH, (H (Z.of_nat k)) by (intros; try apply H; lia). reflexivity.
Qed.

Lemma Zsum_below (k : nat) (m : Z) :
  0 <= m ->
  Zsum k (fun s => if s <? m then 1 else 0) = Z.min (Z.of_nat k) m.
Proof.
  intros Hm. induction k as [|k IH]; [cbn; lia|].
  cbn [Zsum]. rewrite IH.
  destruct (Z.ltb_spec (Z.of_nat k) m); lia.
Qed.

Lemma LocalLength_sum (n stride : Z) :
  0 <= n -> 1 <= stride ->
  Zsum (Z.to_nat stride) (fun s => LocalLength n s stride) = n.
Proof.
  intros Hn Hst.
  rewrite (Zsum_ext _ _ (fun s => n / stride + (if s <? n mod stride then 1 else 0))).
  - rewrite Zsum_plus, Zsum_const, Zsum_below.
    + pose proof (Z.div_mod n stride ltac:(lia)).
      pose proof (Z.mod_pos_bound n stride ltac:(lia)). lia.
    + apply Z.mod_pos_bound. lia.
  - intros s Hs. apply LocalLength_closed; lia.
Qed.

Lemma count_indices_succ (n : nat) (shift stride : Z) :
  count_indices (S n) shift stride =
  Nat.add (count_indices n shift stride)
          (if (Z.of_nat n mod stride) =? shift then 1%nat else 0%nat).
Proof.
  unfold count_indices. rewrite seq_S, map_app, filter_app, length_app.
  cbn [seq map filter Nat.add]. destruct (_ =? _); reflexivity.
Qed.

Lemma LocalLength_succ (n shift stride : Z) :
  0 <= n -> 0 <= shift < stride ->
  LocalLength (n + 1) shift stride =
  LocalLength n shift stride + (if (n mod stride) =? shift then 1 else 0).
Proof.
  intros Hn Hs. rewrite !LocalLength_closed by lia.
  assert (Hst : 0 < stride) by lia.
  pose proof (Z.div_mod n stride ltac:(lia)) as Hdm.
  pose proof (Z.mod_pos_bound n stride Hst) as Hm.
  set (q := n / stride) in *. set (m := n mod stride) in *.
  destruct (Z_lt_dec (m + 1) stride) as [Hlt | Hge].
  - assert (Eq : (n + 1) / stride = q)
      by (symmetry; apply Z.div_unique with (r := m + 1); lia).
    assert (Em : (n + 1) mod stride = m + 1)
      by (symmetry; apply Z.mod_unique with (q := q); lia).
    rewrite Eq, Em.
    destruct (Z.ltb_spec shift (m + 1)), (Z.ltb_spec shift m), (Z.eqb_spec m shift); lia.
  - assert (Eq : (n + 1) / stride = q + 1)
      by (symmetry; apply Z.div_unique with (r := 0); lia).
    assert (Em : (n + 1) mod stride = 0)
      by (symmetry; apply Z.mod_unique with (q := q + 1); lia).
    rewrite Eq, Em.
    destruct (Z.ltb_spec shift 0), (Z.ltb_spec shift m), (Z.eqb_spec m shift); lia.
Qed.

Lemma LocalLength_counts (n : nat) (shift stride : Z) :
  0 <= shift < stride ->
  LocalLength (Z.of_nat n) shift stride = Z.of_nat (count_indices n shift stride).
Proof.
  intros Hs. induction n as [|n IH].
  - rewrite LocalLength_closed by lia.
    change (Z.of_nat 0) with 0. rewrite Zmod_0_l, Zdiv_0_l.
    destruct (Z.ltb_spec shift 0); [lia | reflexivity].
  - rewrite count_indices_succ, Nat2Z.inj_add, <- IH.
    replace (Z.of_nat (S n)) with (Z.of_nat n + 1) by lia.
    rewrite LocalLength_succ by lia.
    destruct (_ =? _); reflexivity.
Qed.

(** C5: partition law.  For [n >= 0] and [stride >= 1] the local lengths
    over the [stride] shifts [0 .. stride-1] add up to [n], and each local
    length is the number of indices [i] of [0 .. n-1] with
    [i mod stride = shift]. *)
Theorem LocalLength_partition (n stride : Z) :
  0 <= n -> 1 <= stride ->
  Zsum (Z.to_nat stride) (fun shift => LocalLength n shift stride) = n /\
  (forall shift, 0 <= shift < stride ->
     LocalLength n shift stride =
     Z.of_nat (count_indices (Z.to_nat n) shift stride)).
Proof.
  intros Hn Hst. split.
  - apply LocalLength_sum; assumption.
  - intros shift Hs. rewrite <- LocalLength_counts by assumption.
    rewrite Z2Nat.id by assumption. reflexivity.
Qed.

Lemma LocalLength_partition_witness :
  Zsum (Z.to_nat 3) (fun shift => LocalLength 7 shift 3) = 7 /\
  (forall shift, 0 <= shift < 3 ->
     LocalLength 7 shift 3 = Z.of_nat (count_indices (Z.to_nat 7) shift 3)).
Proof. apply (LocalLength_partition 7 3); lia. Defined.

(** ** Loops that fill a buffer *)

Lemma Writes_upd (i : Z) (u : T) :
  Writes (fun b => upd b i u) (fun idx v => idx = i /\ v = u).
Proof.
  intros b idx. unfold upd. split.
  - intros v [-> ->]. rewrite Z.eqb_refl. reflexivity.
  - intros H. destruct (Z.eqb_spec idx i) as [-> |]; [|reflexivity].
    exfalso. apply (H u). split; reflexivity.
Qed.

Lemma Writes_memcpy (dOff : Z) (src : Buffer) (sOff n : Z) :
  Writes (fun b => memcpy b dOff src sOff n)
         (fun idx v => dOff <= idx < dOff + n /\ v = src (sOff + (idx - dOff))).
Proof.
  intros b idx. unfold memcpy, in_range. split.
  - intros v [Hr ->].
    destruct (Z.leb_spec dOff idx), (Z.ltb_spec idx (dOff + n)); try lia. reflexivity.
  - intros H.
    destruct (Z.leb_spec dOff idx), (Z.ltb_spec idx (dOff + n)); try reflexivity.
    exfalso. apply (H (src (sOff + (idx - dOff)))). split; [lia | reflexivity].
Qed.

(** A loop whose iterations write disjoint sets of indices writes their
    union. *)
Lemma Writes_for_loop (n : nat) (body : Z -> Buffer -> Buffer)
    (W : Z -> Z -> T -> Prop) :
  (forall j, 0 <= j < Z.of_nat n -> Writes (body j) (W j)) ->
  (forall j j' idx v v', 0 <= j < Z.of_nat n -> 0 <= j' < Z.of_nat n ->
     W j idx v -> W j' idx v' -> j = j') ->
  Writes (for_loop n body)
         (fun idx v => exists j, 0 <= j < Z.of_nat n /\ W j idx v).
Proof.
  induction n as [|n IH]; intros Hw Hd b idx.
  - cbn. split; [intros v [j [Hj _]]; lia | reflexivity].
  - cbn [for_loop].
    assert (IH' : Writes (for_loop n body)
                    (fun idx v => exists j, 0 <= j < Z.of_nat n /\ W j idx v)).
    { apply IH.
      - intros j Hj. apply Hw. lia.
      - intros j j' i v v' Hj Hj'. apply Hd; lia. }
    assert (Hlast : Writes (body (Z.of_nat n)) (W (Z.of_nat n))) by (apply Hw; lia).
    split.
    + intros v [j [Hj Hjv]].
      destruct (Z.eq_dec j (Z.of_nat n)) as [-> | Hne].
      * apply (proj1 (Hlast _ idx)). exact Hjv.
      * rewrite (proj2 (Hlast _ idx)).
        -- apply (proj1 (IH' b idx)). exists j. split; [lia | exact Hjv].
        -- intros v' Hv'. apply Hne.
           apply (Hd j (Z.of_nat n) idx v v'); [lia | lia | exact Hjv | exact Hv'].
    + intros Hnone. rewrite (proj2 (Hlast _ idx)).
      * apply (proj2 (IH' b idx)). intros v [j [Hj Hjv]].
        apply (Hnone v). exists j. split; [lia | exact Hjv].
      * intros v Hv. apply (Hnone v). exists (Z.of_nat n). split; [lia | exact Hv].
Qed.

Lemma Writes_hit (f : Buffer -> Buffer) (W : Z -> T -> Prop) (b : Buffer) (idx : Z) (v : T) :
  Writes f W -> W idx v -> f b idx = v.
Proof. intros H. apply (proj1 (H b idx)). Qed.

(** The column-by-column copy of an [h x w] panel, as the pack and unpack
    loops do it: column [j] goes from [src + sOff + j*sStride] to
    [dst + dOff + j*dStride]. *)
Lemma panel_copy (w h dOff dStride sOff sStride : Z) (src dst : Buffer) (i j : Z) :
  0 <= h <= dStride -> 0 <= i < h -> 0 <= j < w ->
  for_loop (Z.to_nat w)
    (fun j b => memcpy b (dOff + j * dStride) src (sOff + j * sStride) h) dst
    (dOff + j * dStride + i) = src (sOff + j * sStride + i).
Proof.
  intros Hh Hi Hj.
  assert (HW : Writes
            (for_loop (Z.to_nat w)
               (fun j b => memcpy b (dOff + j * dStride) src (sOff + j * sStride) h))
            (fun idx v => exists j, 0 <= j < Z.of_nat (Z.to_nat w) /\
               (dOff + j * dStride <= idx < dOff + j * dStride + h /\
                v = src (sOff + j * sStride + (idx - (dOff + j * dStride)))))).
  { apply Writes_for_loop.
    - intros j0 _. apply Writes_memcpy.
    - intros j0 j' idx v v' _ _ [H1 _] [H2 _]. nia. }
  apply (Writes_hit _ _ dst _ _ HW).
  exists j. split; [lia|]. split; [lia|]. f_equal. lia.
Qed.

(** Nested loops of point writes at pairwise distinct indices. *)
Lemma Writes_fill1 (n : nat) (f : Z -> Z) (g : Z -> T) :
  (forall i i', 0 <= i < Z.of_nat n -> 0 <= i' < Z.of_nat n -> f i = f i' -> i = i') ->
  Writes (for_loop n (fun i tb => upd tb (f i) (g i)))
         (fun idx v => exists i, 0 <= i < Z.of_nat n /\ idx = f i /\ v = g i).
Proof.
  intros Hinj.
  apply (Writes_for_loop n _ (fun i idx v => idx = f i /\ v = g i)).
  - intros i _. apply Writes_upd.
  - intros i i' idx v v' Hi Hi' [-> _] [E _]. apply Hinj; assumption.
Qed.

Lemma Writes_fill2 (nw : nat) (nl : Z -> nat) (f : Z -> Z -> Z) (g : Z -> Z -> T) :
  (forall j i j' i', 0 <= j < Z.of_nat nw -> 0 <= i < Z.of_nat (nl j) ->
     0 <= j' < Z.of_nat nw -> 0 <= i' < Z.of_nat (nl j') ->
     f j i = f j' i' -> j = j' /\ i = i') ->
  Writes (for_loop nw (fun j tb => for_loop (nl j) (fun i tb => upd tb (f j i) (g j i)) tb))
         (fun idx v => exists j, 0 <= j < Z.of_nat nw /\
            exists i, 0 <= i < Z.of_nat (nl j) /\ idx = f j i /\ v = g j i).
Proof.
  intros Hinj.
  apply (Writes_for_loop nw _
           (fun j idx v => exists i, 0 <= i < Z.of_nat (nl j) /\ idx = f j i /\ v = g j i)).
  - intros j Hj. apply (Writes_fill1 (nl j) (f j) (g j)).
    intros i i' Hi Hi' E. apply (Hinj j i j i'); assumption.
  - intros j j' idx v v' Hj Hj' [i [Hi [-> _]]] [i' [Hi' [E _]]].
    apply (Hinj j i j' i'); assumption.
Qed.

Lemma Writes_fill3 (nc : nat) (nw : Z -> nat) (nl : Z -> Z -> nat)
    (f : Z -> Z -> Z -> Z) (g : Z -> Z -> Z -> T) :
  (forall k j i k' j' i',
     0 <= k < Z.of_nat nc -> 0 <= j < Z.of_nat (nw k) -> 0 <= i < Z.of_nat (nl k j) ->
     0 <= k' < Z.of_nat nc -> 0 <= j' < Z.of_nat (nw k') -> 0 <= i' < Z.of_nat (nl k' j') ->
     f k j i = f k' j' i' -> k = k' /\ j = j' /\ i = i') ->
  Writes (for_loop nc (fun k tb =>
            for_loop (nw k) (fun j tb =>
              for_loop (nl k j) (fun i tb => upd tb (f k j i) (g k j i)) tb) tb))
         (fun idx v => exists k, 0 <= k < Z.of_nat nc /\
            exists j, 0 <= j < Z.of_nat (nw k) /\
            exists i, 0 <= i < Z.of_nat (nl k j) /\ idx = f k j i /\ v = g k j i).
Proof.
  intros Hinj.
  apply (Writes_for_loop nc _
           (fun k idx v => exists j, 0 <= j < Z.of_nat (nw k) /\
              exists i, 0 <= i < Z.of_nat (nl k j) /\ idx = f k j i /\ v = g k j i)).
  - intros k Hk. apply (Writes_fill2 (nw k) (nl k) (f k) (g k)).
    intros j i j' i' Hj Hi Hj' Hi' E.
    destruct (Hinj k j i k j' i' Hk Hj Hi Hk Hj' Hi' E) as [_ H]. exact H.
  - intros k k' idx v v' Hk Hk' [j [Hj [i [Hi [-> _]]]]] [j' [Hj' [i' [Hi' [E _]]]]].
    destruct (Hinj k j i k' j' i' Hk Hj Hi Hk' Hj' Hi' E) as [H _]. exact H.
Qed.

(** ** Properties of single calls *)

Lemma debug_cases (m : Method unit) (this : DistMatrix) :
  debug m this = (if release then Ret (Normal tt, this) else m this).
Proof. unfold debug. destruct release; reflexivity. Qed.

(** The assertions never communicate and never change [this]. *)
Lemma assign_asserts_cases (A this : DistMatrix) :
  assign_asserts A this = Ret (Normal tt, this) \/
  exists e, assign_asserts A this = Ret (Raised e, this).
Proof.
  unfold assign_asserts. rewrite debug_cases.
  destruct release; [left; reflexivity|].
  unfold AssertNotLockedView, AssertSameGrid, AssertSameSize, when, bind, get, ret, throw, Viewing.
  cbn.
  destruct (_viewing this && _lockedView this); cbn; [right; eexists; reflexivity|].
  destruct (Grid.eqb _ _); cbn; [|right; eexists; reflexivity].
  destruct (_viewing this); cbn; [|left; reflexivity].
  destruct (_ && _); cbn; [left; reflexivity | right; eexists; reflexivity].
Qed.

(** C6: assigning an [MD,* ] or a [* ,MD] source to an [MR,* ] target
    always fails: the call raises an exception without issuing any
    collective and leaves the target as it was.  Unless a debug assertion
    on the target fires first, the exception is the "not yet implemented"
    logic error. *)
Theorem assign_MD_unsupported (A this : DistMatrix) :
  (exists e, assign_MD_STAR A this = Ret (Raised e, this) /\
     (assign_asserts A this = Ret (Normal tt, this) ->
      e = logic_error "[MR,* ] = [MD,* ] not yet implemented.")) /\
  (exists e, assign_STAR_MD A this = Ret (Raised e, this) /\
     (assign_asserts A this = Ret (Normal tt, this) ->
      e = logic_error "[MR,* ] = [* ,MD] not yet implemented.")) /\
  silent (assign_MD_STAR A this) = true /\
  silent (assign_STAR_MD A this) = true.
Proof.
  unfold assign_MD_STAR, assign_STAR_MD, bind, throw.
  destruct (assign_asserts_cases A this) as [E | [e E]]; rewrite E; cbn.
  - repeat split; try (eexists; split; [reflexivity | intros _; reflexivity]).
  - repeat split; try (exists e; split; [reflexivity | intros H; discriminate H]).
Qed.

Ltac unfold_monad :=
  unfold AssertFreeColAlignment, AssertNotLockedView, AssertNotStoringData,
    AssertSameGrid, AssertSameSize, AssertValidEntry, AssertValidSubmatrix,
    onLocalMatrix, setLocalBuffer, when, bind, get, modify, ret, throw;
  cbn [Prog_bind fst snd].

Lemma Shift_range (rank a c : Z) : 0 < c -> 0 <= Shift rank a c < c.
Proof. intros H. unfold Shift. apply Z.mod_pos_bound. exact H. Qed.

(** C8, as the code has it: in a build with the debug assertions
    ([RELEASE] not defined) [AlignCols] and [AlignWith] refuse an object
    whose column alignment is already constrained, and leave it as it was;
    a build with [RELEASE] defined compiles the check out.  When the call
    goes through on an owning object, the object is emptied (global shape
    0 x 0, local matrix 0 x 0) and constrained to the reference's column
    alignment, which lies in [0, gridWidth), with the matching shift. *)
Theorem Align_contract (this A : DistMatrix) (colAlignment : Z) :
  m_viewing (_localMatrix this) = false ->
  0 <= colAlignment < Grid.Width (_grid this) ->
  Grid.eqb (_grid this) (_grid A) = true ->
  0 <= ColAlignment A < Grid.Width (_grid this) ->
  ColShift A = Shift (Grid.MRRank (_grid this)) (ColAlignment A) (Grid.Width (_grid this)) ->
  (release = false -> ConstrainedColAlignment this = true ->
   exists e,
     AlignCols colAlignment this = Ret (Raised e, this) /\
     AlignWith_MR_MC A this = Ret (Raised e, this) /\
     AlignWith_MR_STAR A this = Ret (Raised e, this)) /\
  (release = true \/ ConstrainedColAlignment this = false ->
   aligned_empty (AlignCols colAlignment this) (_grid this) colAlignment /\
   aligned_empty (AlignWith_MR_MC A this) (_grid this) (ColAlignment A) /\
   aligned_empty (AlignWith_MR_STAR A this) (_grid this) (ColAlignment A)).
Proof.
  intros Hview Hca Hgrid HA Hshift. split.
  - intros Hrel Hcon. unfold ConstrainedColAlignment in Hcon.
    unfold AlignCols, AlignWith_MR_MC, AlignWith_MR_STAR.
    unfold debug. rewrite Hrel. unfold_monad. rewrite Hcon. cbn.
    eexists. repeat split.
  - intros Hperm.
    assert (Hlt : (colAlignment <? 0) || (colAlignment >=? Grid.Width (_grid this)) = false).
    { destruct (Z.ltb_spec colAlignment 0); [lia|].
      rewrite Z.geb_leb. destruct (Z.leb_spec (Grid.Width (_grid this)) colAlignment); [lia|].
      reflexivity. }
    unfold aligned_empty, AlignCols, AlignWith_MR_MC, AlignWith_MR_STAR.
    destruct Hperm as [Hrel | Hfree].
    + unfold debug. rewrite Hrel. unfold_monad. unfold Matrix_ResizeTo. cbn.
      rewrite Hview. cbn.
      repeat split; eexists; (split; [reflexivity|]); cbn; repeat split; auto; lia.
    + unfold ConstrainedColAlignment in Hfree.
      unfold debug. destruct release; unfold_monad; unfold Matrix_ResizeTo;
        repeat (progress (cbn; rewrite ?Hfree, ?Hgrid, ?Hlt, ?Hview));
        repeat split; eexists; (split; [reflexivity|]); cbn; repeat split; auto; lia.
Qed.

(** C9, as the code has it: [ResizeTo(height,width)] has no test of its
    own for views; it stores the new global shape and hands the local
    shape [LocalLength(height, colShift, gridWidth) x width] to the local
    matrix.
    - A view fails when that local shape differs from the one it has.
    - A view whose local shape is the one called for accepts the call,
      also when the global shape differs from its own: it takes the new
      global shape and keeps its local matrix (in a build with the debug
      assertions, unless it is a locked view or a size is negative).
    - On an owning [MR,* ] matrix, for all [height, width >= 0], the call
      returns normally without communicating, sets the global shape, and
      gives the local matrix [LocalLength(height, colShift, gridWidth)]
      rows and [width] columns of fresh storage; alignment and shift are
      kept. *)
Theorem ResizeTo_contract (this : DistMatrix) (height width : Z) :
  (m_viewing (_localMatrix this) = true ->
   LocalLength height (ColShift this) (Grid.Width (_grid this)) <> LocalHeight this \/
   width <> LocalWidth this ->
   exists e this', ResizeTo height width this = Ret (Raised e, this')) /\
  (m_viewing (_localMatrix this) = true ->
   LocalLength height (ColShift this) (Grid.Width (_grid this)) = LocalHeight this ->
   width = LocalWidth this ->
   release = true \/
   (_viewing this && _lockedView this = false /\ 0 <= height /\ 0 <= width) ->
   exists this',
     ResizeTo height width this = Ret (Normal tt, this') /\
     Height this' = height /\ Width this' = width /\
     _localMatrix this' = _localMatrix this /\
     ColAlignment this' = ColAlignment this /\ ColShift this' = ColShift this) /\
  (_viewing this = false -> m_viewing (_localMatrix this) = false ->
   0 <= height -> 0 <= width ->
   exists this',
     ResizeTo height width this = Ret (Normal tt, this') /\
     Height this' = height /\ Width this' = width /\
     LocalHeight this' = LocalLength height (ColShift this) (Grid.Width (_grid this)) /\
     LocalWidth this' = width /\
     LocalBuffer this' = uninit /\
     ColAlignment this' = ColAlignment this /\ ColShift this' = ColShift this).
Proof.
  split; [|split].
  - intros Hview Hne. unfold ResizeTo, debug.
    assert (Hsz :
      (LocalLength height (ColShift this) (Grid.Width (_grid this)) =? m_height (_localMatrix this)) &&
      (width =? m_width (_localMatrix this)) = false).
    { unfold LocalHeight, LocalWidth in Hne. apply andb_false_iff.
      destruct Hne as [H | H]; [left | right]; apply Z.eqb_neq; exact H. }
    destruct release; unfold_monad; unfold Matrix_ResizeTo, ColShift.
    + cbn. rewrite Hview. unfold ColShift in Hsz. rewrite Hsz. eexists; eexists; reflexivity.
    + destruct (_viewing this && _lockedView this); cbn; [eexists; eexists; reflexivity|].
      destruct ((height <? 0) || (width <? 0)); cbn; [eexists; eexists; reflexivity|].
      rewrite Hview. unfold ColShift in Hsz. rewrite Hsz. eexists; eexists; reflexivity.
  - intros Hview Hlh Hlw Hperm. unfold ResizeTo, debug.
    assert (Hsz :
      (LocalLength height (_colShift this) (Grid.Width (_grid this)) =? m_height (_localMatrix this)) &&
      (width =? m_width (_localMatrix this)) = true).
    { unfold LocalHeight, LocalWidth, ColShift in Hlh, Hlw. apply andb_true_iff.
      split; apply Z.eqb_eq; assumption. }
    destruct release.
    + unfold_monad. unfold Matrix_ResizeTo, ColShift. cbn. rewrite Hview, Hsz.
      eexists. split; [reflexivity|]. cbn. repeat split.
    + destruct Hperm as [Hrel | [Hlock [Hh Hw]]]; [discriminate|].
      assert (Hneg : (height <? 0) || (width <? 0) = false).
      { destruct (Z.ltb_spec height 0), (Z.ltb_spec width 0); try lia; reflexivity. }
      unfold_monad. unfold Matrix_ResizeTo, ColShift.
      repeat (progress (cbn; rewrite ?Hlock, ?Hneg, ?Hview, ?Hsz)).
      eexists. split; [reflexivity|]. cbn. repeat split.
  - intros Hv Hlv Hh Hw. unfold ResizeTo, debug.
    assert (Hneg : (height <? 0) || (width <? 0) = false).
    { destruct (Z.ltb_spec height 0), (Z.ltb_spec width 0); try lia; reflexivity. }
    destruct release; unfold_monad; unfold Matrix_ResizeTo;
      repeat (progress (cbn; rewrite ?Hv, ?Hlv, ?Hneg));
      eexists; (split; [reflexivity|]); cbn; repeat split.
Qed.


Lemma col_aligned_Shift (d : DistMatrix) :
  col_aligned d <->
  0 <= _colAlignment d < Grid.Width (_grid d) /\
  _colShift d = Shift (Grid.MRRank (_grid d)) (_colAlignment d) (Grid.Width (_grid d)).
Proof. unfold col_aligned, Shift. tauto. Qed.


(** C10 at the failing input: on a 2 x 2 grid, [AlignWith] from a [VR,* ]
    matrix whose column alignment is 3 (a valid alignment over the 4
    processes) goes through and leaves the [MR,* ] object with column
    alignment 3, outside [0, gridWidth) = [0, 2).  The assignment from
    [VR,* ] reduces the alignment modulo the grid width; [AlignWith] does
    not. *)
Theorem AlignWith_VR_STAR_out_of_range :
  let g := Grid.mk 2 2 0 0 in
  let A := set_colAlignment (shell g) 3 (Shift (Grid.VRRank g) 3 (Grid.Size g)) in
  exists this',
    AlignWith_VR_STAR A (shell g) = Ret (Normal tt, this') /\
    ColAlignment this' = 3 /\
    ~ col_aligned this' /\
    ensures (fun r => ColAlignment (snd r) = 1 /\ col_aligned (snd r))
            (assign_VR_STAR A (shell g)).
Proof.
  cbn zeta. unfold AlignWith_VR_STAR, assign_VR_STAR, assign_asserts, ResizeTo, debug.
  destruct release; unfold_monad; cbn.
  - eexists. split; [reflexivity|]. cbn. split; [reflexivity|]. split.
    + unfold col_aligned. cbn. lia.
    + intros b. unfold col_aligned. cbn. split; [reflexivity|]. split; [lia | reflexivity].
  - eexists. split; [reflexivity|]. cbn. split; [reflexivity|]. split.
    + unfold col_aligned. cbn. lia.
    + intros b. unfold col_aligned. cbn. split; [reflexivity|]. split; [lia | reflexivity].
Qed.

(** ** Index arithmetic of the cyclic distribution *)

(** The process column that owns row [i] has shift [i mod c]. *)
Lemma owner_shift (i a c : Z) :
  0 < c -> Shift ((i + a) mod c) a c = i mod c.
Proof.
  intros Hc. unfold Shift.
  replace ((i + a) mod c - a + c) with ((i + a) mod c + (c - a)) by lia.
  rewrite Zplus_mod_idemp_l.
  replace (i + a + (c - a)) with (i + 1 * c) by lia.
  apply Z_mod_plus_full.
Qed.

(** Row [i < h] is the local row [(i - s)/c] of the processes of shift
    [s = i mod c]. *)
Lemma local_index (i h s c : Z) :
  0 < c -> 0 <= i < h -> s = i mod c ->
  0 <= (i - s) / c < LocalLength h s c /\
  s + (i - s) / c * c = i /\
  Z.quot (i - s) c = (i - s) / c.
Proof.
  intros Hc Hi ->.
  pose proof (Z.div_mod i c ltac:(lia)) as Hdm.
  pose proof (Z.mod_pos_bound i c Hc) as Hm.
  assert (Hq : (i - i mod c) / c = i / c).
  { symmetry. apply Z.div_unique with (r := 0); lia. }
  assert (Hq0 : 0 <= i / c) by (apply Z.div_pos; lia).
  rewrite Z.quot_div_nonneg by lia. rewrite Hq.
  repeat split; try lia.
  unfold LocalLength.
  assert (i / c + 1 <= (h - i mod c + c - 1) / c).
  { apply Z.div_le_lower_bound; lia. }
  lia.
Qed.

(** Local row [iLocal] of a process of shift [s] is a row of the matrix. *)
Lemma global_index (iLocal h s c : Z) :
  0 < c -> 0 <= s < c -> 0 <= iLocal < LocalLength h s c ->
  0 <= s + iLocal * c < h /\ (s + iLocal * c) mod c = s /\
  (s + iLocal * c - s) / c = iLocal.
Proof.
  intros Hc Hs Hi. unfold LocalLength in Hi.
  assert (Hlt : iLocal < (h - s + c - 1) / c) by lia.
  assert (H1 : c * (iLocal + 1) <= h - s + c - 1).
  { pose proof (Z.mul_div_le (h - s + c - 1) c Hc).
    assert (c * (iLocal + 1) <= c * ((h - s + c - 1) / c)) by (apply Z.mul_le_mono_nonneg_l; lia).
    lia. }
  repeat split; try nia.
  - rewrite Z_mod_plus_full. apply Z.mod_small. lia.
  - replace (s + iLocal * c - s) with (iLocal * c) by lia. apply Z_div_mult_full. lia.
Qed.

Lemma panel_index_inj (i j i' j' ld : Z) :
  0 <= i < ld -> 0 <= i' < ld -> i + j * ld = i' + j' * ld -> i = i' /\ j = j'.
Proof.
  intros Hi Hi' E.
  assert (j = j') by (destruct (Z.lt_trichotomy j j') as [H | [H | H]]; [nia | exact H | nia]).
  subst. lia.
Qed.

(** C7: for an in-range [(i,j)], [Set] and [Update] issue no collective.
    A process whose grid column is not [(i + colAlignment) mod gridWidth]
    is left exactly as it was.  A process of that column writes [u]
    (accumulates [u] for [Update]) into its local entry
    [((i - colShift)/gridWidth, j)], keeps every other local entry, and
    changes nothing but its local storage. *)
Theorem Set_Update_frame (this : DistMatrix) (i j : Z) (u : T) :
  let g := _grid this in
  let c := Grid.Width g in
  let ownerCol := (i + ColAlignment this) mod c in
  let iLoc := (i - ColShift this) / c in
  0 < c -> col_aligned this ->
  Matrix_wf (_localMatrix this) (LocalLength (Height this) (ColShift this) c) (Width this) ->
  m_lockedView (_localMatrix this) = false ->
  0 <= i < Height this -> 0 <= j < Width this ->
  collectives (Set_ i j u this) = [] /\
  collectives (Update i j u this) = [] /\
  exists this1 this2,
    Set_ i j u this = Ret (Normal tt, this1) /\
    Update i j u this = Ret (Normal tt, this2) /\
    (Grid.MRRank g <> ownerCol -> this1 = this /\ this2 = this) /\
    (Grid.MRRank g = ownerCol ->
     0 <= iLoc < LocalHeight this /\
     GetLocalEntry this1 iLoc j = u /\
     GetLocalEntry this2 iLoc j = addT (GetLocalEntry this iLoc j) u /\
     (forall i' j', 0 <= i' < LocalHeight this -> 0 <= j' < LocalWidth this ->
        (i', j') <> (iLoc, j) ->
        GetLocalEntry this1 i' j' = GetLocalEntry this i' j' /\
        GetLocalEntry this2 i' j' = GetLocalEntry this i' j') /\
     (exists b1, this1 = set_localMatrix this (Matrix_with_data (_localMatrix this) b1)) /\
     (exists b2, this2 = set_localMatrix this (Matrix_with_data (_localMatrix this) b2))).
Proof.
  intros g c ownerCol iLoc Hc Hal [Hmh [Hmw [Hld Hld1]]] Hlock Hi Hj.
  apply col_aligned_Shift in Hal. destruct Hal as [Ha Hs]. fold g c in Ha, Hs.
  assert (Hrem : Z.rem (i + ColAlignment this) c = ownerCol).
  { unfold ownerCol. apply Z.rem_mod_nonneg; unfold ColAlignment; lia. }
  assert (Hvalid : (i <? 0) || (i >=? Height this) || (j <? 0) || (j >=? Width this) = false).
  { rewrite !Z.geb_leb.
    destruct (Z.ltb_spec i 0), (Z.leb_spec (Height this) i),
      (Z.ltb_spec j 0), (Z.leb_spec (Width this) j); try lia; reflexivity. }
  assert (Hprog :
    Set_ i j u this =
      Ret (Normal tt,
           if Grid.MRRank g =? ownerCol
           then set_localMatrix this
                  (Matrix_with_data (_localMatrix this)
                     (upd (m_data (_localMatrix this))
                          (Z.quot (i - ColShift this) c + j * m_ldim (_localMatrix this)) u))
           else this) /\
    Update i j u this =
      Ret (Normal tt,
           if Grid.MRRank g =? ownerCol
           then set_localMatrix this
                  (Matrix_with_data (_localMatrix this)
                     (upd (m_data (_localMatrix this))
                          (Z.quot (i - ColShift this) c + j * m_ldim (_localMatrix this))
                          (addT (m_data (_localMatrix this)
                                   (Z.quot (i - ColShift this) c + j * m_ldim (_localMatrix this)))
                                u)))
           else this)).
  { unfold Set_, Update, SetLocalEntry, UpdateLocalEntry, debug.
    destruct release; unfold_monad; unfold Matrix_Set, Matrix_Update;
      repeat (progress (cbn; rewrite ?Hvalid; fold g; fold c; rewrite ?Hrem));
      destruct (Grid.MRRank g =? ownerCol); cbn; rewrite ?Hlock; split; reflexivity. }
  destruct Hprog as [HS HU]. rewrite HS, HU. cbn [collectives].
  split; [reflexivity|]. split; [reflexivity|].
  eexists. eexists. split; [reflexivity|]. split; [reflexivity|].
  destruct (Z.eqb_spec (Grid.MRRank g) ownerCol) as [Hown | Hnot].
  - split; [intros H; contradiction|]. intros _.
    assert (Hsh : ColShift this = i mod c).
    { unfold ColShift. rewrite Hs, Hown. unfold ownerCol, ColAlignment.
      apply owner_shift. exact Hc. }
    destruct (local_index i (Height this) (ColShift this) c Hc Hi Hsh) as [Hloc [_ Hquot]].
    fold iLoc in Hloc, Hquot. rewrite Hquot.
    unfold LocalHeight, LocalWidth. rewrite Hmh, Hmw.
    split; [exact Hloc|].
    unfold GetLocalEntry, Matrix_Get, upd. cbn.
    rewrite Z.eqb_refl. split; [reflexivity|]. split; [reflexivity|].
    split; [|split; eexists; reflexivity].
    intros i' j' Hi' Hj' Hne.
    destruct (Z.eqb_spec (i' + j' * m_ldim (_localMatrix this))
                         (iLoc + j * m_ldim (_localMatrix this))) as [E | _];
      [|split; reflexivity].
    exfalso. apply Hne.
    destruct (panel_index_inj i' j' iLoc j (m_ldim (_localMatrix this))) as [-> ->];
      [lia | lia | exact E | reflexivity].
  - split; [intros _; split; reflexivity | intros H; contradiction].
Qed.

(** The plain copy of the local matrix: the target has the source's local
    shape and entries. *)
Lemma Matrix_assign_copies (m A : Matrix) :
  m_lockedView m = false ->
  (m_viewing m = true ->
   m_height m = m_height A /\ m_width m = m_width A /\ m_height m <= m_ldim m) ->
  0 <= m_height A ->
  exists m',
    Matrix_assign m A = Normal m' /\
    m_height m' = m_height A /\ m_width m' = m_width A /\
    m_height A <= m_ldim m' /\
    m_viewing m' = m_viewing m /\
    (m_viewing m = false -> 1 <= m_ldim m') /\
    forall i j, 0 <= i < m_height A -> 0 <= j < m_width A ->
      Matrix_Get m' i j = Matrix_Get A i j.
Proof.
  intros Hlock Hview HhA. unfold Matrix_assign, Matrix_ResizeTo. rewrite Hlock.
  destruct (m_viewing m) eqn:Hv.
  - destruct (Hview eq_refl) as [Hh [Hw Hld]].
    rewrite <- Hh, <- Hw, !Z.eqb_refl. cbn.
    eexists. split; [reflexivity|]. cbn. rewrite Hv.
    repeat split; try lia; try discriminate.
    intros i j Hi Hj. unfold Matrix_Get. cbn.
    replace (i + j * m_ldim m) with (0 + j * m_ldim m + i) by lia.
    replace (i + j * m_ldim A) with (0 + j * m_ldim A + i) by lia.
    apply (panel_copy (m_width m) (m_height m) 0 (m_ldim m) 0 (m_ldim A)); lia.
  - eexists. split; [reflexivity|]. cbn.
    repeat split; try lia.
    intros i j Hi Hj. unfold Matrix_Get. cbn [m_data m_ldim Matrix_with_data m_height m_width].
    replace (i + j * Z.max (m_height A) 1) with (0 + j * Z.max (m_height A) 1 + i) by lia.
    replace (i + j * m_ldim A) with (0 + j * m_ldim A + i) by lia.
    apply (panel_copy (m_width A) (m_height A) 0 (Z.max (m_height A) 1) 0 (m_ldim A)); lia.
Qed.

#[local] Arguments Matrix_assign : simpl never.

(** C4: assigning an [MR,* ] matrix to an [MR,* ] target of the same column
    alignment (or to an owning target whose alignment is free, which takes
    the source's) issues no collective, and the target's local matrix
    becomes a plain copy of the source's: same local shape, same entries. *)
Theorem assign_MR_STAR_fast_path (this A : DistMatrix) :
  Grid.eqb (_grid this) (_grid A) = true ->
  _lockedView this = false -> m_lockedView (_localMatrix this) = false ->
  m_viewing (_localMatrix this) = _viewing this ->
  (_viewing this = true ->
   Height this = Height A /\ Width this = Width A /\
   LocalHeight this = LocalHeight A /\ LocalWidth this = LocalWidth A /\
   LocalHeight this <= LocalLDim this) ->
  0 <= Height A -> 0 <= Width A -> 0 <= LocalHeight A ->
  ColAlignment this = ColAlignment A \/
  (_viewing this = false /\ ConstrainedColAlignment this = false) ->
  collectives (assign_MR_STAR A this) = [] /\
  exists this',
    assign_MR_STAR A this = Ret (Normal tt, this') /\
    Height this' = Height A /\ Width this' = Width A /\
    ColAlignment this' = ColAlignment A /\
    LocalHeight this' = LocalHeight A /\ LocalWidth this' = LocalWidth A /\
    forall i j, 0 <= i < LocalHeight A -> 0 <= j < LocalWidth A ->
      GetLocalEntry this' i j = GetLocalEntry A i j.
Proof.
  intros Hgrid Hlock Hmlock Hflags Hview HhA HwA HlhA Halign.
  assert (Hneg : (Height A <? 0) || (Width A <? 0) = false).
  { destruct (Z.ltb_spec (Height A) 0), (Z.ltb_spec (Width A) 0); try lia; reflexivity. }
  assert (Hprog : exists this',
    assign_MR_STAR A this = Ret (Normal tt, this') /\
    Height this' = Height A /\ Width this' = Width A /\
    ColAlignment this' = ColAlignment A /\
    LocalHeight this' = LocalHeight A /\ LocalWidth this' = LocalWidth A /\
    forall i j, 0 <= i < LocalHeight A -> 0 <= j < LocalWidth A ->
      GetLocalEntry this' i j = GetLocalEntry A i j).
  { destruct (_viewing this) eqn:Hv.
    - destruct (Hview eq_refl) as [Hh [Hw [Hlh [Hlw Hld]]]].
      destruct Halign as [Ha | [Hf _]]; [|discriminate Hf].
      destruct (Matrix_assign_copies (_localMatrix this) (_localMatrix A) Hmlock)
        as [m' [Hm' [Hmh [Hmw [_ [_ [_ Hent]]]]]]];
        [intros _; repeat split; assumption | exact HlhA |].
      exists (set_localMatrix this m').
      unfold assign_MR_STAR, assign_asserts, debug.
      unfold ColAlignment in Ha. unfold Height, Width in Hh, Hw.
      destruct release; unfold_monad; unfold Viewing, ColAlignment, LockedLocalMatrix, Height, Width;
        repeat (progress (cbn; rewrite ?Hv, ?Hlock, ?Hgrid, ?Hh, ?Hw, ?Ha, ?Z.eqb_refl, ?Hm'));
        repeat split; auto.
    - destruct (Matrix_assign_copies
                  (mkMatrix (LocalLength (Height A)
                               (if _constrainedColAlignment this then _colShift this else _colShift A)
                               (Grid.Width (_grid this)))
                            (Width A)
                            (Z.max (LocalLength (Height A)
                               (if _constrainedColAlignment this then _colShift this else _colShift A)
                               (Grid.Width (_grid this))) 1)
                            uninit false false)
                  (_localMatrix A) eq_refl)
        as [m' [Hm' [Hmh [Hmw [_ [_ [_ Hent]]]]]]];
        [cbn; intros H; discriminate H | exact HlhA |].
      assert (Ha : (if _constrainedColAlignment this then _colAlignment this else _colAlignment A)
                   = _colAlignment A).
      { destruct Halign as [Ha | [_ Hf]].
        - destruct (_constrainedColAlignment this); [exact Ha | reflexivity].
        - unfold ConstrainedColAlignment in Hf. rewrite Hf. reflexivity. }
      unfold assign_MR_STAR, assign_asserts, ResizeTo, debug.
      destruct release; unfold_monad;
        unfold Viewing, ConstrainedColAlignment, ColAlignment, ColShift, LockedLocalMatrix,
          Height, Width, Matrix_ResizeTo in *;
        repeat (progress (cbn; rewrite ?Hv, ?Hlock, ?Hgrid, ?Hneg, ?Hflags));
        destruct (_constrainedColAlignment this);
        repeat (progress (cbn; rewrite ?Hv, ?Hlock, ?Hgrid, ?Hneg, ?Hflags, ?Ha, ?Z.eqb_refl, ?Hm'));
        eexists; (split; [reflexivity|]); cbn; repeat split; auto. }
  destruct Hprog as [this' [Hp Hrest]]. rewrite Hp. cbn [collectives].
  split; [reflexivity|]. exists this'. split; [reflexivity | exact Hrest].
Qed.

Lemma LocalLength_zero_extent (s c : Z) : 0 <= s -> 1 <= c -> LocalLength 0 s c = 0.
Proof.
  intros Hs Hc. unfold LocalLength.
  assert ((0 - s + c - 1) / c <= 0).
  { assert ((0 - s + c - 1) / c < 1); [|lia]. apply Z.div_lt_upper_bound; lia. }
  lia.
Qed.

Lemma MaxLocalLength_zero_extent (c : Z) : 1 <= c -> MaxLocalLength 0 c = 0.
Proof. intros Hc. apply LocalLength_zero_extent; lia. Qed.

Lemma portion_zero_extent (x y : Z) : 0 <= MIN_COLL_MSG -> x = 0 \/ y = 0 ->
  Z.max (x * y) MIN_COLL_MSG = MIN_COLL_MSG.
Proof. intros Hm [-> | ->]; rewrite ?Z.mul_0_l, ?Z.mul_0_r; lia. Qed.

(** C3, as the code has it: a zero global extent does not short-circuit
    the assignments from [VR,* ] and from [MR,MC].  Every process still
    issues the all-gather over its grid column (after a send-receive when
    the alignments differ), each with the padded count [MIN_COLL_MSG]; the
    call then returns normally with an empty matrix of the source's global
    shape. *)
Theorem zero_extent_still_gathers (this A : DistMatrix) :
  let g := _grid this in
  let aligned (a : Z) :=
    (if _constrainedColAlignment this then _colAlignment this else a) =? a in
  let empty (r : Outcome unit * DistMatrix) :=
    fst r = Normal tt /\ Height (snd r) = Height A /\ Width (snd r) = Width A /\
    LocalHeight (snd r) * LocalWidth (snd r) = 0 in
  0 <= MIN_COLL_MSG -> 1 <= Grid.Height g -> 1 <= Grid.Width g ->
  Grid.eqb g (_grid A) = true ->
  _viewing this = false -> m_viewing (_localMatrix this) = false ->
  0 <= _colShift this ->
  0 <= Height A -> 0 <= Width A -> Height A = 0 \/ Width A = 0 ->
  collectives (assign_VR_STAR A this) =
    (if aligned (Z.rem (_colAlignment A) (Grid.Width g)) then []
     else [(SendRecvOp, VRComm, MIN_COLL_MSG)]) ++ [(AllGatherOp, MCComm, MIN_COLL_MSG)] /\
  ensures empty (assign_VR_STAR A this) /\
  collectives (assign_MR_MC A this) =
    (if aligned (_colAlignment A) then []
     else [(SendRecvOp, MRComm, MIN_COLL_MSG)]) ++ [(AllGatherOp, MCComm, MIN_COLL_MSG)] /\
  ensures empty (assign_MR_MC A this).
Proof.
  intros g aligned empty Hmin Hr Hc Hgrid Hv Hmv Hs HhA HwA Hzero.
  subst aligned empty. cbn beta.
  assert (Hneg : (Height A <? 0) || (Width A <? 0) = false).
  { destruct (Z.ltb_spec (Height A) 0), (Z.ltb_spec (Width A) 0); try lia; reflexivity. }
  assert (Hp : 1 <= Grid.Height g * Grid.Width g) by nia.
  assert (HpVR : Z.max (MaxLocalLength (Height A) (Grid.Height g * Grid.Width g) * Width A)
                   MIN_COLL_MSG = MIN_COLL_MSG).
  { apply portion_zero_extent; [exact Hmin|].
    destruct Hzero as [-> | ->]; [left; apply MaxLocalLength_zero_extent; exact Hp | right; reflexivity]. }
  assert (HpMC : forall s, 0 <= s ->
            Z.max (LocalLength (Height A) s (Grid.Width g) * MaxLocalLength (Width A) (Grid.Height g))
                   MIN_COLL_MSG = MIN_COLL_MSG).
  { intros s Hs0. apply portion_zero_extent; [exact Hmin|].
    destruct Hzero as [-> | ->];
      [left; apply LocalLength_zero_extent; assumption
      |right; apply MaxLocalLength_zero_extent; exact Hr]. }
  assert (HpMC' : Z.max (MaxLocalLength (Height A) (Grid.Width g) * MaxLocalLength (Width A) (Grid.Height g))
                   MIN_COLL_MSG = MIN_COLL_MSG).
  { apply portion_zero_extent; [exact Hmin|].
    destruct Hzero as [-> | ->];
      [left; apply MaxLocalLength_zero_extent; assumption
      |right; apply MaxLocalLength_zero_extent; exact Hr]. }
  assert (Hempty : forall s, 0 <= s -> LocalLength (Height A) s (Grid.Width g) * Width A = 0).
  { intros s Hs0. destruct Hzero as [-> | ->]; [|lia].
    rewrite LocalLength_zero_extent by assumption. reflexivity. }
  assert (Hsh : forall a, 0 <= Shift (Grid.MRRank g) a (Grid.Width g)).
  { intros a. apply Shift_range. lia. }
  unfold assign_VR_STAR, assign_MR_MC, assign_asserts, ResizeTo, debug.
  unfold Grid.Size. fold g.
  destruct release; unfold_monad;
    unfold Viewing, ConstrainedColAlignment, ColAlignment, ColShift, Height, Width,
      LocalHeight, LocalWidth, Matrix_ResizeTo in *;
    repeat (progress (cbn; fold g; rewrite ?Hv, ?Hmv, ?Hgrid, ?Hneg));
    destruct (_constrainedColAlignment this);
    repeat (progress (cbn; fold g; rewrite ?Hv, ?Hmv, ?Hgrid, ?Hneg));
    repeat match goal with
           | |- context [if ?b then _ else _] => destruct b
           end;
    repeat (progress (cbn; fold g; rewrite ?HpVR, ?HpMC, ?HpMC' by auto));
    repeat split; intros; cbn; auto.
Qed.


(** ** Properties of the lock-step semantics *)

Lemma ranks_In (n x : Z) : In x (ranks n) <-> 0 <= x < n.
Proof.
  unfold ranks. rewrite in_map_iff. split.
  - intros [m [<- Hm]]. apply in_seq in Hm. lia.
  - intros Hx. exists (Z.to_nat x). split; [lia|]. apply in_seq. lia.
Qed.

Lemma all_grid_true (r c : Z) (P : Z -> Z -> bool) :
  all_grid r c P = true <-> (forall k q, on_grid r c k q -> P k q = true).
Proof.
  unfold all_grid, on_grid. rewrite forallb_forall. split.
  - intros H k q [Hk Hq]. specialize (H k (proj2 (ranks_In r k) Hk)).
    rewrite forallb_forall in H. apply H. apply ranks_In. exact Hq.
  - intros H k Hk. apply forallb_forall. intros q Hq. apply H.
    split; apply ranks_In; assumption.
Qed.

Lemma silent_Ret {R : Type} (p : Prog R) : silent p = true -> exists x, p = Ret x.
Proof. destruct p; cbn; intros H; try discriminate H. eexists; reflexivity. Qed.

(** One round: when every process's pending collective is matched and
    what it delivers lets the process return, the grid finishes in one
    step. *)
Lemma run_one_round {R : Type} (r c : Z) (w w' : World (Prog R)) :
  (forall k q, on_grid r c k q -> deliver r c w k q = Some (w' k q)) ->
  (forall k q, on_grid r c k q -> silent (w' k q) = true) ->
  exists w'', run_world r c 1 w = Some w'' /\
    forall k q, on_grid r c k q -> w'' k q = w' k q.
Proof.
  intros Hdel Hsil. cbn [run_world].
  destruct (finished r c w) eqn:Hfin.
  - exists w. split; [reflexivity|]. intros k q Hkq.
    unfold finished in Hfin. rewrite all_grid_true in Hfin.
    destruct (silent_Ret _ (Hfin k q Hkq)) as [x Hx].
    specialize (Hdel k q Hkq). unfold deliver in Hdel. rewrite Hx in Hdel.
    injection Hdel as <-. exact Hx.
  - unfold step_world.
    assert (Hall : all_grid r c (fun k q => is_some (deliver r c w k q)) = true).
    { apply all_grid_true. intros k q Hkq. rewrite (Hdel k q Hkq). reflexivity. }
    rewrite Hall.
    assert (Hfin' : finished r c
              (fun k q => match deliver r c w k q with Some p => p | None => w k q end) = true).
    { apply all_grid_true. intros k q Hkq. rewrite (Hdel k q Hkq). apply Hsil. exact Hkq. }
    rewrite Hfin'. eexists. split; [reflexivity|].
    intros k q Hkq. cbn. rewrite (Hdel k q Hkq). reflexivity.
Qed.

Lemma in_range_true (lo hi x : Z) : lo <= x < hi -> in_range lo hi x = true.
Proof.
  intros H. unfold in_range.
  destruct (Z.leb_spec lo x), (Z.ltb_spec x hi); try lia; reflexivity.
Qed.

(** [Set] and [Update] never communicate, whatever the object and the
    index. *)
Lemma Set_Update_silent (this : DistMatrix) (i j : Z) (u : T) :
  collectives (Set_ i j u this) = [] /\ collectives (Update i j u this) = [].
Proof.
  unfold Set_, Update, SetLocalEntry, UpdateLocalEntry, debug.
  destruct release; unfold_monad; unfold Matrix_Set, Matrix_Update; cbn;
    repeat match goal with
           | |- context [if ?b then _ else _] => destruct b; cbn
           end; split; reflexivity.
Qed.

(** C2: on an [MR,* ] matrix that holds the global matrix [G], [Get(i,j)]
    for an in-range [(i,j)] returns [G i j] on every process of the grid
    and changes no object.  Each process issues exactly one collective, a
    broadcast of one entry over its grid row, rooted at the grid column
    [(i + colAlignment) mod gridWidth]; the processes of that column
    contribute their local entry [((i - colShift)/gridWidth, j)].  [Set]
    and [Update] issue no collective. *)
Theorem Get_correct (r c : Z) (d : World DistMatrix) (h w a : Z)
    (G : Z -> Z -> T) (i j : Z) :
  0 < r -> 0 < c ->
  MR_STAR_represents r c d h w a G ->
  0 <= i < h -> 0 <= j < w ->
  returns r c (call r c 1 (fun _ _ => Get i j) d) (fun _ _ => G i j) d /\
  (forall k q, on_grid r c k q ->
     collectives (Get i j (d k q)) = [(BroadcastOp, MRComm, 1)] /\
     exists u kont,
       Get i j (d k q) = Broadcast u ((i + a) mod c) MRComm kont /\
       (q = (i + a) mod c ->
        u = GetLocalEntry (d k q) ((i - ColShift (d k q)) / c) j /\ u = G i j)) /\
  (forall k q u,
     collectives (Set_ i j u (d k q)) = [] /\ collectives (Update i j u (d k q)) = []).
Proof.
  intros Hr Hc Hrep Hi Hj.
  set (root := (i + a) mod c).
  assert (Hroot : 0 <= root < c) by (apply Z.mod_pos_bound; exact Hc).
  (* the program of each process *)
  assert (Hprog : forall k q, on_grid r c k q ->
    Get i j (d k q) =
    Broadcast (if q =? root
               then GetLocalEntry (d k q) (Z.quot (i - ColShift (d k q)) c) j
               else uninitT)
              root MRComm (fun v => Ret (Normal v, d k q))).
  { intros k q Hkq. destruct (Hrep k q Hkq) as [[Hg [Hh [Hw [_ [_ [Ha [Har _]]]]]]] _].
    assert (Hvalid : (i <? 0) || (i >=? _height (d k q)) || (j <? 0) || (j >=? _width (d k q)) = false).
    { rewrite Hh, Hw, !Z.geb_leb.
      destruct (Z.ltb_spec i 0), (Z.leb_spec h i), (Z.ltb_spec j 0), (Z.leb_spec w j);
        try lia; reflexivity. }
    assert (Hrem : Z.rem (i + a) c = root) by (apply Z.rem_mod_nonneg; lia).
    unfold Get, broadcast, debug.
    destruct release; unfold_monad; unfold Height, Width, ColAlignment;
      repeat (progress (cbn; rewrite ?Hvalid, ?Hg, ?Ha; cbn; rewrite ?Hrem)); reflexivity. }
  (* the entry the owners contribute *)
  assert (Hown : forall k, 0 <= k < r ->
    GetLocalEntry (d k root) (Z.quot (i - ColShift (d k root)) c) j = G i j /\
    Z.quot (i - ColShift (d k root)) c = (i - ColShift (d k root)) / c).
  { intros k Hk. destruct (Hrep k root (conj Hk Hroot)) as [Hwf Hent].
    destruct Hwf as [_ [_ [_ [_ [_ [_ [_ [Hs [Hmh _]]]]]]]]].
    assert (Hsh : ColShift (d k root) = i mod c).
    { unfold ColShift. rewrite Hs. apply owner_shift. exact Hc. }
    destruct (local_index i h (ColShift (d k root)) c Hc Hi Hsh) as [Hloc [Hglob Hquot]].
    split; [|exact Hquot].
    rewrite Hquot, Hent.
    - rewrite Hglob. reflexivity.
    - unfold LocalHeight. rewrite Hmh. unfold ColShift in *. rewrite Hs in *. exact Hloc.
    - exact Hj. }
  split; [|split].
  - unfold returns, call.
    destruct (run_one_round r c (fun k q => Get i j (d k q))
                (fun k q => Ret (Normal (G i j), d k q))) as [w'' [Hrun Hw'']].
    + intros k q Hkq. unfold deliver. rewrite (Hprog k q Hkq).
      cbn [comm_size comm_peer fst snd]. rewrite (in_range_true 0 c root Hroot).
      rewrite (Hprog k root (conj (proj1 Hkq) Hroot)).
      rewrite Z.eqb_refl. cbn.
      destruct (Hown k (proj1 Hkq)) as [-> _]. reflexivity.
    + intros k q _. reflexivity.
    + exists w''. split; [exact Hrun | exact Hw''].
  - intros k q Hkq. rewrite (Hprog k q Hkq). cbn [collectives]. split; [reflexivity|].
    eexists. eexists. split; [reflexivity|].
    intros ->. rewrite Z.eqb_refl.
    destruct (Hown k (proj1 Hkq)) as [Hval Hquot].
    rewrite <- Hquot. split; [reflexivity | exact Hval].
  - intros k q u. apply Set_Update_silent.
Qed.

(** ** Redistribution between [MR,* ] alignments *)

Lemma mod_eq_by (x y c m : Z) : x = y + m * c -> x mod c = y mod c.
Proof. intros ->. apply Z_mod_plus_full. Qed.

(** The rank a process receives from holds, in the source, the rows the
    process owns in the target. *)
Lemma recv_shift (q a b c : Z) :
  0 < c -> Shift ((q + c + a - b) mod c) a c = Shift q b c.
Proof.
  intros Hc. unfold Shift.
  replace ((q + c + a - b) mod c - a + c) with ((q + c + a - b) mod c + (c - a)) by lia.
  rewrite Zplus_mod_idemp_l. apply (mod_eq_by _ _ c 1). lia.
Qed.

(** Sending and receiving ranks are inverse to each other. *)
Lemma send_recv_inverse (q a b c : Z) :
  0 < c -> 0 <= q < c -> ((q + c + a - b) mod c + c + b - a) mod c = q.
Proof.
  intros Hc Hq.
  replace ((q + c + a - b) mod c + c + b - a) with ((q + c + a - b) mod c + (c + b - a)) by lia.
  rewrite Zplus_mod_idemp_l.
  rewrite (mod_eq_by _ q c 2) by lia. apply Z.mod_small. exact Hq.
Qed.

Lemma LocalLength_le_Max (h s c : Z) :
  0 < c -> 0 <= s -> LocalLength h s c <= MaxLocalLength h c.
Proof.
  intros Hc Hs. unfold MaxLocalLength, LocalLength.
  assert ((h - s + c - 1) / c <= (h - 0 + c - 1) / c) by (apply Z.div_le_mono; lia).
  lia.
Qed.

Section Redistribution.

Variables r c h w : Z.
Variable G : Z -> Z -> T.
Hypothesis Hr : 0 < r.
Hypothesis Hc : 0 < c.

Lemma represents_dims (d : World DistMatrix) (a k q : Z) :
  MR_STAR_represents r c d h w a G -> on_grid r c k q ->
  0 <= h /\ 0 <= w /\ 0 <= a < c /\
  _grid (d k q) = Grid.mk r c k q /\
  Height (d k q) = h /\ Width (d k q) = w /\
  ColAlignment (d k q) = a /\ ColShift (d k q) = Shift q a c /\
  LocalHeight (d k q) = LocalLength h (Shift q a c) c /\
  LocalWidth (d k q) = w /\
  LocalLength h (Shift q a c) c <= LocalLDim (d k q) /\ 1 <= LocalLDim (d k q).
Proof.
  intros Hrep Hkq.
  destruct (Hrep k q Hkq) as [[Hg [Hh [Hw [Hh0 [Hw0 [Ha [Har [Hs [Hmh [Hmw [Hld Hld1]]]]]]]]]]] _].
  unfold Height, Width, ColAlignment, ColShift, LocalHeight, LocalWidth, LocalLDim.
  repeat split; try assumption; try lia.
Qed.

(** The program of one process for [B = A] when the alignments differ. *)
Lemma assign_MR_STAR_unaligned (A B : DistMatrix) (a b k q : Z) :
  on_grid r c k q ->
  MR_STAR_wf r c k q A h w a -> MR_STAR_target r c k q B a b -> a <> b ->
  let lhA := LocalLength h (Shift q a c) c in
  let lh := LocalLength h (Shift q b c) c in
  assign_MR_STAR A B =
  SendRecv
    (for_loop (Z.to_nat w)
       (fun j buf => memcpy buf (0 + j * lhA) (m_data (_localMatrix A))
                            (j * m_ldim (_localMatrix A)) lhA)
       uninit)
    0 (lhA * w) ((q + c + b - a) mod c)
    (lhA * w) (lh * w) ((q + c + a - b) mod c) MRComm
    (fun received =>
       Ret (Normal tt,
            set_localMatrix (resized r c h w k q b B)
              (Matrix_with_data (_localMatrix (resized r c h w k q b B))
                 (for_loop (Z.to_nat w)
                    (fun j tb => memcpy tb (j * Z.max lh 1) received (lhA * w + j * lh) lh)
                    uninit)))).
Proof.
  intros Hkq Hwf Htgt Hne lhA lh. subst lhA lh.
  destruct Hwf as [HgA [HhA [HwA [Hh0 [Hw0 [HaA [Har [HsA [HmhA [HmwA _]]]]]]]]]].
  destruct Htgt as [HgB [HvB [HmvB [HlB [HmlB [Hbr Hcon]]]]]].
  assert (Hneg : (h <? 0) || (w <? 0) = false).
  { destruct (Z.ltb_spec h 0), (Z.ltb_spec w 0); try lia; reflexivity. }
  assert (Hgrid : Grid.eqb (Grid.mk r c k q) (Grid.mk r c k q) = true).
  { unfold Grid.eqb. cbn. rewrite !Z.eqb_refl. reflexivity. }
  assert (Hba : (b =? a) = false) by (apply Z.eqb_neq; lia).
  assert (Hs1 : Z.rem (q + c + b - a) c = (q + c + b - a) mod c).
  { apply Z.rem_mod_nonneg; destruct Hkq; lia. }
  assert (Hs2 : Z.rem (q + c + a - b) c = (q + c + a - b) mod c).
  { apply Z.rem_mod_nonneg; destruct Hkq; lia. }
  destruct (_constrainedColAlignment B) eqn:HcB; [|congruence].
  destruct Hcon as [HaB HsB].
  unfold assign_MR_STAR, assign_asserts, ResizeTo, sendrecv, resized, debug.
  destruct release; unfold_monad;
    unfold Viewing, ConstrainedColAlignment, ColAlignment, ColShift, Height, Width,
      LocalHeight, LocalWidth, LocalLDim, LocalBuffer, LockedLocalBuffer, Matrix_ResizeTo;
    repeat (progress (cbn; rewrite ?HvB, ?HlB, ?HmvB, ?HgA, ?HgB, ?Hgrid, ?HhA, ?HwA, ?Hneg,
                        ?HcB, ?HaB, ?HaA, ?HsB, ?Hba, ?Hs1, ?Hs2, ?HmhA, ?HmwA));
    unfold set_localMatrix, set_size, Matrix_with_data; cbn;
    rewrite ?HvB, ?HlB, ?HgB, ?HcB, ?HaB, ?HsB; reflexivity.
Qed.

(** The program of one process for [B = A] when the alignments agree. *)
Lemma assign_MR_STAR_aligned_owning (A B : DistMatrix) (a k q : Z) :
  on_grid r c k q ->
  MR_STAR_wf r c k q A h w a -> MR_STAR_target r c k q B a a ->
  exists m',
    assign_MR_STAR A B = Ret (Normal tt, set_localMatrix (resized r c h w k q a B) m') /\
    Matrix_wf m' (LocalLength h (Shift q a c) c) w /\
    forall i j, 0 <= i < LocalLength h (Shift q a c) c -> 0 <= j < w ->
      Matrix_Get m' i j = Matrix_Get (_localMatrix A) i j.
Proof.
  intros Hkq Hwf Htgt.
  destruct Hwf as [HgA [HhA [HwA [Hh0 [Hw0 [HaA [Har [HsA [HmhA [HmwA _]]]]]]]]]].
  destruct Htgt as [HgB [HvB [HmvB [HlB [HmlB [Hbr Hcon]]]]]].
  assert (Hneg : (h <? 0) || (w <? 0) = false).
  { destruct (Z.ltb_spec h 0), (Z.ltb_spec w 0); try lia; reflexivity. }
  assert (Hgrid : Grid.eqb (Grid.mk r c k q) (Grid.mk r c k q) = true).
  { unfold Grid.eqb. cbn. rewrite !Z.eqb_refl. reflexivity. }
  destruct (Matrix_assign_copies
              (mkMatrix (LocalLength h (Shift q a c) c) w
                        (Z.max (LocalLength h (Shift q a c) c) 1) uninit false false)
              (_localMatrix A) eq_refl)
    as [m' [Hm' [Hmh [Hmw [Hld [_ [Hld1 Hent]]]]]]].
  { cbn. intros H; discriminate H. }
  { rewrite HmhA. apply LocalLength_nonneg. }
  exists m'. split; [|split].
  - unfold assign_MR_STAR, assign_asserts, ResizeTo, resized, debug.
    destruct release; unfold_monad;
      unfold Viewing, ConstrainedColAlignment, ColAlignment, ColShift, Height, Width,
        LockedLocalMatrix, Matrix_ResizeTo;
      repeat (progress (cbn; rewrite ?HvB, ?HlB, ?HmvB, ?HgA, ?HgB, ?Hgrid, ?HhA, ?HwA, ?Hneg));
      destruct (_constrainedColAlignment B) eqn:HcB;
      try (match type of Hcon with
           | _ /\ _ => destruct Hcon as [HaB HsB]; rewrite ?HaB, ?HsB
           end);
      repeat (progress (cbn; rewrite ?HvB, ?HlB, ?HmvB, ?HgA, ?HgB, ?Hgrid, ?HhA, ?HwA, ?Hneg,
                          ?HaB, ?HaA, ?HsB, ?HsA, ?Z.eqb_refl, ?Hm'));
      unfold set_localMatrix, set_size, set_colAlignment; cbn;
      rewrite ?HvB, ?HlB, ?HgB, ?HcB, ?HaB, ?HsB; reflexivity.
  - unfold Matrix_wf. rewrite Hmh, Hmw, HmhA, HmwA. rewrite HmhA in Hld.
    repeat split; try lia. apply Hld1. reflexivity.
  - intros i j Hi Hj. apply Hent; rewrite ?HmhA, ?HmwA; assumption.
Qed.

Lemma run_finished {R : Type} (fuel : nat) (w0 : World (Prog R)) :
  (forall k q, on_grid r c k q -> silent (w0 k q) = true) ->
  run_world r c fuel w0 = Some w0.
Proof.
  intros H. assert (Hf : finished r c w0 = true) by (apply all_grid_true; exact H).
  destruct fuel; cbn [run_world]; rewrite Hf; reflexivity.
Qed.

(** [B = A] between [MR,* ] matrices, on the whole grid: every process
    returns normally, after at most one round of send-receive, and the
    target holds the matrix of the source under its own alignment. *)
Lemma assign_MR_STAR_world (A B : World DistMatrix) (a b : Z) :
  MR_STAR_represents r c A h w a G ->
  (forall k q, on_grid r c k q -> MR_STAR_target r c k q (B k q) a b) ->
  exists B',
    returns r c (call r c 1 (fun k q => assign_MR_STAR (A k q)) B) (fun _ _ => tt) B' /\
    MR_STAR_represents r c B' h w b G.
Proof.
  intros Hrep Htgt.
  destruct (Z.eq_dec a b) as [<- | Hne].
  - (* same alignment: a local copy *)
    assert (Hex : forall k q, exists d',
      on_grid r c k q ->
      assign_MR_STAR (A k q) (B k q) = Ret (Normal tt, d') /\
      MR_STAR_wf r c k q d' h w a /\
      forall iLocal j, 0 <= iLocal < LocalHeight d' -> 0 <= j < w ->
        GetLocalEntry d' iLocal j = G (ColShift d' + iLocal * c) j).
    { intros k q.
      destruct (Z_le_dec 0 k), (Z_lt_dec k r), (Z_le_dec 0 q), (Z_lt_dec q c);
        try (exists (B k q); intros [? ?]; lia).
      assert (Hkq : on_grid r c k q) by (split; lia).
      destruct (Hrep k q Hkq) as [Hwf Hent].
      destruct (assign_MR_STAR_aligned_owning (A k q) (B k q) a k q Hkq Hwf (Htgt k q Hkq))
        as [m' [Hp [Hmwf Hcopy]]].
      exists (set_localMatrix (resized r c h w k q a (B k q)) m'). intros _.
      split; [exact Hp|].
      destruct (represents_dims A a k q Hrep Hkq)
        as [Hh0 [Hw0 [Har [_ [_ [_ [_ [HsA [HlhA _]]]]]]]]].
      split.
      - unfold MR_STAR_wf, resized. cbn. repeat split; try lia; try apply Hmwf.
      - intros iLocal j Hi Hj. unfold GetLocalEntry, LocalHeight, ColShift in *.
        cbn in *. destruct Hmwf as [Hmh _]. rewrite Hmh in Hi.
        rewrite Hcopy by assumption.
        rewrite <- HsA. apply Hent; [rewrite HlhA; exact Hi | exact Hj]. }
    (* choose the final objects *)
    assert (Hall : exists B' : World DistMatrix, forall k q, on_grid r c k q ->
      assign_MR_STAR (A k q) (B k q) = Ret (Normal tt, B' k q) /\
      MR_STAR_wf r c k q (B' k q) h w a /\
      forall iLocal j, 0 <= iLocal < LocalHeight (B' k q) -> 0 <= j < w ->
        GetLocalEntry (B' k q) iLocal j = G (ColShift (B' k q) + iLocal * c) j).
    { exists (fun k q =>
        match assign_MR_STAR (A k q) (B k q) with
        | Ret (_, d') => d'
        | _ => B k q
        end).
      intros k q Hkq. destruct (Hex k q) as [d' Hd']. destruct (Hd' Hkq) as [Hp Hrest].
      rewrite Hp. split; [reflexivity | exact Hrest]. }
    destruct Hall as [B' HB']. exists B'. split.
    + unfold returns, call. eexists. split.
      * apply run_finished. intros k q Hkq. destruct (HB' k q Hkq) as [-> _]. reflexivity.
      * intros k q Hkq. cbn beta. destruct (HB' k q Hkq) as [-> _]. reflexivity.
    + intros k q Hkq. destruct (HB' k q Hkq) as [_ Hrest]. exact Hrest.
  - (* different alignments: one send-receive within each grid row *)
    set (src := fun q => (q + c + a - b) mod c).
    set (dst := fun q => (q + c + b - a) mod c).
    set (lh := fun q => LocalLength h (Shift q b c) c).
    set (lhA := fun q => LocalLength h (Shift q a c) c).
    set (packed := fun k q =>
      for_loop (Z.to_nat w)
        (fun j buf => memcpy buf (0 + j * lhA q) (m_data (_localMatrix (A k q)))
                             (j * m_ldim (_localMatrix (A k q))) (lhA q))
        uninit).
    set (received := fun k q => fun idx =>
      if in_range (lhA q * w) (lhA q * w + lhA (src q) * w) idx
      then packed k (src q) (0 + (idx - lhA q * w))
      else packed k q idx).
    set (B' := fun k q =>
      set_localMatrix (resized r c h w k q b (B k q))
        (Matrix_with_data (_localMatrix (resized r c h w k q b (B k q)))
           (for_loop (Z.to_nat w)
              (fun j tb => memcpy tb (j * Z.max (lh q) 1) (received k q)
                                  (lhA q * w + j * lh q) (lh q))
              uninit))).
    assert (Hsrc : forall q, 0 <= src q < c) by (intros; apply Z.mod_pos_bound; exact Hc).
    assert (Hdst : forall q, 0 <= dst q < c) by (intros; apply Z.mod_pos_bound; exact Hc).
    assert (Hprog : forall k q, on_grid r c k q ->
      assign_MR_STAR (A k q) (B k q) =
      SendRecv (packed k q) 0 (lhA q * w) (dst q) (lhA q * w) (lh q * w) (src q) MRComm
        (fun received =>
           Ret (Normal tt,
                set_localMatrix (resized r c h w k q b (B k q))
                  (Matrix_with_data (_localMatrix (resized r c h w k q b (B k q)))
                     (for_loop (Z.to_nat w)
                        (fun j tb => memcpy tb (j * Z.max (lh q) 1) received
                                            (lhA q * w + j * lh q) (lh q))
                        uninit))))).
    { intros k q Hkq. destruct (Hrep k q Hkq) as [Hwf _].
      apply (assign_MR_STAR_unaligned (A k q) (B k q) a b k q Hkq Hwf (Htgt k q Hkq) Hne). }
    assert (Hlhsrc : forall q, lhA (src q) = lh q).
    { intros q. unfold lhA, lh, src. rewrite recv_shift by exact Hc. reflexivity. }
    exists B'. split.
    + unfold returns, call.
      destruct (run_one_round r c (fun k q => assign_MR_STAR (A k q) (B k q))
                  (fun k q => Ret (Normal tt, B' k q))) as [w'' [Hrun Hw'']].
      * intros k q Hkq. destruct Hkq as [Hk Hq].
        unfold deliver. rewrite (Hprog k q (conj Hk Hq)).
        cbn [comm_size comm_peer comm_rank fst snd].
        rewrite (in_range_true 0 c (src q) (Hsrc q)), (in_range_true 0 c (dst q) (Hdst q)).
        cbn [andb].
        rewrite (Hprog k (src q) (conj Hk (Hsrc q))), (Hprog k (dst q) (conj Hk (Hdst q))).
        assert (E1 : (dst (src q) =? q) = true).
        { apply Z.eqb_eq. unfold dst, src. apply send_recv_inverse; assumption. }
        assert (E2 : (src (dst q) =? q) = true).
        { apply Z.eqb_eq. unfold dst, src. apply send_recv_inverse; assumption. }
        assert (E3 : (lhA (src q) * w <=? lh q * w) = true).
        { apply Z.leb_le. rewrite Hlhsrc. lia. }
        rewrite E1, E2, E3. cbn. reflexivity.
      * intros k q _. reflexivity.
      * exists w''. split; [exact Hrun | exact Hw''].
    + intros k q Hkq. destruct Hkq as [Hk Hq].
      destruct (represents_dims A a k q Hrep (conj Hk Hq))
        as [Hh0 [Hw0 [Har [_ _]]]].
      destruct (Htgt k q (conj Hk Hq)) as [_ [_ [_ [_ [_ [Hbr _]]]]]].
      assert (Hlh0 : 0 <= lh q) by apply LocalLength_nonneg.
      split.
      * unfold MR_STAR_wf, Matrix_wf, B', resized. cbn. fold (lh q).
        repeat split; lia.
      * intros iLocal j Hi Hj.
        unfold LocalHeight, GetLocalEntry, Matrix_Get, ColShift, B', resized in *.
        cbn in *. fold (lh q) in *.
        (* the unpack loop *)
        replace (iLocal + j * Z.max (lh q) 1) with (0 + j * Z.max (lh q) 1 + iLocal) by lia.
        rewrite (panel_copy w (lh q) 0 (Z.max (lh q) 1) (lhA q * w) (lh q)) by lia.
        (* the message *)
        unfold received.
        rewrite in_range_true by (rewrite Hlhsrc; nia).
        (* the pack loop of the sender *)
        unfold packed. rewrite Hlhsrc.
        replace (lhA q * w + j * lh q + iLocal - lhA q * w) with (0 + j * lh q + iLocal) by lia.
        rewrite (panel_copy w (lh q) 0 (lh q) 0 (m_ldim (_localMatrix (A k (src q))))) by lia.
        (* the entry of the sender *)
        destruct (Hrep k (src q) (conj Hk (Hsrc q))) as [_ Hent].
        destruct (represents_dims A a k (src q) Hrep (conj Hk (Hsrc q)))
          as [_ [_ [_ [_ [_ [_ [_ [HsA [HlhA _]]]]]]]]].
        unfold GetLocalEntry, Matrix_Get, LocalHeight, ColShift in Hent, HsA, HlhA.
        replace (0 + j * m_ldim (_localMatrix (A k (src q))) + iLocal)
          with (iLocal + j * m_ldim (_localMatrix (A k (src q)))) by lia.
        rewrite Hent.
        -- rewrite HsA. unfold src. rewrite recv_shift by exact Hc. reflexivity.
        -- rewrite HlhA. fold (lhA (src q)). rewrite Hlhsrc. exact Hi.
        -- exact Hj.
Qed.

(** ** Assignment from [* ,* ] *)

Lemma Shift_inj (k k' a c0 : Z) :
  0 <= k < c0 -> 0 <= k' < c0 -> Shift k a c0 = Shift k' a c0 -> k = k'.
Proof.
  unfold Shift. intros Hk Hk' E.
  assert (H1 : (k - a + c0 + a) mod c0 = (k' - a + c0 + a) mod c0).
  { rewrite <- (Zplus_mod_idemp_l (k - a + c0)), E, Zplus_mod_idemp_l. reflexivity. }
  rewrite (mod_eq_by (k - a + c0 + a) k c0 1) in H1 by lia.
  rewrite (mod_eq_by (k' - a + c0 + a) k' c0 1) in H1 by lia.
  rewrite !Z.mod_small in H1 by lia. exact H1.
Qed.

Lemma run_one_round_ex {R : Type} (w0 : World (Prog R)) :
  (forall k q, on_grid r c k q -> exists x, deliver r c w0 k q = Some (Ret x)) ->
  exists w'', run_world r c 1 w0 = Some w'' /\
    forall k q, on_grid r c k q -> deliver r c w0 k q = Some (w'' k q).
Proof.
  intros H.
  destruct (run_one_round r c w0
              (fun k q => match deliver r c w0 k q with Some p => p | None => w0 k q end))
    as [w'' [Hrun Hw'']].
  - intros k q Hkq. destruct (H k q Hkq) as [x ->]. reflexivity.
  - intros k q Hkq. destruct (H k q Hkq) as [x ->]. reflexivity.
  - exists w''. split; [exact Hrun|].
    intros k q Hkq. rewrite (Hw'' k q Hkq). destruct (H k q Hkq) as [x ->]. reflexivity.
Qed.

(** The double loop that fills a local panel entry by entry. *)
Lemma panel_fill (lh ld : Z) (g : Z -> Z -> T) (init : Buffer) (i j : Z) :
  lh <= ld -> 0 <= i < lh -> 0 <= j < w ->
  for_loop (Z.to_nat w)
    (fun j tb =>
       for_loop (Z.to_nat lh) (fun iLocal tb => upd tb (iLocal + j * ld) (g j iLocal)) tb)
    init (i + j * ld) = g j i.
Proof.
  intros Hld Hi Hj.
  assert (Hinj : forall j1 i1 j2 i2 : Z,
    0 <= j1 < Z.of_nat (Z.to_nat w) -> 0 <= i1 < Z.of_nat (Z.to_nat lh) ->
    0 <= j2 < Z.of_nat (Z.to_nat w) -> 0 <= i2 < Z.of_nat (Z.to_nat lh) ->
    i1 + j1 * ld = i2 + j2 * ld -> j1 = j2 /\ i1 = i2).
  { intros j1 i1 j2 i2 Hj1 Hi1 Hj2 Hi2 E.
    destruct (panel_index_inj i1 j1 i2 j2 ld) as [-> ->]; [lia | lia | exact E |].
    split; reflexivity. }
  assert (HW := Writes_fill2 (Z.to_nat w) (fun _ => Z.to_nat lh)
                  (fun j iLocal => iLocal + j * ld) g Hinj).
  cbv beta in HW.
  apply (Writes_hit _ _ init _ _ HW).
  exists j. split; [lia|]. exists i. split; [lia|]. split; reflexivity.
Qed.

(** The program of one process for [B = S], [S] a [* ,* ] matrix: no
    communication. *)
Lemma assign_STAR_STAR_prog (S B : DistMatrix) (b k q : Z) :
  on_grid r c k q -> 0 <= h -> 0 <= w ->
  _grid S = Grid.mk r c k q -> _height S = h -> _width S = w ->
  MR_STAR_owner r c k q B b ->
  let lh := LocalLength h (Shift q b c) c in
  assign_STAR_STAR S B =
  Ret (Normal tt,
       set_localMatrix (resized r c h w k q b B)
         (Matrix_with_data (_localMatrix (resized r c h w k q b B))
            (for_loop (Z.to_nat w)
               (fun j tb =>
                  for_loop (Z.to_nat lh)
                    (fun iLocal tb =>
                       upd tb (iLocal + j * Z.max lh 1)
                           (m_data (_localMatrix S)
                              ((Shift q b c + iLocal * c) + j * m_ldim (_localMatrix S))))
                    tb)
               uninit))).
Proof.
  intros Hkq Hh0 Hw0 HgS HhS HwS Htgt lh. subst lh.
  destruct Htgt as [HgB [HvB [HmvB [HlB [HmlB [Hbr [HaB HsB]]]]]]].
  assert (Hneg : (h <? 0) || (w <? 0) = false).
  { destruct (Z.ltb_spec h 0), (Z.ltb_spec w 0); try lia; reflexivity. }
  assert (Hgrid : Grid.eqb (Grid.mk r c k q) (Grid.mk r c k q) = true).
  { unfold Grid.eqb. cbn. rewrite !Z.eqb_refl. reflexivity. }
  unfold assign_STAR_STAR, assign_asserts, ResizeTo, resized, debug.
  destruct release; unfold_monad;
    unfold Viewing, ColShift, Height, Width, LocalHeight, LocalLDim, LocalBuffer,
      LockedLocalBuffer, Matrix_ResizeTo;
    repeat (progress (cbn; rewrite ?HvB, ?HlB, ?HmvB, ?HgS, ?HgB, ?Hgrid, ?HhS, ?HwS, ?Hneg,
                        ?HsB));
    unfold set_localMatrix, set_size, Matrix_with_data; cbn;
    rewrite ?HvB, ?HlB, ?HgB, ?HaB, ?HsB; reflexivity.
Qed.

(** X18. [B = S] from a [* ,* ] matrix, on the whole grid.  If every
    process holds a full copy of the [h x w] matrix [G] and the [MR,* ]
    targets are owning objects aligned at [b], constrained or not, every
    process returns normally without any communication: it resizes the
    target, keeps its alignment, and picks the rows it owns out of its
    own copy, so that the targets hold [G] under the alignment [b]. *)
Theorem assign_STAR_STAR_world (S B : World DistMatrix) (b : Z) :
  STAR_STAR_represents r c S h w G ->
  (forall k q, on_grid r c k q -> MR_STAR_owner r c k q (B k q) b) ->
  exists B',
    returns r c (call r c 0 (fun k q => assign_STAR_STAR (S k q)) B) (fun _ _ => tt) B' /\
    MR_STAR_represents r c B' h w b G /\
    (forall k q, on_grid r c k q ->
       collectives (assign_STAR_STAR (S k q) (B k q)) = [] /\
       ConstrainedColAlignment (B' k q) = ConstrainedColAlignment (B k q)).
Proof.
  intros Hrep Htgt.
  set (lh := fun q => LocalLength h (Shift q b c) c).
  set (B' := fun k q =>
    set_localMatrix (resized r c h w k q b (B k q))
      (Matrix_with_data (_localMatrix (resized r c h w k q b (B k q)))
         (for_loop (Z.to_nat w)
            (fun j tb =>
               for_loop (Z.to_nat (lh q))
                 (fun iLocal tb =>
                    upd tb (iLocal + j * Z.max (lh q) 1)
                        (m_data (_localMatrix (S k q))
                           ((Shift q b c + iLocal * c) + j * m_ldim (_localMatrix (S k q)))))
                 tb)
            uninit))).
  assert (Hprog : forall k q, on_grid r c k q ->
            assign_STAR_STAR (S k q) (B k q) = Ret (Normal tt, B' k q)).
  { intros k q Hkq. destruct (Hrep k q Hkq) as [HgS [HhS [HwS [Hh0 [Hw0 _]]]]].
    exact (assign_STAR_STAR_prog (S k q) (B k q) b k q Hkq Hh0 Hw0 HgS HhS HwS
             (Htgt k q Hkq)). }
  exists B'. split; [|split].
  3:{ intros k q Hkq. rewrite (Hprog k q Hkq). split; reflexivity. }
  - unfold returns, call. eexists. split.
    + apply run_finished. intros k q Hkq. rewrite (Hprog k q Hkq). reflexivity.
    + intros k q Hkq. cbn beta. apply Hprog. exact Hkq.
  - intros k q Hkq.
    destruct (Hrep k q Hkq) as [HgS [HhS [HwS [Hh0 [Hw0 [[Hmh [Hmw [Hld Hld1]]] Hent]]]]]].
    destruct (Htgt k q Hkq) as [_ [_ [_ [_ [_ [Hbr _]]]]]].
    assert (Hlh0 : 0 <= lh q) by apply LocalLength_nonneg.
    assert (Hs : 0 <= Shift q b c < c) by (apply Shift_range; exact Hc).
    split.
    + unfold MR_STAR_wf, Matrix_wf, B', resized. cbn. fold (lh q). repeat split; lia.
    + intros iLocal j Hi Hj.
      unfold LocalHeight, GetLocalEntry, Matrix_Get, ColShift, B', resized in *.
      cbn [_localMatrix _colShift set_localMatrix Matrix_with_data m_height m_ldim m_data] in *.
      fold (lh q) in *.
      rewrite (panel_fill (lh q) (Z.max (lh q) 1)) by lia.
      destruct (global_index iLocal h (Shift q b c) c Hc Hs Hi) as [Hrow _].
      apply Hent; assumption.
Qed.

Lemma represents_same_entries (d1 d2 : World DistMatrix) (a : Z) :
  MR_STAR_represents r c d1 h w a G -> MR_STAR_represents r c d2 h w a G ->
  same_entries r c d1 d2.
Proof.
  intros H1 H2 k q Hkq.
  destruct (represents_dims d1 a k q H1 Hkq)
    as [_ [_ [_ [_ [Hh1 [Hw1 [Ha1 [Hs1 [Hlh1 [Hlw1 _]]]]]]]]]].
  destruct (represents_dims d2 a k q H2 Hkq)
    as [_ [_ [_ [_ [Hh2 [Hw2 [Ha2 [Hs2 [Hlh2 [Hlw2 _]]]]]]]]]].
  destruct (H1 k q Hkq) as [_ He1]. destruct (H2 k q Hkq) as [_ He2].
  repeat split; try congruence.
  intros iLocal j Hi Hj.
  rewrite He1, He2 by (rewrite ?Hlh1, <- ?Hlh2, <- ?Hlw2; assumption).
  rewrite Hs1, Hs2. reflexivity.
Qed.

(** X17. Re-aligning and back.  Let the [MR,* ] objects [A] hold the
    [h x w] matrix [G] under the column alignment [a].  Assigning [A] to
    owning [MR,* ] objects [B] of any alignment [b] returns normally on
    every process within one round, and the result holds [G] under the
    alignment [b]; assigning that result to owning objects [A2] aligned
    at [a] again returns normally within one round, and [A2] ends with
    the shape, alignment, shift and local entries of [A]. *)
Theorem realign_round_trip (A B A2 : World DistMatrix) (a b : Z) :
  MR_STAR_represents r c A h w a G ->
  (forall k q, on_grid r c k q -> MR_STAR_target r c k q (B k q) a b) ->
  (forall k q, on_grid r c k q -> MR_STAR_target r c k q (A2 k q) b a) ->
  exists B' A2',
    returns r c (call r c 1 (fun k q => assign_MR_STAR (A k q)) B) (fun _ _ => tt) B' /\
    MR_STAR_represents r c B' h w b G /\
    returns r c (call r c 1 (fun k q => assign_MR_STAR (B' k q)) A2) (fun _ _ => tt) A2' /\
    MR_STAR_represents r c A2' h w a G /\
    same_entries r c A2' A.
Proof.
  intros Hrep HB HA2.
  destruct (assign_MR_STAR_world A B a b Hrep HB) as [B' [Hret1 Hrep1]].
  destruct (assign_MR_STAR_world B' A2 b a Hrep1 HA2) as [A2' [Hret2 Hrep2]].
  exists B', A2'.
  split; [exact Hret1|]. split; [exact Hrep1|]. split; [exact Hret2|].
  split; [exact Hrep2|].
  exact (represents_same_entries A2' A a Hrep2 Hrep).
Qed.

(** The sample objects hold the matrix they were built from. *)
Lemma sample_represents (a : Z) :
  0 <= h -> 0 <= w -> 0 <= a < c ->
  MR_STAR_represents r c (fun k q => sample (Grid.mk r c k q) h w a G) h w a G.
Proof.
  intros Hh Hw Ha k q Hkq.
  pose proof (LocalLength_nonneg h (Shift q a c) c) as Hlh.
  split.
  - unfold MR_STAR_wf, Matrix_wf, sample. cbn. repeat split; lia.
  - intros iLocal j Hi Hj.
    unfold LocalHeight, GetLocalEntry, Matrix_Get, ColShift, sample in *. cbn in *.
    set (lh := LocalLength h (Shift q a c) c) in *.
    assert (Hld : 0 < Z.max lh 1) by lia.
    rewrite Z_mod_plus_full, Z.mod_small by lia.
    rewrite Z_div_plus_full, Z.div_small by lia.
    reflexivity.
Qed.

Lemma sample_target (h' w' a b k q : Z) (G' : Z -> Z -> T) :
  0 <= b < c ->
  MR_STAR_target r c k q (sample (Grid.mk r c k q) h' w' b G') a b.
Proof. intros Hb. unfold MR_STAR_target, sample. cbn. repeat split; lia. Qed.


End Redistribution.

(** * Further properties of the code *)

(** ** Local and global indices *)

(** Local row [iLocal] exists exactly when its global row
    [shift + iLocal*stride] lies below the extent. *)
Lemma LocalLength_lt (n s c0 iLocal : Z) :
  0 < c0 -> 0 <= s < c0 -> 0 <= iLocal ->
  (iLocal < LocalLength n s c0 <-> s + iLocal * c0 < n).
Proof.
  intros Hc0 Hs Hi. unfold LocalLength.
  assert (Hq := Z.div_mod (n - s + c0 - 1) c0 ltac:(lia)).
  assert (Hm := Z.mod_pos_bound (n - s + c0 - 1) c0 Hc0).
  split; intros H; nia.
Qed.

(** The first local row at or after global row [i] is the global row
    [i + (s - i) mod stride]. *)
Lemma LocalLength_first (i s c0 : Z) :
  0 < c0 -> 0 <= s < c0 -> 0 <= i ->
  s + LocalLength i s c0 * c0 = i + (s - i) mod c0.
Proof.
  intros Hc0 Hs Hi.
  pose proof (LocalLength_nonneg i s c0) as HL.
  set (L := LocalLength i s c0) in *.
  assert (Hge : i <= s + L * c0).
  { destruct (Z.lt_ge_cases (s + L * c0) i) as [Hlt|]; [|assumption].
    apply (LocalLength_lt i s c0 L Hc0 Hs HL) in Hlt. fold L in Hlt. lia. }
  assert (Hlt : s + L * c0 - i < c0).
  { destruct (Z.eq_dec L 0) as [E|E]; [rewrite E; lia|].
    assert (H1 : L - 1 < LocalLength i s c0) by (fold L; lia).
    apply (LocalLength_lt i s c0 (L - 1) Hc0 Hs ltac:(lia)) in H1. lia. }
  assert (E : (s - i) mod c0 = s + L * c0 - i).
  { rewrite (mod_eq_by (s - i) (s + L * c0 - i) c0 (- L)) by lia.
    apply Z.mod_small. lia. }
  lia.
Qed.

(** The local rows of the global rows [i .. i+n-1] follow those of the
    rows [0 .. i-1]. *)
Lemma LocalLength_split (i n s c0 : Z) :
  0 < c0 -> 0 <= s < c0 -> 0 <= i -> 0 <= n ->
  LocalLength (i + n) s c0 = LocalLength i s c0 + LocalLength n ((s - i) mod c0) c0.
Proof.
  intros Hc0 Hs Hi Hn.
  pose proof (LocalLength_first i s c0 Hc0 Hs Hi) as Hfirst.
  pose proof (Z.mod_pos_bound (s - i) c0 Hc0) as Hs'.
  pose proof (LocalLength_nonneg i s c0) as HL.
  pose proof (LocalLength_nonneg n ((s - i) mod c0) c0) as HM.
  pose proof (LocalLength_nonneg (i + n) s c0) as HN.
  set (L := LocalLength i s c0) in *.
  set (M := LocalLength n ((s - i) mod c0) c0) in *.
  set (N := LocalLength (i + n) s c0) in *.
  assert (Hiff : forall x, 0 <= x -> (x < M <-> L + x < N)).
  { intros x Hx. unfold M, N.
    rewrite (LocalLength_lt n ((s - i) mod c0) c0 x Hc0 Hs' Hx).
    rewrite (LocalLength_lt (i + n) s c0 (L + x) Hc0 Hs ltac:(lia)). nia. }
  assert (HLN : L <= N).
  { destruct (Z.eq_dec L 0) as [E|E]; [lia|].
    assert (H1 : L - 1 < LocalLength i s c0) by (fold L; lia).
    apply (LocalLength_lt i s c0 (L - 1) Hc0 Hs ltac:(lia)) in H1.
    assert (H2 : L - 1 < N).
    { unfold N. apply (LocalLength_lt (i + n) s c0 (L - 1) Hc0 Hs ltac:(lia)). lia. }
    lia. }
  pose proof (Hiff (N - L) ltac:(lia)) as H1.
  pose proof (Hiff M HM) as H2.
  replace (L + (N - L)) with N in H1 by lia.
  lia.
Qed.

(** The shift of a sub-matrix that starts at global row [i]. *)
Lemma Shift_sub (q a i c0 : Z) :
  0 < c0 -> 0 <= a -> 0 <= i ->
  Shift q (Z.rem (a + i) c0) c0 = (Shift q a c0 - i) mod c0.
Proof.
  intros Hc0 Ha Hi. unfold Shift.
  rewrite Z.rem_mod_nonneg by lia.
  rewrite Zminus_mod_idemp_l.
  rewrite <- (Zplus_mod_idemp_l (q - (a + i) mod c0)), Zminus_mod_idemp_r, Zplus_mod_idemp_l.
  apply (mod_eq_by _ _ c0 0). lia.
Qed.

(** ** Views *)

Lemma LocalLength_mono (n n' s c0 : Z) :
  0 < c0 -> n <= n' -> LocalLength n s c0 <= LocalLength n' s c0.
Proof.
  intros Hc0 Hn. unfold LocalLength.
  apply Z.max_le_compat_l. apply Z.div_le_mono; lia.
Qed.

Lemma Grid_eqb_refl (g : Grid.t) : Grid.eqb g g = true.
Proof. unfold Grid.eqb. rewrite !Z.eqb_refl. reflexivity. Qed.

(** What one process holds after viewing the sub-matrix of [A] that starts
    at [(i,j)]: the local rows of [A] from [LocalLength i colShift c] on and
    its columns from [j] on, under the alignment [(a + i) mod c]. *)
Lemma view_of_submatrix (r c k q h w a i j height width : Z) (G : Z -> Z -> T)
    (A V' : DistMatrix) (locked : bool) :
  0 < c -> on_grid r c k q ->
  MR_STAR_wf r c k q A h w a ->
  (forall iLocal j, 0 <= iLocal < LocalHeight A -> 0 <= j < w ->
     GetLocalEntry A iLocal j = G (ColShift A + iLocal * c) j) ->
  0 <= i -> 0 <= j -> 0 <= height -> 0 <= width -> i + height <= h -> j + width <= w ->
  _grid V' = Grid.mk r c k q -> _height V' = height -> _width V' = width ->
  _colAlignment V' = Z.rem (a + i) c ->
  _colShift V' = Shift q (Z.rem (a + i) c) c ->
  _localMatrix V' =
    mkMatrix (LocalLength height (Shift q (Z.rem (a + i) c) c) c) width (m_ldim (_localMatrix A))
      (fun idx => m_data (_localMatrix A)
                    (idx + (LocalLength i (Shift q a c) c + j * m_ldim (_localMatrix A))))
      true locked ->
  MR_STAR_wf r c k q V' height width ((a + i) mod c) /\
  forall iLocal j', 0 <= iLocal < LocalHeight V' -> 0 <= j' < width ->
    GetLocalEntry V' iLocal j' = G (i + (ColShift V' + iLocal * c)) (j + j').
Proof.
  intros Hc Hkq Hwf Hent Hi Hj Hh Hw Hih Hjw HgV HhV HwV HaV HsV HmV.
  destruct Hwf as [HgA [HhA [HwA [Hh0 [Hw0 [HaA [Har [HsA [HmhA [HmwA [HldA Hld1]]]]]]]]]]].
  pose proof (Shift_range q a c Hc) as Hs.
  assert (Hrem : Z.rem (a + i) c = (a + i) mod c) by (apply Z.rem_mod_nonneg; lia).
  assert (Hs' : Shift q (Z.rem (a + i) c) c = (Shift q a c - i) mod c)
    by (apply Shift_sub; lia).
  pose proof (LocalLength_split i height (Shift q a c) c Hc Hs Hi Hh) as Hsplit.
  pose proof (LocalLength_first i (Shift q a c) c Hc Hs Hi) as Hfirst.
  pose proof (LocalLength_mono (i + height) h (Shift q a c) c Hc Hih) as Hmono.
  pose proof (LocalLength_nonneg i (Shift q a c) c) as HL0.
  rewrite <- Hs' in Hsplit, Hfirst.
  split.
  - unfold MR_STAR_wf, Matrix_wf. rewrite HgV, HhV, HwV, HaV, HsV, HmV, Hrem.
    cbn [m_height m_width m_ldim].
    pose proof (Z.mod_pos_bound (a + i) c Hc).
    rewrite <- Hrem. repeat split; try lia.
  - intros iLocal j' HiL Hj'.
    unfold GetLocalEntry, Matrix_Get, LocalHeight, ColShift in *.
    rewrite HmV in HiL |- *. cbn [m_height m_data m_ldim] in HiL |- *.
    rewrite HsV.
    set (ld := m_ldim (_localMatrix A)) in *.
    set (L := LocalLength i (Shift q a c) c) in *.
    replace (iLocal + j' * ld + (L + j * ld)) with ((L + iLocal) + (j + j') * ld) by lia.
    rewrite Hent by lia.
    rewrite HsA. f_equal. lia.
Qed.


Lemma ViewSub_prog (r c k q h w a i j height width : Z) (A V : DistMatrix) :
  0 < c -> on_grid r c k q ->
  MR_STAR_wf r c k q A h w a ->
  _grid V = Grid.mk r c k q ->
  (release = true \/
   _constrainedColAlignment V = false /\ Matrix_MemorySize (_localMatrix V) <= 0) ->
  0 <= i -> 0 <= j -> 0 <= height -> 0 <= width -> i + height <= h -> j + width <= w ->
  let a' := Z.rem (a + i) c in
  let lm := fun locked =>
    mkMatrix (LocalLength height (Shift q a' c) c) width (m_ldim (_localMatrix A))
      (fun idx => m_data (_localMatrix A)
                    (idx + (LocalLength i (Shift q a c) c + j * m_ldim (_localMatrix A))))
      true locked in
  let V' := fun locked =>
    mkDistMatrix true locked height width (lm locked)
      (_constrainedColAlignment V) (_constrainedRowAlignment V)
      a' (_rowAlignment V) (Shift q a' c) (_rowShift V) (Grid.mk r c k q) in
  ViewSub A i j height width V = Ret (Normal tt, V' false) /\
  LockedViewSub A i j height width V = Ret (Normal tt, V' true).
Proof.
  intros Hc Hkq Hwf HgV Hfree Hi Hj Hh Hw Hih Hjw a' lm V'. subst a' lm V'.
  destruct Hwf as [HgA [HhA [HwA [Hh0 [Hw0 [HaA [Har [HsA _]]]]]]]].
  assert (Hgrid : Grid.eqb (Grid.mk r c k q) (Grid.mk r c k q) = true) by apply Grid_eqb_refl.
  assert (Hneg1 : (i <? 0) || (j <? 0) = false).
  { destruct (Z.ltb_spec i 0), (Z.ltb_spec j 0); try lia; reflexivity. }
  assert (Hneg2 : (height <? 0) || (width <? 0) = false).
  { destruct (Z.ltb_spec height 0), (Z.ltb_spec width 0); try lia; reflexivity. }
  assert (Hfit : (i + height >? h) || (j + width >? w) = false).
  { rewrite !Z.gtb_ltb. destruct (Z.ltb_spec h (i + height)), (Z.ltb_spec w (j + width));
      try lia; reflexivity. }
  unfold ViewSub, LockedViewSub, debug.
  destruct release.
  - unfold_monad.
    unfold ColAlignment, ColShift, LocalMatrix, LockedLocalMatrix, Matrix_View,
      Matrix_LockedView, set_view, set_localMatrix, set_colAlignment, set_size.
    cbn. rewrite HgV, HaA, HsA. cbn. split; reflexivity.
  - destruct Hfree as [Hrel | [Hfree Hmem]]; [discriminate|].
    assert (Hmem' : (0 <? Matrix_MemorySize (_localMatrix V)) = false)
      by (apply Z.ltb_ge; exact Hmem).
    unfold_monad.
    unfold ColAlignment, ColShift, LocalMatrix, LockedLocalMatrix, Matrix_View,
      Matrix_LockedView, set_view, set_localMatrix, set_colAlignment, set_size,
      Height, Width.
    repeat (progress (cbn; rewrite ?Hfree, ?Hmem', ?HgV, ?HgA, ?Hgrid, ?HhA, ?HwA,
                        ?Hneg1, ?Hneg2, ?Hfit, ?HaA, ?HsA)).
    split; reflexivity.
Qed.

(** X1. [View( A, i, j, height, width )] and its locked variant, called on
    every process with objects that hold no data and whose alignment is
    free (or in a release build), return normally without communication
    and leave views that together hold the sub-matrix of [A] starting at
    [(i,j)]: shape [height x width], column alignment [(a + i) mod c], and
    entry [(i',j')] equal to entry [(i + i', j + j')] of [A]. *)
Theorem ViewSub_represents (r c : Z) (A V : World DistMatrix) (h w a : Z)
    (G : Z -> Z -> T) (i j height width : Z) :
  0 < r -> 0 < c ->
  MR_STAR_represents r c A h w a G ->
  (forall k q, on_grid r c k q ->
     _grid (V k q) = Grid.mk r c k q /\
     (release = true \/
      _constrainedColAlignment (V k q) = false /\
      Matrix_MemorySize (_localMatrix (V k q)) <= 0)) ->
  0 <= i -> 0 <= j -> 0 <= height -> 0 <= width -> i + height <= h -> j + width <= w ->
  let sub := fun i' j' => G (i + i') (j + j') in
  exists V1 V2,
    returns r c (call r c 0 (fun k q => ViewSub (A k q) i j height width) V)
            (fun _ _ => tt) V1 /\
    returns r c (call r c 0 (fun k q => LockedViewSub (A k q) i j height width) V)
            (fun _ _ => tt) V2 /\
    MR_STAR_represents r c V1 height width ((a + i) mod c) sub /\
    MR_STAR_represents r c V2 height width ((a + i) mod c) sub /\
    forall k q, on_grid r c k q ->
      Viewing (V1 k q) = true /\ _lockedView (V1 k q) = false /\
      m_lockedView (_localMatrix (V1 k q)) = false /\
      Viewing (V2 k q) = true /\ _lockedView (V2 k q) = true /\
      m_lockedView (_localMatrix (V2 k q)) = true.
Proof.
  intros Hr Hc Hrep HV Hi Hj Hh Hw Hih Hjw sub.
  assert (Hprog : forall k q, on_grid r c k q -> _) by
    (intros k q Hkq; destruct (Hrep k q Hkq) as [Hwf _]; destruct (HV k q Hkq) as [HgV Hfree];
     exact (ViewSub_prog r c k q h w a i j height width (A k q) (V k q)
              Hc Hkq Hwf HgV Hfree Hi Hj Hh Hw Hih Hjw)).
  cbv zeta in Hprog.
  match type of Hprog with
  | forall k q, _ -> _ = Ret (Normal tt, ?v1) /\ _ = Ret (Normal tt, ?v2) =>
      exists (fun k q => v1), (fun k q => v2)
  end.
  assert (Hview : forall locked k q, on_grid r c k q -> _) by
    (intros locked k q Hkq; destruct (Hrep k q Hkq) as [Hwf Hent];
     exact (fun V' => view_of_submatrix r c k q h w a i j height width G (A k q) V' locked
              Hc Hkq Hwf Hent Hi Hj Hh Hw Hih Hjw)).
  split; [|split; [|split; [|split]]].
  - exists (fun k q => ViewSub (A k q) i j height width (V k q)). split.
    + apply run_finished. intros k q Hkq. destruct (Hprog k q Hkq) as [-> _]. reflexivity.
    + intros k q Hkq. destruct (Hprog k q Hkq) as [-> _]. reflexivity.
  - exists (fun k q => LockedViewSub (A k q) i j height width (V k q)). split.
    + apply run_finished. intros k q Hkq. destruct (Hprog k q Hkq) as [_ ->]. reflexivity.
    + intros k q Hkq. destruct (Hprog k q Hkq) as [_ ->]. reflexivity.
  - intros k q Hkq. apply (Hview false k q Hkq); reflexivity.
  - intros k q Hkq. apply (Hview true k q Hkq); reflexivity.
  - intros k q Hkq. repeat split.
Qed.

(** X2. Viewing a whole matrix is viewing the sub-matrix that covers it:
    on a well-formed [MR,* ] matrix [A] of shape [h x w], [View( A )] is
    [View( A, 0, 0, h, w )], and likewise for the locked views.  The view
    has the shape, the alignment and every local entry of [A], and it
    issues no collective. *)
Theorem View_whole (r c k q h w a : Z) (A V : DistMatrix) :
  0 < c -> on_grid r c k q ->
  MR_STAR_wf r c k q A h w a ->
  _grid V = Grid.mk r c k q ->
  release = true \/
  _constrainedColAlignment V = false /\ Matrix_MemorySize (_localMatrix V) <= 0 ->
  View A V = ViewSub A 0 0 h w V /\
  LockedView A V = LockedViewSub A 0 0 h w V /\
  exists V1 V2,
    View A V = Ret (Normal tt, V1) /\ LockedView A V = Ret (Normal tt, V2) /\
    Viewing V1 = true /\ _lockedView V1 = false /\
    Viewing V2 = true /\ _lockedView V2 = true /\
    Height V1 = h /\ Width V1 = w /\ ColAlignment V1 = a /\ ColShift V1 = ColShift A /\
    Height V2 = h /\ Width V2 = w /\ ColAlignment V2 = a /\ ColShift V2 = ColShift A /\
    LocalHeight V1 = LocalHeight A /\ LocalWidth V1 = LocalWidth A /\
    LocalHeight V2 = LocalHeight A /\ LocalWidth V2 = LocalWidth A /\
    forall iLocal j,
      GetLocalEntry V1 iLocal j = GetLocalEntry A iLocal j /\
      GetLocalEntry V2 iLocal j = GetLocalEntry A iLocal j.
Proof.
  intros Hc Hkq Hwf HgV Hfree.
  destruct (ViewSub_prog r c k q h w a 0 0 h w A V Hc Hkq Hwf HgV Hfree)
    as [HV1 HV2]; try lia;
    try (destruct Hwf as [_ [_ [_ [Hh0 [Hw0 _]]]]]; lia).
  cbv zeta in HV1, HV2.
  destruct Hwf as [HgA [HhA [HwA [Hh0 [Hw0 [HaA [Har [HsA [HmhA [HmwA _]]]]]]]]]].
  pose proof (Shift_range q a c Hc) as Hs.
  assert (Hrem : Z.rem (a + 0) c = a).
  { rewrite Z.add_0_r, Z.rem_mod_nonneg by lia. apply Z.mod_small. lia. }
  assert (HL0 : LocalLength 0 (Shift q a c) c = 0)
    by (apply LocalLength_zero_extent; lia).
  rewrite Hrem, HL0 in HV1, HV2.
  assert (E1 : View A V = ViewSub A 0 0 h w V /\ LockedView A V = LockedViewSub A 0 0 h w V).
  { rewrite HV1, HV2. unfold View, LockedView, debug.
    assert (Hgrid : Grid.eqb (Grid.mk r c k q) (Grid.mk r c k q) = true)
      by apply Grid_eqb_refl.
    destruct release.
    - unfold_monad.
      unfold ColAlignment, ColShift, LocalMatrix, LockedLocalMatrix, Matrix_View,
        Matrix_LockedView, set_view, set_localMatrix, set_colAlignment, set_size,
        Height, Width, LocalHeight, LocalWidth.
      cbn. rewrite HgV, HaA, HsA, HhA, HwA, HmhA, HmwA. cbn. split; reflexivity.
    - destruct Hfree as [Hrel | [Hfree Hmem]]; [discriminate|].
      assert (Hmem' : (0 <? Matrix_MemorySize (_localMatrix V)) = false)
        by (apply Z.ltb_ge; exact Hmem).
      unfold_monad.
      unfold ColAlignment, ColShift, LocalMatrix, LockedLocalMatrix, Matrix_View,
        Matrix_LockedView, set_view, set_localMatrix, set_colAlignment, set_size,
        Height, Width, LocalHeight, LocalWidth.
      repeat (progress (cbn; rewrite ?Hfree, ?Hmem', ?HgV, ?HgA, ?Hgrid, ?HhA, ?HwA,
                          ?HaA, ?HsA, ?HmhA, ?HmwA)).
      split; reflexivity. }
  destruct E1 as [E1 E2].
  split; [exact E1|]. split; [exact E2|].
  rewrite E1, E2, HV1, HV2.
  eexists. eexists. split; [reflexivity|]. split; [reflexivity|].
  unfold Viewing, Height, Width, ColAlignment, ColShift, LocalHeight, LocalWidth,
    GetLocalEntry, Matrix_Get.
  cbn. rewrite HsA, HmhA, HmwA.
  repeat split; try reflexivity;
    f_equal; lia.
Qed.

(** ** Entrywise writes, seen from the whole grid *)

(** The grid column that owns a local row. *)
Lemma owner_of_local (q a c0 iLocal : Z) :
  0 < c0 -> 0 <= q < c0 -> (Shift q a c0 + iLocal * c0 + a) mod c0 = q.
Proof.
  intros Hc0 Hq. unfold Shift.
  pose proof (Z.div_mod (q - a + c0) c0 ltac:(lia)) as Hdm.
  rewrite (mod_eq_by _ q c0 (iLocal + 1 - (q - a + c0) / c0)) by lia.
  apply Z.mod_small. exact Hq.
Qed.

(** The program of [Set] and [Update] on one process of a well-formed
    matrix. *)
Lemma Set_Update_prog (r c k q h w a i j : Z) (u : T) (this : DistMatrix) :
  0 < c -> MR_STAR_wf r c k q this h w a ->
  m_lockedView (_localMatrix this) = false ->
  0 <= i < h -> 0 <= j < w ->
  let ld := m_ldim (_localMatrix this) in
  let idx := (i - Shift q a c) / c + j * ld in
  let write := fun v =>
    if q =? (i + a) mod c
    then set_localMatrix this
           (Matrix_with_data (_localMatrix this) (upd (m_data (_localMatrix this)) idx v))
    else this in
  Set_ i j u this = Ret (Normal tt, write u) /\
  Update i j u this = Ret (Normal tt, write (addT (m_data (_localMatrix this) idx) u)).
Proof.
  intros Hc Hwf Hlock Hi Hj ld idx write. subst ld idx write.
  destruct Hwf as [Hg [Hh [Hw [Hh0 [Hw0 [Ha [Har [Hs _]]]]]]]].
  assert (Hrem : Z.rem (i + a) c = (i + a) mod c) by (apply Z.rem_mod_nonneg; lia).
  assert (Hvalid : (i <? 0) || (i >=? h) || (j <? 0) || (j >=? w) = false).
  { rewrite !Z.geb_leb.
    destruct (Z.ltb_spec i 0), (Z.leb_spec h i), (Z.ltb_spec j 0), (Z.leb_spec w j);
      try lia; reflexivity. }
  unfold Set_, Update, SetLocalEntry, UpdateLocalEntry, debug.
  destruct release; unfold_monad; unfold Matrix_Set, Matrix_Update, Height, Width,
      ColAlignment, ColShift;
    repeat (progress (cbn; rewrite ?Hh, ?Hw, ?Hvalid, ?Hg, ?Ha, ?Hs; cbn; rewrite ?Hrem));
    destruct (Z.eqb_spec q ((i + a) mod c)) as [Hown|Hnot]; cbn; rewrite ?Hlock;
    try (split; reflexivity).
  all: assert (Hsh : Shift q a c = i mod c) by (rewrite Hown; apply owner_shift; exact Hc).
  all: destruct (local_index i h (Shift q a c) c Hc Hi Hsh) as [_ [_ ->]].
  all: split; reflexivity.
Qed.

(** X3. On a grid whose [MR,* ] objects hold the matrix [G], [Set(i,j,u)]
    and [Update(i,j,u)], called on every process, return without
    communication and leave objects that hold [G] with entry [(i,j)]
    replaced by [u], respectively by [G i j + u]: every replica of the
    entry is written and no other entry changes. *)
Theorem Set_Update_represents (r c : Z) (d : World DistMatrix) (h w a : Z)
    (G : Z -> Z -> T) (i j : Z) (u : T) :
  0 < r -> 0 < c ->
  MR_STAR_represents r c d h w a G ->
  (forall k q, on_grid r c k q -> m_lockedView (_localMatrix (d k q)) = false) ->
  0 <= i < h -> 0 <= j < w ->
  let put := fun v i' j' => if (i' =? i) && (j' =? j) then v else G i' j' in
  exists d1 d2,
    returns r c (call r c 0 (fun _ _ => Set_ i j u) d) (fun _ _ => tt) d1 /\
    returns r c (call r c 0 (fun _ _ => Update i j u) d) (fun _ _ => tt) d2 /\
    MR_STAR_represents r c d1 h w a (put u) /\
    MR_STAR_represents r c d2 h w a (put (addT (G i j) u)).
Proof.
  intros Hr Hc Hrep Hlock Hi Hj put.
  assert (Hprog : forall k q, on_grid r c k q -> _) by
    (intros k q Hkq; destruct (Hrep k q Hkq) as [Hwf _];
     exact (Set_Update_prog r c k q h w a i j u (d k q) Hc Hwf (Hlock k q Hkq) Hi Hj)).
  cbv zeta in Hprog.
  assert (Hput : forall v k q, on_grid r c k q ->
    let this := d k q in
    let idx := (i - Shift q a c) / c + j * m_ldim (_localMatrix this) in
    let this' :=
      if q =? (i + a) mod c
      then set_localMatrix this
             (Matrix_with_data (_localMatrix this) (upd (m_data (_localMatrix this)) idx v))
      else this in
    MR_STAR_wf r c k q this' h w a /\
    forall iLocal j', 0 <= iLocal < LocalHeight this' -> 0 <= j' < w ->
      GetLocalEntry this' iLocal j' = put v (ColShift this' + iLocal * c) j').
  { intros v k q Hkq this idx this'. subst this idx this'.
    destruct (Hrep k q Hkq) as [Hwf Hent].
    pose proof (Shift_range q a c Hc) as Hs.
    destruct (Z.eqb_spec q ((i + a) mod c)) as [Hown|Hnot].
    - assert (Hsh : Shift q a c = i mod c) by (rewrite Hown; apply owner_shift; exact Hc).
      destruct (local_index i h (Shift q a c) c Hc Hi Hsh) as [Hloc [Hglob _]].
      destruct Hwf as [Hg [Hh [Hw [Hh0 [Hw0 [Ha [Har [HsA [Hmh [Hmw [Hld Hld1]]]]]]]]]]].
      split.
      + unfold MR_STAR_wf, Matrix_wf. cbn. repeat split; assumption || lia.
      + unfold GetLocalEntry, Matrix_Get, LocalHeight, ColShift, upd in *. cbn.
        intros iLocal j' HiL Hj'. rewrite HsA. unfold put.
        rewrite Hmh in HiL.
        destruct (global_index iLocal h (Shift q a c) c Hc Hs HiL) as [Hrow [_ Hback]].
        destruct (Z.eqb_spec (iLocal + j' * m_ldim (_localMatrix (d k q)))
                    ((i - Shift q a c) / c + j * m_ldim (_localMatrix (d k q)))) as [E|E].
        * destruct (panel_index_inj iLocal j' ((i - Shift q a c) / c) j
                      (m_ldim (_localMatrix (d k q)))) as [E1 E2]; [lia | lia | exact E |].
          subst iLocal j'. rewrite Hglob, !Z.eqb_refl. reflexivity.
        * destruct (Z.eqb_spec (Shift q a c + iLocal * c) i) as [E1|E1];
            destruct (Z.eqb_spec j' j) as [E2|E2]; cbn [andb];
            try (rewrite Hent by (rewrite ?Hmh; lia); rewrite HsA; reflexivity).
          exfalso. apply E. subst j'. f_equal. rewrite <- E1, Hback. reflexivity.
    - split; [exact Hwf|]. intros iLocal j' HiL Hj'. rewrite Hent by assumption.
      unfold put.
      destruct (Z.eqb_spec (ColShift (d k q) + iLocal * c) i) as [E1|E1]; [|reflexivity].
      exfalso. apply Hnot.
      destruct Hwf as [_ [_ [_ [_ [_ [_ [Har [HsA _]]]]]]]].
      unfold ColShift in E1. rewrite HsA in E1. rewrite <- E1.
      symmetry. apply owner_of_local; [exact Hc | destruct Hkq; lia]. }
  match type of Hprog with
  | forall k q, _ -> _ = Ret (Normal tt, ?v1) /\ _ = Ret (Normal tt, ?v2) =>
      exists (fun k q => v1), (fun k q => v2)
  end.
  split; [|split; [|split]].
  - exists (fun k q => Set_ i j u (d k q)). split.
    + apply run_finished. intros k q Hkq. destruct (Hprog k q Hkq) as [-> _]. reflexivity.
    + intros k q Hkq. destruct (Hprog k q Hkq) as [-> _]. reflexivity.
  - exists (fun k q => Update i j u (d k q)). split.
    + apply run_finished. intros k q Hkq. destruct (Hprog k q Hkq) as [_ ->]. reflexivity.
    + intros k q Hkq. destruct (Hprog k q Hkq) as [_ ->]. reflexivity.
  - intros k q Hkq. exact (Hput u k q Hkq).
  - intros k q Hkq. cbv beta.
    pose proof (Hput (addT (G i j) u) k q Hkq) as H. cbv zeta in H. revert H.
    destruct (Z.eqb_spec q ((i + a) mod c)) as [Hown|Hnot]; intros H; [|exact H].
    assert (Hsh : Shift q a c = i mod c) by (rewrite Hown; apply owner_shift; exact Hc).
    destruct (local_index i h (Shift q a c) c Hc Hi Hsh) as [Hloc [Hglob _]].
    destruct (Hrep k q Hkq) as [Hwf Hent].
    destruct (represents_dims r c h w G d a k q Hrep Hkq)
      as [_ [_ [_ [_ [_ [_ [_ [HsA [HlhA _]]]]]]]]].
    assert (Hold : m_data (_localMatrix (d k q))
                     ((i - Shift q a c) / c + j * m_ldim (_localMatrix (d k q))) = G i j).
    { unfold GetLocalEntry, Matrix_Get in Hent. rewrite Hent by (rewrite ?HlhA; lia).
      rewrite HsA, Hglob. reflexivity. }
    rewrite Hold. exact H.
Qed.

(** ** Bulk local transforms *)

(** A loop whose iterations each rewrite the buffer pointwise, iteration
    [j] touching only the indices of its own column. *)
Lemma pointwise_columns (n : nat) (body : Z -> Buffer -> Buffer) (F : Z -> Z -> T -> T)
    (init : Buffer) (idx j : Z) :
  (forall j' b, 0 <= j' < Z.of_nat n -> body j' b idx = F j' idx (b idx)) ->
  0 <= j < Z.of_nat n ->
  (forall j' x, 0 <= j' < Z.of_nat n -> j' <> j -> F j' idx x = x) ->
  for_loop n body init idx = F j idx (init idx).
Proof.
  induction n as [|n IH]; intros Hbody Hj Hframe; [lia|].
  cbn [for_loop]. rewrite Hbody by lia.
  assert (Hskip : forall m : nat, (Z.of_nat m <= j) -> (m <= S n)%nat ->
            for_loop m body init idx = init idx).
  { induction m as [|m IHm]; intros Hm Hle; [reflexivity|].
    cbn [for_loop]. rewrite Hbody by lia. rewrite Hframe by lia. apply IHm; lia. }
  destruct (Z.eq_dec (Z.of_nat n) j) as [E|E].
  - rewrite E. f_equal. apply Hskip; lia.
  - rewrite Hframe by lia. apply IH; [intros; apply Hbody | | intros; apply Hframe]; lia.
Qed.

(** [for( iLocal=0; iLocal<n; ++iLocal ) col[iLocal] *= alpha] *)
Lemma scale_run (mulT : T -> T -> T) (alpha : T) (off : Z) (n : nat) (b : Buffer) (idx : Z) :
  for_loop n (fun iLocal tb => upd tb (off + iLocal) (mulT (tb (off + iLocal)) alpha)) b idx =
  if in_range off (off + Z.of_nat n) idx then mulT (b idx) alpha else b idx.
Proof.
  revert idx. induction n as [|n IH]; intros idx.
  - cbn [for_loop]. unfold in_range.
    destruct (Z.leb_spec off idx), (Z.ltb_spec idx (off + Z.of_nat 0)); cbn; try reflexivity; lia.
  - cbn [for_loop]. unfold upd at 1. rewrite !IH. unfold in_range.
    destruct (Z.eqb_spec idx (off + Z.of_nat n)) as [E|E].
    + subst idx.
      destruct (Z.leb_spec off (off + Z.of_nat n)),
        (Z.ltb_spec (off + Z.of_nat n) (off + Z.of_nat n)),
        (Z.ltb_spec (off + Z.of_nat n) (off + Z.of_nat (S n))); cbn; try reflexivity; lia.
    + destruct (Z.leb_spec off idx), (Z.ltb_spec idx (off + Z.of_nat n)),
        (Z.ltb_spec idx (off + Z.of_nat (S n))); cbn; try reflexivity; lia.
Qed.

Lemma pointwise_columns_at (n : nat) (body : Z -> Buffer -> Buffer)
    (init : Buffer) (idx j : Z) :
  (forall j' b, 0 <= j' < Z.of_nat n -> body j' b idx = body j' (fun _ => b idx) idx) ->
  0 <= j < Z.of_nat n ->
  (forall j' x, 0 <= j' < Z.of_nat n -> j' <> j -> body j' (fun _ => x) idx = x) ->
  for_loop n body init idx = body j (fun _ => init idx) idx.
Proof.
  intros Hbody Hj Hframe.
  apply (pointwise_columns n body (fun j' idx' x => body j' (fun _ => x) idx') init idx j);
    assumption.
Qed.

(** An entry of column [j] of a panel lies outside the rows [lo .. lo+n-1]
    of any other column. *)
Lemma column_outside (ld lh i j j' lo n : Z) :
  0 <= i < lh -> lh <= ld -> j' <> j -> 0 <= lo -> lo + n <= lh ->
  ~ (lo + j' * ld <= i + j * ld < lo + j' * ld + n).
Proof. intros Hi Hld Hne Hlo Hn. nia. Qed.

Lemma in_range_iff (lo hi x : Z) : in_range lo hi x = true <-> lo <= x < hi.
Proof.
  unfold in_range. rewrite andb_true_iff, Z.leb_le, Z.ltb_lt. reflexivity.
Qed.

Lemma in_range_false (lo hi x : Z) : ~ (lo <= x < hi) -> in_range lo hi x = false.
Proof.
  intros H. destruct (in_range lo hi x) eqn:E; [|reflexivity].
  apply in_range_iff in E. contradiction.
Qed.

(** The objects of a grid after a member function that only rewrites the
    local buffers. *)
Lemma rewritten_represents (r c h w a : Z) (G G' : Z -> Z -> T) (d : World DistMatrix)
    (m : Method unit) :
  MR_STAR_represents r c d h w a G ->
  (forall k q, on_grid r c k q ->
     exists b,
       m (d k q) = Ret (Normal tt,
                        set_localMatrix (d k q) (Matrix_with_data (_localMatrix (d k q)) b)) /\
       forall iLocal j,
         0 <= iLocal < LocalLength h (Shift q a c) c -> 0 <= j < w ->
         b (iLocal + j * m_ldim (_localMatrix (d k q))) = G' (Shift q a c + iLocal * c) j) ->
  exists d',
    returns r c (call r c 0 (fun _ _ => m) d) (fun _ _ => tt) d' /\
    MR_STAR_represents r c d' h w a G'.
Proof.
  intros Hrep Hprog.
  exists (fun k q => match m (d k q) with Ret (_, d') => d' | _ => d k q end).
  split.
  - exists (fun k q => m (d k q)). split.
    + apply run_finished. intros k q Hkq. destruct (Hprog k q Hkq) as [b [-> _]]. reflexivity.
    + intros k q Hkq. destruct (Hprog k q Hkq) as [b [-> _]]. reflexivity.
  - intros k q Hkq. destruct (Hprog k q Hkq) as [b [-> Hb]].
    destruct (Hrep k q Hkq) as [Hwf _].
    destruct Hwf as [Hg [Hh [Hw [Hh0 [Hw0 [Ha [Har [HsA [Hmh [Hmw [Hld Hld1]]]]]]]]]]].
    split.
    + unfold MR_STAR_wf, Matrix_wf. cbn. repeat split; assumption || lia.
    + unfold GetLocalEntry, Matrix_Get, LocalHeight, ColShift. cbn.
      intros iLocal j HiL Hj. rewrite HsA. apply Hb; [lia | exact Hj].
Qed.

(** Case analysis on the integer comparisons of the goal. *)
Ltac bool_cases :=
  repeat match goal with
         | |- context [?a >=? ?b] => rewrite (Z.geb_leb a b)
         | |- context [?a >? ?b] => rewrite (Z.gtb_ltb a b)
         end;
  repeat match goal with
         | |- context [?a <=? ?b] => destruct (Z.leb_spec a b)
         | |- context [?a <? ?b] => destruct (Z.ltb_spec a b)
         | |- context [?a =? ?b] => destruct (Z.eqb_spec a b)
         end;
  cbn [andb orb negb].

(** What is known of the local lengths that occur in the goal. *)
Ltac local_length_facts iLocal Hc Hs :=
  repeat match goal with
         | |- context [LocalLength ?n ?s ?c] =>
             lazymatch goal with
             | _ : 0 <= LocalLength n s c |- _ => fail
             | _ => pose proof (LocalLength_nonneg n s c);
                    pose proof (LocalLength_lt n s c iLocal Hc Hs)
             end
         end.

(** X4. [MakeTrapezoidal( side, shape, offset )], called on every process
    of a grid whose [MR,* ] objects hold [G], returns without
    communication and leaves objects that hold [G] restricted to the
    trapezoid: an entry [(i,j)] is kept when it lies on or below
    ([LOWER]), respectively on or above ([UPPER]), the diagonal
    [i = j - offset] ([LEFT]) or [i = j - offset + h - w] ([RIGHT]),
    and is zero otherwise. *)
Theorem MakeTrapezoidal_represents (zeroT : T) (r c : Z) (d : World DistMatrix) (h w a : Z)
    (G : Z -> Z -> T) (side : Side) (shape : Shape) (offset : Z) :
  0 < r -> 0 < c ->
  MR_STAR_represents r c d h w a G ->
  (forall k q, on_grid r c k q -> _lockedView (d k q) = false) ->
  exists d',
    returns r c (call r c 0 (fun _ _ => MakeTrapezoidal zeroT side shape offset) d)
            (fun _ _ => tt) d' /\
    MR_STAR_represents r c d' h w a
      (fun i j => if in_trapezoid side shape offset h w i j then G i j else zeroT).
Proof.
  intros Hr Hc Hrep Hlock.
  destruct shape, side;
  apply (rewritten_represents r c h w a G _ d _ Hrep);
  intros k q Hkq; (eexists; split;
  [ unfold MakeTrapezoidal, debug;
    destruct release; unfold_monad; cbn;
      rewrite ?(Hlock k q Hkq), ?andb_false_r; cbn; reflexivity
  | intros iLocal j HiL Hj ]).
  all: destruct (represents_dims r c h w G d a k q Hrep Hkq)
         as [Hh0 [Hw0 [Har [Hg [HH [HW [HA [HS [HLH [HLW [HLD HLD1]]]]]]]]]]].
  all: destruct (Hrep k q Hkq) as [_ Hent].
  all: pose proof (Shift_range q a c Hc) as Hs.
  all: destruct (global_index iLocal h (Shift q a c) c Hc Hs HiL) as [Hrow _].
  all: unfold Height, Width, ColShift, LocalHeight, LocalWidth, LocalLDim, LocalBuffer,
         GetLocalEntry, Matrix_Get, RawLocalLength in *.
  all: rewrite ?HH, ?HW, ?HS, ?HLH, ?Hg; cbn [Grid.Width].
  all: rewrite (pointwise_columns_at (Z.to_nat w) _ _ _ j); [| | lia |].
  all: cbv beta.
  all: try (intros j' b _; unfold memset;
            match goal with |- (if ?c then _ else _) _ = _ => destruct c end; reflexivity).
  all: try (intros j' x Hj' Hne; unfold memset;
            match goal with |- (if ?c then _ else _) _ = _ => destruct c eqn:Ec end;
            [|reflexivity]; rewrite in_range_false; [reflexivity|];
            local_length_facts iLocal Hc Hs; intros Hin;
            try (apply Z.ltb_lt in Ec);
            pose proof (LocalLength_mono (Z.min (j' - offset - 1 + 1) h) h (Shift q a c) c Hc
                          ltac:(lia));
            pose proof (LocalLength_mono (Z.min (j' - offset + h - w - 1 + 1) h) h
                          (Shift q a c) c Hc ltac:(lia));
            nia).
  all: rewrite (Hent iLocal j) by lia; rewrite HS.
  all: unfold memset, in_range, in_trapezoid.
  all: local_length_facts iLocal Hc Hs.
  all: bool_cases; try reflexivity; exfalso; lia.
Qed.

(** X5. [ScaleTrapezoidal( alpha, side, shape, offset )] multiplies by
    [alpha] exactly the entries that [MakeTrapezoidal] keeps for the same
    arguments, and leaves the other entries as they are; it issues no
    collective. *)
Theorem ScaleTrapezoidal_represents (mulT : T -> T -> T) (alpha : T) (r c : Z)
    (d : World DistMatrix) (h w a : Z)
    (G : Z -> Z -> T) (side : Side) (shape : Shape) (offset : Z) :
  0 < r -> 0 < c ->
  MR_STAR_represents r c d h w a G ->
  (forall k q, on_grid r c k q -> _lockedView (d k q) = false) ->
  exists d',
    returns r c (call r c 0 (fun _ _ => ScaleTrapezoidal mulT alpha side shape offset) d)
            (fun _ _ => tt) d' /\
    MR_STAR_represents r c d' h w a
      (fun i j => if in_trapezoid side shape offset h w i j
                  then mulT (G i j) alpha else G i j).
Proof.
  intros Hr Hc Hrep Hlock.
  destruct shape, side;
  apply (rewritten_represents r c h w a G _ d _ Hrep);
  intros k q Hkq; (eexists; split;
  [ unfold ScaleTrapezoidal, debug;
    destruct release; unfold_monad; cbn;
      rewrite ?(Hlock k q Hkq), ?andb_false_r; cbn; reflexivity
  | intros iLocal j HiL Hj ]).
  all: destruct (represents_dims r c h w G d a k q Hrep Hkq)
         as [Hh0 [Hw0 [Har [Hg [HH [HW [HA [HS [HLH [HLW [HLD HLD1]]]]]]]]]]].
  all: destruct (Hrep k q Hkq) as [_ Hent].
  all: pose proof (Shift_range q a c Hc) as Hs.
  all: destruct (global_index iLocal h (Shift q a c) c Hc Hs HiL) as [Hrow _].
  all: unfold Height, Width, ColShift, LocalHeight, LocalWidth, LocalLDim, LocalBuffer,
         GetLocalEntry, Matrix_Get, RawLocalLength in *.
  all: rewrite ?HH, ?HW, ?HS, ?HLH, ?Hg; cbn [Grid.Width].
  all: rewrite (pointwise_columns_at (Z.to_nat w) _ _ _ j); [| | lia |].
  all: cbv beta.
  all: try (intros j' b _; rewrite !scale_run; reflexivity).
  all: try (intros j' x Hj' Hne; rewrite scale_run; rewrite in_range_false; [reflexivity|];
            local_length_facts iLocal Hc Hs; intros Hin;
            pose proof (LocalLength_mono (Z.min (j' - offset + 1) h) h (Shift q a c) c Hc
                          ltac:(lia));
            pose proof (LocalLength_mono (Z.min (j' - offset + h - w + 1) h) h
                          (Shift q a c) c Hc ltac:(lia));
            nia).
  all: rewrite scale_run.
  all: rewrite (Hent iLocal j) by lia; rewrite HS.
  all: unfold in_range, in_trapezoid.
  all: local_length_facts iLocal Hc Hs.
  all: bool_cases; try reflexivity; exfalso; lia.
Qed.

(** X6. [SetToIdentity()], called on every process of a grid of
    [MR,* ] objects of shape [h x w] that are not locked, returns without
    communication and leaves objects that hold the [h x w] identity:
    entry [(i,j)] is 1 when [i = j] and 0 otherwise. *)
Theorem SetToIdentity_represents (zeroT oneT : T) (r c : Z)
    (d : World DistMatrix) (h w a : Z) (G : Z -> Z -> T) :
  0 < r -> 0 < c ->
  MR_STAR_represents r c d h w a G ->
  (forall k q, on_grid r c k q ->
     _lockedView (d k q) = false /\ m_lockedView (_localMatrix (d k q)) = false) ->
  exists d',
    returns r c (call r c 0 (fun _ _ => SetToIdentity zeroT oneT) d) (fun _ _ => tt) d' /\
    MR_STAR_represents r c d' h w a (fun i j => if i =? j then oneT else zeroT).
Proof.
  intros Hr Hc Hrep Hlock.
  apply (rewritten_represents r c h w a G _ d _ Hrep).
  intros k q Hkq. destruct (Hlock k q Hkq) as [Hl Hml]. eexists. split.
  - unfold SetToIdentity, SetToZero, debug.
    destruct release; unfold_monad; unfold Matrix_SetToZero; cbn;
      rewrite ?Hl, ?Hml, ?andb_false_r; cbn; rewrite ?Hml; cbn; reflexivity.
  - intros iLocal j HiL Hj.
    destruct (represents_dims r c h w G d a k q Hrep Hkq)
      as [Hh0 [Hw0 [Har [Hg [HH [HW [HA [HS [HLH [HLW [HLD HLD1]]]]]]]]]]].
    pose proof (Shift_range q a c Hc) as Hs.
    destruct (global_index iLocal h (Shift q a c) c Hc Hs HiL) as [Hrow _].
    unfold Height, Width, ColShift, LocalHeight, LocalWidth, LocalLDim, LocalBuffer in *.
    cbn [_localMatrix set_localMatrix Matrix_with_data m_ldim m_height m_width m_data
         _width _colShift _grid].
    rewrite ?HH, ?HW, ?HS, ?HLH, ?HLW, ?Hg. cbn [Grid.Width].
    set (ld := m_ldim (_localMatrix (d k q))) in *.
    set (lh := LocalLength h (Shift q a c) c) in *.
    rewrite (pointwise_columns_at (Z.to_nat lh) _ _ _ iLocal); [| | lia |]; cbv beta.
    + rewrite (pointwise_columns_at (Z.to_nat w) _ _ _ j); [| | lia |]; cbv beta.
      * unfold upd, memset. rewrite (in_range_true (j * ld) (j * ld + lh)) by lia.
        bool_cases; try reflexivity; exfalso; nia.
      * intros j' b _. reflexivity.
      * intros j' x Hj' Hne. unfold memset. rewrite in_range_false; [reflexivity|]. nia.
    + intros i' b _. destruct (_ <? _); reflexivity.
    + intros i' x Hi' Hne. destruct (_ <? _); [|reflexivity].
      unfold upd. destruct (Z.eqb_spec (iLocal + j * ld) (i' + (Shift q a c + i' * c) * ld))
        as [E|E]; [|reflexivity].
      exfalso. apply Hne.
      destruct (panel_index_inj iLocal j i' (Shift q a c + i' * c) ld) as [E1 _];
        [lia | lia | exact E | congruence].
Qed.

(** ** Rounds of collectives *)

Lemma run_world_more {R : Type} (r c : Z) (fuel : nat) (w0 w' : World (Prog R)) :
  run_world r c fuel w0 = Some w' -> run_world r c (S fuel) w0 = Some w'.
Proof.
  revert w0. induction fuel as [|fuel IH]; intros w0 H.
  - cbn [run_world] in *. destruct (finished r c w0); [exact H | discriminate].
  - cbn [run_world] in H. change (run_world r c (S (S fuel)) w0) with
      (if finished r c w0 then Some w0
       else match step_world r c w0 with
            | Some w1 => run_world r c (S fuel) w1
            | None => None
            end).
    destruct (finished r c w0); [exact H|].
    destruct (step_world r c w0) as [w1|]; [|discriminate]. apply IH. exact H.
Qed.

(** One step of a grid on which every pending collective is matched. *)
Lemma step_world_spec {R : Type} (r c : Z) (w0 : World (Prog R))
    (P : Z -> Z -> Prog R -> Prop) :
  (forall k q, on_grid r c k q -> exists p, deliver r c w0 k q = Some p /\ P k q p) ->
  exists w1, step_world r c w0 = Some w1 /\
    forall k q, on_grid r c k q -> P k q (w1 k q).
Proof.
  intros Hdel. unfold step_world.
  assert (Hall : all_grid r c (fun k q => is_some (deliver r c w0 k q)) = true).
  { apply all_grid_true. intros k q Hkq. destruct (Hdel k q Hkq) as [p [-> _]]. reflexivity. }
  rewrite Hall. eexists. split; [reflexivity|].
  intros k q Hkq. cbn. destruct (Hdel k q Hkq) as [p [-> Hp]]. exact Hp.
Qed.

(** Two rounds: a first collective that every process is at, and a second
    one after which every process returns. *)
Lemma run_two_rounds {R : Type} (r c : Z) (w0 w1 : World (Prog R))
    (P : Z -> Z -> R -> Prop) :
  0 < r -> 0 < c ->
  (forall k q, on_grid r c k q -> silent (w0 k q) = false) ->
  (forall k q, on_grid r c k q -> deliver r c w0 k q = Some (w1 k q)) ->
  (forall k q, on_grid r c k q -> silent (w1 k q) = false) ->
  (forall w1' : World (Prog R), (forall k q, on_grid r c k q -> w1' k q = w1 k q) ->
     forall k q, on_grid r c k q ->
       exists v, deliver r c w1' k q = Some (Ret v) /\ P k q v) ->
  exists w2, run_world r c 2 w0 = Some w2 /\
    forall k q, on_grid r c k q -> exists v, w2 k q = Ret v /\ P k q v.
Proof.
  intros Hr Hc Hs0 Hd0 Hs1 Hd1.
  assert (H00 : on_grid r c 0 0) by (unfold on_grid; lia).
  assert (Hnf : forall w' : World (Prog R),
            (forall k q, on_grid r c k q -> silent (w' k q) = false) ->
            finished r c w' = false).
  { intros w' Hw'. destruct (finished r c w') eqn:E; [|reflexivity].
    unfold finished in E. rewrite all_grid_true in E.
    specialize (E 0 0 H00). rewrite (Hw' 0 0 H00) in E. discriminate. }
  destruct (step_world_spec r c w0 (fun k q p => p = w1 k q)) as [w1' [Hstep Hw1']].
  { intros k q Hkq. exists (w1 k q). split; [apply Hd0; exact Hkq | reflexivity]. }
  destruct (step_world_spec r c w1' (fun k q p => exists v, p = Ret v /\ P k q v))
    as [w2 [Hstep2 Hw2]].
  { intros k q Hkq. destruct (Hd1 w1' Hw1' k q Hkq) as [v [Hv HP]].
    exists (Ret v). split; [exact Hv|]. exists v. split; [reflexivity | exact HP]. }
  exists w2. split; [|exact Hw2].
  cbn [run_world]. rewrite (Hnf w0 Hs0), Hstep.
  rewrite (Hnf w1') by (intros k q Hkq; rewrite (Hw1' k q Hkq); apply Hs1; exact Hkq).
  rewrite Hstep2.
  assert (Hf : finished r c w2 = true).
  { apply all_grid_true. intros k q Hkq. destruct (Hw2 k q Hkq) as [v [-> _]]. reflexivity. }
  rewrite Hf. reflexivity.
Qed.

(** What an all-gather within a grid column delivers: the portions of the
    processes of the column, in the order of their grid rows. *)
Lemma deliver_allgather_col {R : Type} (r c : Z) (w0 : World (Prog R)) (q so n ro : Z)
    (buf : Z -> Buffer) (kont : Z -> Buffer -> Prog R) :
  (forall m, 0 <= m < r -> w0 m q = AllGather (buf m) so n ro MCComm (kont m)) ->
  forall k, 0 <= k < r ->
  exists g, deliver r c w0 k q = Some (kont k g) /\
    forall m x, 0 <= m < r -> 0 <= x < n -> g (ro + m * n + x) = buf m (so + x).
Proof.
  intros Hw k Hk. unfold deliver. rewrite (Hw k Hk).
  cbn [comm_size comm_peer fst snd].
  match goal with
  | |- context [forallb ?f (ranks r)] => assert (Hfa : forallb f (ranks r) = true)
  end.
  { apply forallb_forall. intros m Hm. apply ranks_In in Hm.
    rewrite (Hw m Hm). rewrite Z.eqb_refl. reflexivity. }
  rewrite Hfa. eexists. split; [reflexivity|].
  intros m x Hm Hx. cbv beta.
  rewrite in_range_true by nia.
  replace (ro + m * n + x - ro) with (m * n + x) by lia.
  assert (Hdiv : (m * n + x) / n = m) by (symmetry; apply Z.div_unique with (r := x); lia).
  assert (Hmod : (m * n + x) mod n = x) by (symmetry; apply Z.mod_unique with (q := m); lia).
  rewrite Hdiv, Hmod, (Hw m Hm). reflexivity.
Qed.

(** What a send-receive delivers to a process whose source sends to it and
    whose destination receives from it: the message of the source, placed
    at the receive offset. *)
Lemma deliver_sendrecv {R : Type} (r c : Z) (w0 : World (Prog R)) (comm : Comm) (k q : Z)
    (buf : Buffer) (so n dest ro source : Z) (kont : Buffer -> Prog R)
    (bufS : Buffer) (soS : Z) (roS sourceS : Z) (kontS : Buffer -> Prog R)
    (bufD : Buffer) (soD destD roD : Z) (kontD : Buffer -> Prog R) :
  w0 k q = SendRecv buf so n dest ro n source comm kont ->
  0 <= source < comm_size r c comm -> 0 <= dest < comm_size r c comm ->
  w0 (fst (comm_peer r c comm k q source)) (snd (comm_peer r c comm k q source)) =
    SendRecv bufS soS n (comm_rank r c comm k q) roS n sourceS comm kontS ->
  w0 (fst (comm_peer r c comm k q dest)) (snd (comm_peer r c comm k q dest)) =
    SendRecv bufD soD n destD roD n (comm_rank r c comm k q) comm kontD ->
  deliver r c w0 k q =
  Some (kont (fun idx => if in_range ro (ro + n) idx then bufS (soS + (idx - ro)) else buf idx)).
Proof.
  intros Hw Hsrc Hdst HS HD. unfold deliver. rewrite Hw.
  rewrite (in_range_true 0 _ source Hsrc), (in_range_true 0 _ dest Hdst). cbn [andb].
  rewrite HS, HD.
  assert (Hcomm : Comm_eqb comm comm = true) by (destruct comm; reflexivity).
  rewrite !Z.eqb_refl, Hcomm, Z.leb_refl. cbn [andb]. reflexivity.
Qed.

(** A redistribution that gathers within the grid columns: every process
    returns after the all-gather, with the portions of its grid column. *)
Lemma gather_world (r c : Z) (W : World (Prog (Outcome unit * DistMatrix)))
    (so n ro : Z -> Z) (buf : Z -> Z -> Buffer) (fin : Z -> Z -> Buffer -> DistMatrix) :
  0 < r -> 0 < c ->
  (forall k q, on_grid r c k q ->
     W k q = AllGather (buf k q) (so q) (n q) (ro q) MCComm
               (fun g => Ret (Normal tt, fin k q g))) ->
  exists w2, run_world r c 2 W = Some w2 /\
    forall k q, on_grid r c k q -> exists g,
      w2 k q = Ret (Normal tt, fin k q g) /\
      forall m x, 0 <= m < r -> 0 <= x < n q ->
        g (ro q + m * n q + x) = buf m q (so q + x).
Proof.
  intros Hr Hc HW.
  assert (Hdel : forall k q, on_grid r c k q -> exists g,
            deliver r c W k q = Some (Ret (Normal tt, fin k q g)) /\
            forall m x, 0 <= m < r -> 0 <= x < n q ->
              g (ro q + m * n q + x) = buf m q (so q + x)).
  { intros k q [Hk Hq].
    apply (deliver_allgather_col r c W q (so q) (n q) (ro q) (fun m => buf m q)
             (fun m g => Ret (Normal tt, fin m q g))); [|exact Hk].
    intros m Hm. apply HW. split; assumption. }
  destruct (run_one_round_ex r c W) as [w2 [Hrun Hw2]].
  { intros k q Hkq. destruct (Hdel k q Hkq) as [g [Hg _]]. eexists. exact Hg. }
  exists w2. split; [apply run_world_more; exact Hrun|].
  intros k q Hkq. destruct (Hdel k q Hkq) as [g [Hg Hspec]].
  exists g. split; [|exact Hspec].
  rewrite (Hw2 k q Hkq) in Hg. injection Hg as ->. reflexivity.
Qed.

(** A redistribution that first exchanges portions (each process sends to
    [dst] and receives from [src]) and then gathers what it received
    within the grid columns: every process returns after the two rounds,
    with the portions the sources of its grid column sent. *)
Lemma exchange_gather_world (r c : Z) (W : World (Prog (Outcome unit * DistMatrix)))
    (comm : Comm) (n so ro ro2 : Z) (src dst : Z -> Z -> Z)
    (buf : Z -> Z -> Buffer) (fin : Z -> Z -> Buffer -> DistMatrix) :
  0 < r -> 0 < c ->
  (forall k q, on_grid r c k q ->
     W k q = SendRecv (buf k q) so n (dst k q) ro n (src k q) comm
               (fun recv => AllGather recv ro n ro2 MCComm
                              (fun g => Ret (Normal tt, fin k q g)))) ->
  (forall k q, on_grid r c k q ->
     0 <= src k q < comm_size r c comm /\ 0 <= dst k q < comm_size r c comm /\
     on_grid r c (fst (comm_peer r c comm k q (src k q)))
                 (snd (comm_peer r c comm k q (src k q))) /\
     on_grid r c (fst (comm_peer r c comm k q (dst k q)))
                 (snd (comm_peer r c comm k q (dst k q))) /\
     dst (fst (comm_peer r c comm k q (src k q))) (snd (comm_peer r c comm k q (src k q))) =
       comm_rank r c comm k q /\
     src (fst (comm_peer r c comm k q (dst k q))) (snd (comm_peer r c comm k q (dst k q))) =
       comm_rank r c comm k q) ->
  exists w2, run_world r c 2 W = Some w2 /\
    forall k q, on_grid r c k q -> exists g,
      w2 k q = Ret (Normal tt, fin k q g) /\
      forall m x, 0 <= m < r -> 0 <= x < n ->
        g (ro2 + m * n + x) =
        buf (fst (comm_peer r c comm m q (src m q)))
            (snd (comm_peer r c comm m q (src m q))) (so + x).
Proof.
  intros Hr Hc HW Hpeers.
  set (recv := fun k q => fun idx =>
         if in_range ro (ro + n) idx
         then buf (fst (comm_peer r c comm k q (src k q)))
                  (snd (comm_peer r c comm k q (src k q))) (so + (idx - ro))
         else buf k q idx).
  set (W1 := fun k q => AllGather (recv k q) ro n ro2 MCComm
                          (fun g => Ret (Normal tt, fin k q g))).
  destruct (run_two_rounds r c W W1
              (fun k q v => exists g, v = (Normal tt, fin k q g) /\
                 forall m x, 0 <= m < r -> 0 <= x < n ->
                   g (ro2 + m * n + x) =
                   buf (fst (comm_peer r c comm m q (src m q)))
                       (snd (comm_peer r c comm m q (src m q))) (so + x)) Hr Hc)
    as [w2 [Hrun Hw2]].
  - intros k q Hkq. rewrite (HW k q Hkq). reflexivity.
  - intros k q Hkq.
    destruct (Hpeers k q Hkq) as [Hsrc [Hdst [Hps [Hpd [Hds Hsd]]]]].
    pose proof (HW _ _ Hps) as HS. rewrite Hds in HS.
    pose proof (HW _ _ Hpd) as HD. rewrite Hsd in HD.
    rewrite (deliver_sendrecv r c W comm k q _ _ _ _ _ _ _ _ _ _ _ _ _ _ _ _ _
               (HW k q Hkq) Hsrc Hdst HS HD).
    reflexivity.
  - intros k q Hkq. reflexivity.
  - intros W1' HW1' k q [Hk Hq].
    destruct (deliver_allgather_col r c W1' q ro n ro2 (fun m => recv m q)
                (fun m g => Ret (Normal tt, fin m q g))) with (k := k) as [g [Hg Hspec]].
    + intros m Hm. rewrite (HW1' m q (conj Hm Hq)). reflexivity.
    + exact Hk.
    + eexists. split; [exact Hg|]. exists g. split; [reflexivity|].
      intros m x Hm Hx. rewrite (Hspec m x Hm Hx). unfold recv.
      rewrite in_range_true by lia. f_equal. lia.
  - exists w2. split; [exact Hrun|].
    intros k q Hkq. destruct (Hw2 k q Hkq) as [v [Hv [g [-> Hspec]]]].
    exists g. split; [exact Hv | exact Hspec].
Qed.

(** ** Redistribution from [MR,MC]: gathering columns within a grid column *)

#[local] Arguments unpack_MR_MC : simpl never.
#[local] Arguments unpack_VR_STAR : simpl never.

Section Gathers.

Variables r c h w : Z.
Hypothesis Hr : 0 < r.
Hypothesis Hc : 0 < c.

(** The unpack loop of the redistributions from [MR,MC] and [MC,MR]: column
    [j] of the target comes from the portion of grid row [(j + ra) mod r],
    where it is the local column [(j - j mod r) / r]. *)
Lemma unpack_MR_MC_entry (lh ld ra off P : Z) (gathered init : Buffer) (i j : Z) :
  0 <= lh <= ld -> 0 <= i < lh -> 0 <= j < w ->
  unpack_MR_MC r w lh ld ra gathered off P init (i + j * ld) =
  gathered (off + ((j + ra) mod r) * P + ((j - j mod r) / r) * lh + i).
Proof.
  intros Hld Hi Hj. unfold unpack_MR_MC, RawShift, RawLocalLength.
  set (LL := fun k => LocalLength w (Shift k ra r) r).
  assert (HLL : forall k, 0 <= LL k) by (intros k; apply LocalLength_nonneg).
  assert (Hcol : forall k jL, 0 <= jL < LL k ->
            0 <= Shift k ra r + jL * r < w /\ (Shift k ra r + jL * r) mod r = Shift k ra r).
  { intros k jL HjL.
    destruct (global_index jL w (Shift k ra r) r Hr (Shift_range k ra r Hr) HjL)
      as [H1 [H2 _]]. split; assumption. }
  assert (Hin : forall k, 0 <= k < Z.of_nat (Z.to_nat r) ->
    Writes (fun tb =>
              for_loop (Z.to_nat (LL k))
                (fun jLocal tb =>
                   memcpy tb ((Shift k ra r + jLocal * r) * ld) gathered
                          (off + k * P + jLocal * lh) lh) tb)
           (fun idx v => exists jL, 0 <= jL < Z.of_nat (Z.to_nat (LL k)) /\
              ((Shift k ra r + jL * r) * ld <= idx < (Shift k ra r + jL * r) * ld + lh /\
               v = gathered (off + k * P + jL * lh + (idx - (Shift k ra r + jL * r) * ld))))).
  { intros k Hk.
    apply (Writes_for_loop (Z.to_nat (LL k))
             (fun jLocal tb =>
                memcpy tb ((Shift k ra r + jLocal * r) * ld) gathered
                       (off + k * P + jLocal * lh) lh)
             (fun jL idx v =>
                (Shift k ra r + jL * r) * ld <= idx < (Shift k ra r + jL * r) * ld + lh /\
                v = gathered (off + k * P + jL * lh + (idx - (Shift k ra r + jL * r) * ld)))).
    - intros jL HjL. apply Writes_memcpy.
    - intros j1 j2 idx v v' Hj1 Hj2 [H1 _] [H2 _].
      assert (E : Shift k ra r + j1 * r = Shift k ra r + j2 * r) by nia. nia. }
  assert (HW := Writes_for_loop (Z.to_nat r) _ _ Hin).
  match type of HW with
  | (?P1 -> _) => assert (Hdis : P1)
  end.
  { intros k1 k2 idx v v' Hk1 Hk2 [j1 [Hj1 [H1 _]]] [j2 [Hj2 [H2 _]]].
    rewrite Z2Nat.id in Hj1, Hj2 by apply HLL.
    destruct (Hcol k1 j1 Hj1) as [Hc1 Hm1]. destruct (Hcol k2 j2 Hj2) as [Hc2 Hm2].
    assert (E : Shift k1 ra r + j1 * r = Shift k2 ra r + j2 * r) by nia.
    apply (Shift_inj k1 k2 ra r); [lia | lia |].
    rewrite <- Hm1, <- Hm2, E. reflexivity. }
  specialize (HW Hdis).
  apply (Writes_hit _ _ init _ _ HW).
  assert (Hown : 0 <= (j + ra) mod r < r) by (apply Z.mod_pos_bound; exact Hr).
  assert (Hsh : Shift ((j + ra) mod r) ra r = j mod r) by (apply owner_shift; exact Hr).
  destruct (local_index j w (j mod r) r Hr Hj eq_refl) as [Hloc [Hglob _]].
  exists ((j + ra) mod r). split; [lia|].
  exists ((j - j mod r) / r). unfold LL. rewrite Hsh.
  split; [rewrite Z2Nat.id by apply LocalLength_nonneg; exact Hloc|].
  rewrite Hglob. split; [lia|]. f_equal. lia.
Qed.

(** The program of one process for [B = A], [A] an [MR,MC] matrix, when
    the column alignments agree. *)
Lemma assign_MR_MC_aligned (A B : DistMatrix) (a ra k q : Z) :
  on_grid r c k q ->
  MR_MC_wf r c k q A h w a ra -> MR_STAR_target r c k q B a a ->
  let lh := LocalLength h (Shift q a c) c in
  let P := Z.max (lh * MaxLocalLength w r) MIN_COLL_MSG in
  assign_MR_MC A B =
  AllGather
    (for_loop (Z.to_nat (LocalLength w (Shift k ra r) r))
       (fun jLocal buf => memcpy buf (0 + jLocal * lh) (m_data (_localMatrix A))
                                 (jLocal * m_ldim (_localMatrix A)) lh)
       uninit)
    0 P P MCComm
    (fun gathered =>
       Ret (Normal tt,
            set_localMatrix (resized r c h w k q a B)
              (Matrix_with_data (_localMatrix (resized r c h w k q a B))
                 (unpack_MR_MC r w lh (Z.max lh 1) ra gathered P P uninit)))).
Proof.
  intros Hkq Hwf Htgt lh P. subst lh P.
  destruct Hwf as [HgA [HhA [HwA [Hh0 [Hw0 [HaA [Har [HsA [HrA [Hrr [HrsA [HmhA [HmwA _]]]]]]]]]]]]].
  destruct Htgt as [HgB [HvB [HmvB [HlB [HmlB [Hbr Hcon]]]]]].
  assert (Hneg : (h <? 0) || (w <? 0) = false).
  { destruct (Z.ltb_spec h 0), (Z.ltb_spec w 0); try lia; reflexivity. }
  assert (Hgrid : Grid.eqb (Grid.mk r c k q) (Grid.mk r c k q) = true)
    by apply Grid_eqb_refl.
  assert (Haa : (a =? a) = true) by apply Z.eqb_refl.
  unfold assign_MR_MC, assign_asserts, ResizeTo, allgather, resized, debug.
  destruct (_constrainedColAlignment B) eqn:HcB;
    [destruct Hcon as [HaB HsB]|];
    destruct release; unfold_monad;
    unfold Viewing, ConstrainedColAlignment, ColAlignment, RowAlignment, ColShift, Height,
      Width, LocalHeight, LocalWidth, LocalLDim, LocalBuffer, LockedLocalBuffer,
      Matrix_ResizeTo;
    repeat (progress (cbn; rewrite ?HvB, ?HlB, ?HmvB, ?HgA, ?HgB, ?Hgrid, ?HhA, ?HwA, ?Hneg,
                        ?HcB, ?HaB, ?HaA, ?HsB, ?Haa, ?HmhA, ?HmwA, ?HrA));
    unfold set_localMatrix, set_size, set_colAlignment, Matrix_with_data; cbn;
    rewrite ?HvB, ?HlB, ?HgB, ?HcB, ?HaB, ?HsB; reflexivity.
Qed.

(** The program of one process for [B = A], [A] an [MR,MC] matrix, when
    the column alignments differ. *)
Lemma assign_MR_MC_unaligned (A B : DistMatrix) (a b ra k q : Z) :
  on_grid r c k q ->
  MR_MC_wf r c k q A h w a ra -> MR_STAR_target r c k q B a b -> a <> b ->
  let lhA := LocalLength h (Shift q a c) c in
  let lh := LocalLength h (Shift q b c) c in
  let P := Z.max (MaxLocalLength h c * MaxLocalLength w r) MIN_COLL_MSG in
  assign_MR_MC A B =
  SendRecv
    (for_loop (Z.to_nat (LocalLength w (Shift k ra r) r))
       (fun jLocal buf => memcpy buf (P + jLocal * lhA) (m_data (_localMatrix A))
                                 (jLocal * m_ldim (_localMatrix A)) lhA)
       uninit)
    P P ((q + c + b - a) mod c) 0 P ((q + c + a - b) mod c) MRComm
    (fun received =>
       AllGather received 0 P P MCComm
         (fun gathered =>
            Ret (Normal tt,
                 set_localMatrix (resized r c h w k q b B)
                   (Matrix_with_data (_localMatrix (resized r c h w k q b B))
                      (unpack_MR_MC r w lh (Z.max lh 1) ra gathered P P uninit))))).
Proof.
  intros Hkq Hwf Htgt Hne lhA lh P. subst lhA lh P.
  destruct Hwf as [HgA [HhA [HwA [Hh0 [Hw0 [HaA [Har [HsA [HrA [Hrr [HrsA [HmhA [HmwA _]]]]]]]]]]]]].
  destruct Htgt as [HgB [HvB [HmvB [HlB [HmlB [Hbr Hcon]]]]]].
  assert (Hneg : (h <? 0) || (w <? 0) = false).
  { destruct (Z.ltb_spec h 0), (Z.ltb_spec w 0); try lia; reflexivity. }
  assert (Hgrid : Grid.eqb (Grid.mk r c k q) (Grid.mk r c k q) = true)
    by apply Grid_eqb_refl.
  assert (Hba : (b =? a) = false) by (apply Z.eqb_neq; lia).
  assert (Hs1 : Z.rem (q + c + b - a) c = (q + c + b - a) mod c).
  { apply Z.rem_mod_nonneg; destruct Hkq; lia. }
  assert (Hs2 : Z.rem (q + c + a - b) c = (q + c + a - b) mod c).
  { apply Z.rem_mod_nonneg; destruct Hkq; lia. }
  destruct (_constrainedColAlignment B) eqn:HcB; [|congruence].
  destruct Hcon as [HaB HsB].
  unfold assign_MR_MC, assign_asserts, ResizeTo, allgather, sendrecv, resized, debug.
  destruct release; unfold_monad;
    unfold Viewing, ConstrainedColAlignment, ColAlignment, RowAlignment, ColShift, Height,
      Width, LocalHeight, LocalWidth, LocalLDim, LocalBuffer, LockedLocalBuffer,
      Matrix_ResizeTo;
    repeat (progress (cbn; rewrite ?HvB, ?HlB, ?HmvB, ?HgA, ?HgB, ?Hgrid, ?HhA, ?HwA, ?Hneg,
                        ?HcB, ?HaB, ?HaA, ?HsB, ?Hba, ?Hs1, ?Hs2, ?HmhA, ?HmwA, ?HrA));
    unfold set_localMatrix, set_size, set_colAlignment, Matrix_with_data; cbn;
    rewrite ?HvB, ?HlB, ?HgB, ?HcB, ?HaB, ?HsB; reflexivity.
Qed.

(** The pack loop: local column [jL] of the source goes to the [jL]-th
    run of [lh] entries of the portion. *)
Lemma pack_columns (src dst : Buffer) (off lh lw ldA i jL : Z) :
  0 <= lh -> 0 <= i < lh -> 0 <= jL < lw ->
  for_loop (Z.to_nat lw)
    (fun jLocal buf => memcpy buf (off + jLocal * lh) src (jLocal * ldA) lh) dst
    (off + (jL * lh + i)) = src (i + jL * ldA).
Proof.
  intros Hlh Hi HjL.
  replace (off + (jL * lh + i)) with (off + jL * lh + i) by lia.
  rewrite (panel_copy lw lh off lh 0 ldA) by lia. f_equal. lia.
Qed.

(** The target of process [(k,q)] once the portions of its grid column are
    unpacked, when the portion of grid row [m] holds the columns
    [Shift m ra r + jL*r] of the rows that process column [q] owns. *)
Lemma gathered_columns_represent (G : Z -> Z -> T) (B : DistMatrix) (b ra k q P : Z)
    (g : Buffer) :
  on_grid r c k q -> 0 <= h -> 0 <= w -> 0 <= b < c ->
  let lh := LocalLength h (Shift q b c) c in
  lh * MaxLocalLength w r <= P ->
  (forall m jL i, 0 <= m < r -> 0 <= jL < LocalLength w (Shift m ra r) r -> 0 <= i < lh ->
     g (P + m * P + (jL * lh + i)) = G (Shift q b c + i * c) (Shift m ra r + jL * r)) ->
  let B' := set_localMatrix (resized r c h w k q b B)
              (Matrix_with_data (_localMatrix (resized r c h w k q b B))
                 (unpack_MR_MC r w lh (Z.max lh 1) ra g P P uninit)) in
  MR_STAR_wf r c k q B' h w b /\
  forall iLocal j, 0 <= iLocal < LocalHeight B' -> 0 <= j < w ->
    GetLocalEntry B' iLocal j = G (ColShift B' + iLocal * c) j.
Proof.
  intros Hkq Hh0 Hw0 Hb lh HP Hg B'. subst B'.
  assert (Hlh0 : 0 <= lh) by apply LocalLength_nonneg.
  split.
  - unfold MR_STAR_wf, Matrix_wf, resized. cbn. fold lh. repeat split; lia.
  - unfold LocalHeight, GetLocalEntry, Matrix_Get, ColShift, resized. cbn. fold lh.
    intros iLocal j HiL Hj.
    rewrite unpack_MR_MC_entry by lia.
    assert (Hown : 0 <= (j + ra) mod r < r) by (apply Z.mod_pos_bound; exact Hr).
    assert (Hsh : Shift ((j + ra) mod r) ra r = j mod r) by (apply owner_shift; exact Hr).
    destruct (local_index j w (j mod r) r Hr Hj eq_refl) as [Hloc [Hglob _]].
    replace (P + (j + ra) mod r * P + (j - j mod r) / r * lh + iLocal)
      with (P + (j + ra) mod r * P + ((j - j mod r) / r * lh + iLocal)) by lia.
    rewrite Hg; [rewrite Hsh, Hglob; reflexivity | lia | rewrite Hsh; exact Hloc | lia].
Qed.

Lemma portion_fits (lh lw maxw P jL i : Z) :
  0 <= i < lh -> 0 <= jL < lw -> lw <= maxw -> lh * maxw <= P -> 0 <= jL * lh + i < P.
Proof. intros. nia. Qed.

(** X7. [B = A] from an [MR,MC] matrix, on the whole grid.  Whatever the
    alignments, every process returns normally within two rounds of
    collectives (a send-receive within the grid row when the column
    alignments differ, then an all-gather within the grid column), and
    the [MR,* ] target holds the matrix of the source under its own
    column alignment. *)
Theorem assign_MR_MC_world (G : Z -> Z -> T) (A B : World DistMatrix) (a b ra : Z) :
  MR_MC_represents r c A h w a ra G ->
  (forall k q, on_grid r c k q -> MR_STAR_target r c k q (B k q) a b) ->
  exists B',
    returns r c (call r c 2 (fun k q => assign_MR_MC (A k q)) B) (fun _ _ => tt) B' /\
    MR_STAR_represents r c B' h w b G.
Proof.
  intros Hrep Htgt.
  assert (H00 : on_grid r c 0 0) by (unfold on_grid; lia).
  destruct (Hrep 0 0 H00) as [[_ [_ [_ [Hh0 [Hw0 [_ [Har [_ [_ [Hrr _]]]]]]]]]] _].
  destruct (Htgt 0 0 H00) as [_ [_ [_ [_ [_ [Hbr _]]]]]].
  set (W := fun k q => assign_MR_MC (A k q) (B k q)).
  set (lh := fun q => LocalLength h (Shift q b c) c).
  set (fin := fun P k q g =>
         set_localMatrix (resized r c h w k q b (B k q))
           (Matrix_with_data (_localMatrix (resized r c h w k q b (B k q)))
              (unpack_MR_MC r w (lh q) (Z.max (lh q) 1) ra g (P q) (P q) uninit))).
  assert (Hent : forall k q i jL, on_grid r c k q ->
            0 <= i < LocalLength h (Shift q a c) c ->
            0 <= jL < LocalLength w (Shift k ra r) r ->
            m_data (_localMatrix (A k q)) (i + jL * m_ldim (_localMatrix (A k q))) =
            G (Shift q a c + i * c) (Shift k ra r + jL * r)).
  { intros k q i jL Hkq Hi HjL. destruct (Hrep k q Hkq) as [Hwf He].
    destruct Hwf as [_ [_ [_ [_ [_ [_ [_ [HsA [_ [_ [HrsA [HmhA [HmwA _]]]]]]]]]]]]].
    unfold GetLocalEntry, Matrix_Get, LocalHeight, LocalWidth, ColShift, RowShift in He.
    rewrite He by (rewrite ?HmhA, ?HmwA; assumption).
    rewrite HsA, HrsA. reflexivity. }
  assert (Hfinal : forall (P : Z -> Z) w2,
            (forall q, lh q * MaxLocalLength w r <= P q) ->
            (forall k q, on_grid r c k q -> exists g,
               w2 k q = Ret (Normal tt, fin P k q g) /\
               forall m jL i, 0 <= m < r -> 0 <= jL < LocalLength w (Shift m ra r) r ->
                 0 <= i < lh q ->
                 g (P q + m * P q + (jL * lh q + i)) =
                 G (Shift q b c + i * c) (Shift m ra r + jL * r)) ->
            run_world r c 2 W = Some w2 ->
            exists B',
              returns r c (call r c 2 (fun k q => assign_MR_MC (A k q)) B) (fun _ _ => tt) B' /\
              MR_STAR_represents r c B' h w b G).
  { intros P w2 HP Hw2 Hrun.
    exists (fun k q => match w2 k q with Ret (_, d') => d' | _ => B k q end). split.
    - exists w2. split; [exact Hrun|].
      intros k q Hkq. destruct (Hw2 k q Hkq) as [g [-> _]]. reflexivity.
    - intros k q Hkq. destruct (Hw2 k q Hkq) as [g [-> Hg]].
      apply (gathered_columns_represent G (B k q) b ra k q (P q) g Hkq Hh0 Hw0 Hbr (HP q) Hg). }
  destruct (Z.eq_dec a b) as [Eab|Hne].
  - (* aligned: one all-gather *)
    subst b.
    set (P := fun q => Z.max (lh q * MaxLocalLength w r) MIN_COLL_MSG).
    destruct (gather_world r c W (fun _ => 0) P P
                (fun k q => for_loop (Z.to_nat (LocalLength w (Shift k ra r) r))
                   (fun jLocal buf => memcpy buf (0 + jLocal * lh q) (m_data (_localMatrix (A k q)))
                                             (jLocal * m_ldim (_localMatrix (A k q))) (lh q))
                   uninit)
                (fin P) Hr Hc) as [w2 [Hrun Hw2]].
    { intros k q Hkq. destruct (Hrep k q Hkq) as [Hwf _].
      exact (assign_MR_MC_aligned (A k q) (B k q) a ra k q Hkq Hwf (Htgt k q Hkq)). }
    apply (Hfinal P w2); [intros q; unfold P; lia | | exact Hrun].
    intros k q Hkq. destruct (Hw2 k q Hkq) as [g [Hg Hspec]].
    exists g. split; [exact Hg|].
    intros m jL i Hm HjL Hi.
    assert (Hfit : 0 <= jL * lh q + i < P q).
    { apply (portion_fits (lh q) (LocalLength w (Shift m ra r) r) (MaxLocalLength w r));
        [exact Hi | exact HjL | | unfold P; lia].
      apply LocalLength_le_Max; [exact Hr | apply Shift_range; exact Hr]. }
    rewrite (Hspec m (jL * lh q + i) Hm Hfit).
    rewrite pack_columns by (unfold lh in *; lia).
    apply Hent; [destruct Hkq; split; assumption | exact Hi | exact HjL].
  - (* unaligned: a send-receive within the grid row first *)
    set (P := Z.max (MaxLocalLength h c * MaxLocalLength w r) MIN_COLL_MSG).
    set (src := fun (_ q : Z) => (q + c + a - b) mod c).
    set (dst := fun (_ q : Z) => (q + c + b - a) mod c).
    assert (Hsrc : forall q, 0 <= src 0 q < c) by (intros q; apply Z.mod_pos_bound; exact Hc).
    assert (Hdst : forall q, 0 <= dst 0 q < c) by (intros q; apply Z.mod_pos_bound; exact Hc).
    assert (Hlhsrc : forall q, LocalLength h (Shift (src 0 q) a c) c = lh q).
    { intros q. unfold lh, src. rewrite recv_shift by exact Hc. reflexivity. }
    destruct (exchange_gather_world r c W MRComm P P 0 P src dst
                (fun k q => for_loop (Z.to_nat (LocalLength w (Shift k ra r) r))
                   (fun jLocal buf =>
                      memcpy buf (P + jLocal * LocalLength h (Shift q a c) c)
                             (m_data (_localMatrix (A k q)))
                             (jLocal * m_ldim (_localMatrix (A k q)))
                             (LocalLength h (Shift q a c) c))
                   uninit)
                (fin (fun _ => P)) Hr Hc) as [w2 [Hrun Hw2]].
    { intros k q Hkq. destruct (Hrep k q Hkq) as [Hwf _].
      exact (assign_MR_MC_unaligned (A k q) (B k q) a b ra k q Hkq Hwf (Htgt k q Hkq) Hne). }
    { intros k q [Hk Hq]. cbn [comm_size comm_peer comm_rank fst snd].
      split; [apply Hsrc|]. split; [apply Hdst|].
      split; [split; [exact Hk | apply Hsrc]|].
      split; [split; [exact Hk | apply Hdst]|].
      unfold src, dst. split; apply send_recv_inverse; assumption. }
    assert (HlhMax : forall q, lh q <= MaxLocalLength h c).
    { intros q. apply LocalLength_le_Max; [exact Hc | apply Shift_range; exact Hc]. }
    assert (HM0 : 0 <= MaxLocalLength w r) by apply LocalLength_nonneg.
    apply (Hfinal (fun _ => P) w2); [intros q; specialize (HlhMax q); unfold P; nia | | exact Hrun].
    intros k q Hkq. destruct (Hw2 k q Hkq) as [g [Hg Hspec]].
    exists g. split; [exact Hg|].
    intros m jL i Hm HjL Hi.
    assert (Hfit : 0 <= jL * lh q + i < P).
    { apply (portion_fits (lh q) (LocalLength w (Shift m ra r) r) (MaxLocalLength w r));
        [exact Hi | exact HjL | | specialize (HlhMax q); unfold P; nia].
      apply LocalLength_le_Max; [exact Hr | apply Shift_range; exact Hr]. }
    rewrite (Hspec m (jL * lh q + i) Hm Hfit).
    cbn [comm_peer fst snd]. change (src m q) with (src 0 q).
    rewrite (Hlhsrc q).
    rewrite pack_columns by (unfold lh in *; lia).
    rewrite Hent; [| split; [exact Hm | apply Hsrc] | rewrite Hlhsrc; exact Hi | exact HjL].
    unfold src. rewrite recv_shift by exact Hc. reflexivity.
Qed.

(** ** [AdjointFrom] and [TransposeFrom]: gathering the transposed panels *)

(** The program of one process for [TransposeFrom]/[AdjointFrom] when the
    column alignment of the target is the row alignment of the source. *)
Lemma TransposeFrom_aligned (op : T -> T) (A B : DistMatrix) (ca ra k q : Z) :
  on_grid r c k q ->
  MC_MR_wf r c k q A w h ca ra -> MR_STAR_target r c k q B ra ra ->
  let lh := LocalLength h (Shift q ra c) c in
  let P := Z.max (lh * MaxLocalLength w r) MIN_COLL_MSG in
  TransposeFrom_with op A B =
  AllGather
    (for_loop (Z.to_nat (LocalLength w (Shift k ca r) r))
       (fun jLocal buf =>
          for_loop (Z.to_nat lh)
            (fun iLocal buf =>
               upd buf (0 + (iLocal + jLocal * lh))
                   (op (m_data (_localMatrix A) (jLocal + iLocal * m_ldim (_localMatrix A)))))
            buf)
       uninit)
    0 P P MCComm
    (fun gathered =>
       Ret (Normal tt,
            set_localMatrix (resized r c h w k q ra B)
              (Matrix_with_data (_localMatrix (resized r c h w k q ra B))
                 (unpack_MR_MC r w lh (Z.max lh 1) ca gathered P P uninit)))).
Proof.
  intros Hkq Hwf Htgt lh P. subst lh P.
  destruct Hwf as [HgA [HhA [HwA [Hh0 [Hw0 [HaA [Har [HsA [HrA [Hrr [HrsA [HmhA [HmwA _]]]]]]]]]]]]].
  destruct Htgt as [HgB [HvB [HmvB [HlB [HmlB [Hbr Hcon]]]]]].
  assert (Hneg : (h <? 0) || (w <? 0) = false).
  { destruct (Z.ltb_spec h 0), (Z.ltb_spec w 0); try lia; reflexivity. }
  assert (Hgrid : Grid.eqb (Grid.mk r c k q) (Grid.mk r c k q) = true)
    by apply Grid_eqb_refl.
  assert (Haa : (ra =? ra) = true) by apply Z.eqb_refl.
  unfold TransposeFrom_with, ResizeTo, allgather, resized, debug.
  destruct (_constrainedColAlignment B) eqn:HcB;
    [destruct Hcon as [HaB HsB]|];
    destruct release; unfold_monad;
    unfold Viewing, ConstrainedColAlignment, ColAlignment, RowAlignment, ColShift, Height,
      Width, LocalHeight, LocalWidth, LocalLDim, LocalBuffer, LockedLocalBuffer,
      Matrix_ResizeTo;
    repeat (progress (cbn; rewrite ?HvB, ?HlB, ?HmvB, ?HgA, ?HgB, ?Hgrid, ?HhA, ?HwA, ?Hneg,
                        ?HcB, ?HaB, ?HaA, ?HsB, ?Haa, ?HmhA, ?HmwA, ?HrA));
    unfold set_localMatrix, set_size, set_colAlignment, Matrix_with_data; cbn;
    rewrite ?HvB, ?HlB, ?HgB, ?HcB, ?HaB, ?HsB; reflexivity.
Qed.

(** The program of one process when the alignments differ. *)
Lemma TransposeFrom_unaligned (op : T -> T) (A B : DistMatrix) (ca ra b k q : Z) :
  on_grid r c k q ->
  MC_MR_wf r c k q A w h ca ra -> MR_STAR_target r c k q B ra b -> ra <> b ->
  let lhA := LocalLength h (Shift q ra c) c in
  let lh := LocalLength h (Shift q b c) c in
  let P := Z.max (MaxLocalLength h c * MaxLocalLength w r) MIN_COLL_MSG in
  TransposeFrom_with op A B =
  SendRecv
    (for_loop (Z.to_nat (LocalLength w (Shift k ca r) r))
       (fun jLocal buf =>
          for_loop (Z.to_nat lhA)
            (fun iLocal buf =>
               upd buf (P + (iLocal + jLocal * lhA))
                   (op (m_data (_localMatrix A) (jLocal + iLocal * m_ldim (_localMatrix A)))))
            buf)
       uninit)
    P P ((q + c + b - ra) mod c) 0 P ((q + c + ra - b) mod c) MRComm
    (fun received =>
       AllGather received 0 P P MCComm
         (fun gathered =>
            Ret (Normal tt,
                 set_localMatrix (resized r c h w k q b B)
                   (Matrix_with_data (_localMatrix (resized r c h w k q b B))
                      (unpack_MR_MC r w lh (Z.max lh 1) ca gathered P P uninit))))).
Proof.
  intros Hkq Hwf Htgt Hne lhA lh P. subst lhA lh P.
  destruct Hwf as [HgA [HhA [HwA [Hh0 [Hw0 [HaA [Har [HsA [HrA [Hrr [HrsA [HmhA [HmwA _]]]]]]]]]]]]].
  destruct Htgt as [HgB [HvB [HmvB [HlB [HmlB [Hbr Hcon]]]]]].
  assert (Hneg : (h <? 0) || (w <? 0) = false).
  { destruct (Z.ltb_spec h 0), (Z.ltb_spec w 0); try lia; reflexivity. }
  assert (Hgrid : Grid.eqb (Grid.mk r c k q) (Grid.mk r c k q) = true)
    by apply Grid_eqb_refl.
  assert (Hba : (b =? ra) = false) by (apply Z.eqb_neq; lia).
  assert (Hs1 : Z.rem (q + c + b - ra) c = (q + c + b - ra) mod c).
  { apply Z.rem_mod_nonneg; destruct Hkq; lia. }
  assert (Hs2 : Z.rem (q + c + ra - b) c = (q + c + ra - b) mod c).
  { apply Z.rem_mod_nonneg; destruct Hkq; lia. }
  destruct (_constrainedColAlignment B) eqn:HcB; [|congruence].
  destruct Hcon as [HaB HsB].
  unfold TransposeFrom_with, ResizeTo, allgather, sendrecv, resized, debug.
  destruct release; unfold_monad;
    unfold Viewing, ConstrainedColAlignment, ColAlignment, RowAlignment, ColShift, Height,
      Width, LocalHeight, LocalWidth, LocalLDim, LocalBuffer, LockedLocalBuffer,
      Matrix_ResizeTo;
    repeat (progress (cbn; rewrite ?HvB, ?HlB, ?HmvB, ?HgA, ?HgB, ?Hgrid, ?HhA, ?HwA, ?Hneg,
                        ?HcB, ?HaB, ?HaA, ?HsB, ?Hba, ?Hs1, ?Hs2, ?HmhA, ?HmwA, ?HrA));
    unfold set_localMatrix, set_size, set_colAlignment, Matrix_with_data; cbn;
    rewrite ?HvB, ?HlB, ?HgB, ?HcB, ?HaB, ?HsB; reflexivity.
Qed.

(** The pack loop of the transposing redistributions: entry [(jL, i)] of
    the source goes to position [i + jL*lh] of the portion. *)
Lemma pack_transposed (op : T -> T) (src dst : Buffer) (off lh lw ldA i jL : Z) :
  0 <= i < lh -> 0 <= jL < lw ->
  for_loop (Z.to_nat lw)
    (fun jLocal buf =>
       for_loop (Z.to_nat lh)
         (fun iLocal buf =>
            upd buf (off + (iLocal + jLocal * lh)) (op (src (jLocal + iLocal * ldA))))
         buf)
    dst (off + (jL * lh + i)) = op (src (jL + i * ldA)).
Proof.
  intros Hi HjL.
  assert (HW := Writes_fill2 (Z.to_nat lw) (fun _ => Z.to_nat lh)
                  (fun jLocal iLocal => off + (iLocal + jLocal * lh))
                  (fun jLocal iLocal => op (src (jLocal + iLocal * ldA)))).
  cbv beta in HW.
  assert (Hinj : forall j1 i1 j2 i2,
            0 <= j1 < Z.of_nat (Z.to_nat lw) -> 0 <= i1 < Z.of_nat (Z.to_nat lh) ->
            0 <= j2 < Z.of_nat (Z.to_nat lw) -> 0 <= i2 < Z.of_nat (Z.to_nat lh) ->
            off + (i1 + j1 * lh) = off + (i2 + j2 * lh) -> j1 = j2 /\ i1 = i2).
  { intros j1 i1 j2 i2 H1 H2 H3 H4 E.
    destruct (panel_index_inj i1 j1 i2 j2 lh) as [-> ->]; [lia | lia | lia |].
    split; reflexivity. }
  apply (Writes_hit _ _ dst _ _ (HW Hinj)).
  exists jL. split; [lia|]. exists i. split; [lia|]. split; [lia | reflexivity].
Qed.

(** X8. [TransposeFrom] and [AdjointFrom] from an [MC,MR] matrix of shape
    [w x h], on the whole grid.  Whatever the alignments, every process
    returns normally within two rounds of collectives (a send-receive
    within the grid row when the target's column alignment differs from
    the source's row alignment, then an all-gather within the grid
    column), and the [MR,* ] target of shape [h x w] holds the transpose
    of the source, respectively its conjugate transpose. *)
Theorem TransposeFrom_world (Conj : T -> T) (GA : Z -> Z -> T) (A B : World DistMatrix)
    (ca ra b : Z) :
  MC_MR_represents r c A w h ca ra GA ->
  (forall k q, on_grid r c k q -> MR_STAR_target r c k q (B k q) ra b) ->
  (exists B',
     returns r c (call r c 2 (fun k q => TransposeFrom (A k q)) B) (fun _ _ => tt) B' /\
     MR_STAR_represents r c B' h w b (fun i j => GA j i)) /\
  (exists B',
     returns r c (call r c 2 (fun k q => AdjointFrom Conj (A k q)) B) (fun _ _ => tt) B' /\
     MR_STAR_represents r c B' h w b (fun i j => Conj (GA j i))).
Proof.
  intros Hrep Htgt.
  assert (Hgen : forall op : T -> T, exists B',
    returns r c (call r c 2 (fun k q => TransposeFrom_with op (A k q)) B) (fun _ _ => tt) B' /\
    MR_STAR_represents r c B' h w b (fun i j => op (GA j i)));
    [|split; [exact (Hgen (fun u => u)) | exact (Hgen Conj)]].
  intros op.
  assert (H00 : on_grid r c 0 0) by (unfold on_grid; lia).
  destruct (Hrep 0 0 H00) as [[_ [_ [_ [Hw0 [Hh0 [_ [Hcr [_ [_ [Har _]]]]]]]]]] _].
  destruct (Htgt 0 0 H00) as [_ [_ [_ [_ [_ [Hbr _]]]]]].
  set (W := fun k q => TransposeFrom_with op (A k q) (B k q)).
  set (lh := fun q => LocalLength h (Shift q b c) c).
  set (fin := fun P k q g =>
         set_localMatrix (resized r c h w k q b (B k q))
           (Matrix_with_data (_localMatrix (resized r c h w k q b (B k q)))
              (unpack_MR_MC r w (lh q) (Z.max (lh q) 1) ca g (P q) (P q) uninit))).
  assert (Hent : forall k q i jL, on_grid r c k q ->
            0 <= i < LocalLength h (Shift q ra c) c ->
            0 <= jL < LocalLength w (Shift k ca r) r ->
            m_data (_localMatrix (A k q)) (jL + i * m_ldim (_localMatrix (A k q))) =
            GA (Shift k ca r + jL * r) (Shift q ra c + i * c)).
  { intros k q i jL Hkq Hi HjL. destruct (Hrep k q Hkq) as [Hwf He].
    destruct Hwf as [_ [_ [_ [_ [_ [_ [_ [HsA [_ [_ [HrsA [HmhA [HmwA _]]]]]]]]]]]]].
    unfold GetLocalEntry, Matrix_Get, LocalHeight, LocalWidth, ColShift, RowShift in He.
    rewrite He by (rewrite ?HmhA, ?HmwA; assumption).
    rewrite HsA, HrsA. reflexivity. }
  assert (Hfinal : forall (P : Z -> Z) w2,
            (forall q, lh q * MaxLocalLength w r <= P q) ->
            (forall k q, on_grid r c k q -> exists g,
               w2 k q = Ret (Normal tt, fin P k q g) /\
               forall m jL i, 0 <= m < r -> 0 <= jL < LocalLength w (Shift m ca r) r ->
                 0 <= i < lh q ->
                 g (P q + m * P q + (jL * lh q + i)) =
                 op (GA (Shift m ca r + jL * r) (Shift q b c + i * c))) ->
            run_world r c 2 W = Some w2 ->
            exists B',
              returns r c (call r c 2 (fun k q => TransposeFrom_with op (A k q)) B)
                      (fun _ _ => tt) B' /\
              MR_STAR_represents r c B' h w b (fun i j => op (GA j i))).
  { intros P w2 HP Hw2 Hrun.
    exists (fun k q => match w2 k q with Ret (_, d') => d' | _ => B k q end). split.
    - exists w2. split; [exact Hrun|].
      intros k q Hkq. destruct (Hw2 k q Hkq) as [g [-> _]]. reflexivity.
    - intros k q Hkq. destruct (Hw2 k q Hkq) as [g [-> Hg]].
      apply (gathered_columns_represent (fun i j => op (GA j i)) (B k q) b ca k q (P q) g
               Hkq Hh0 Hw0 Hbr (HP q) Hg). }
  destruct (Z.eq_dec ra b) as [Eab|Hne].
  - (* aligned: one all-gather *)
    subst b.
    set (P := fun q => Z.max (lh q * MaxLocalLength w r) MIN_COLL_MSG).
    destruct (gather_world r c W (fun _ => 0) P P
                (fun k q => for_loop (Z.to_nat (LocalLength w (Shift k ca r) r))
                   (fun jLocal buf =>
                      for_loop (Z.to_nat (lh q))
                        (fun iLocal buf =>
                           upd buf (0 + (iLocal + jLocal * lh q))
                               (op (m_data (_localMatrix (A k q))
                                      (jLocal + iLocal * m_ldim (_localMatrix (A k q))))))
                        buf)
                   uninit)
                (fin P) Hr Hc) as [w2 [Hrun Hw2]].
    { intros k q Hkq. destruct (Hrep k q Hkq) as [Hwf _].
      exact (TransposeFrom_aligned op (A k q) (B k q) ca ra k q Hkq Hwf (Htgt k q Hkq)). }
    apply (Hfinal P w2); [intros q; unfold P; lia | | exact Hrun].
    intros k q Hkq. destruct (Hw2 k q Hkq) as [g [Hg Hspec]].
    exists g. split; [exact Hg|].
    intros m jL i Hm HjL Hi.
    assert (Hfit : 0 <= jL * lh q + i < P q).
    { apply (portion_fits (lh q) (LocalLength w (Shift m ca r) r) (MaxLocalLength w r));
        [exact Hi | exact HjL | | unfold P; lia].
      apply LocalLength_le_Max; [exact Hr | apply Shift_range; exact Hr]. }
    rewrite (Hspec m (jL * lh q + i) Hm Hfit).
    rewrite pack_transposed by assumption.
    rewrite Hent; [reflexivity | destruct Hkq; split; assumption | exact Hi | exact HjL].
  - (* unaligned: a send-receive within the grid row first *)
    set (P := Z.max (MaxLocalLength h c * MaxLocalLength w r) MIN_COLL_MSG).
    set (src := fun (_ q : Z) => (q + c + ra - b) mod c).
    set (dst := fun (_ q : Z) => (q + c + b - ra) mod c).
    assert (Hsrc : forall q, 0 <= src 0 q < c) by (intros q; apply Z.mod_pos_bound; exact Hc).
    assert (Hdst : forall q, 0 <= dst 0 q < c) by (intros q; apply Z.mod_pos_bound; exact Hc).
    assert (Hlhsrc : forall q, LocalLength h (Shift (src 0 q) ra c) c = lh q).
    { intros q. unfold lh, src. rewrite recv_shift by exact Hc. reflexivity. }
    destruct (exchange_gather_world r c W MRComm P P 0 P src dst
                (fun k q => for_loop (Z.to_nat (LocalLength w (Shift k ca r) r))
                   (fun jLocal buf =>
                      for_loop (Z.to_nat (LocalLength h (Shift q ra c) c))
                        (fun iLocal buf =>
                           upd buf (P + (iLocal + jLocal * LocalLength h (Shift q ra c) c))
                               (op (m_data (_localMatrix (A k q))
                                      (jLocal + iLocal * m_ldim (_localMatrix (A k q))))))
                        buf)
                   uninit)
                (fin (fun _ => P)) Hr Hc) as [w2 [Hrun Hw2]].
    { intros k q Hkq. destruct (Hrep k q Hkq) as [Hwf _].
      exact (TransposeFrom_unaligned op (A k q) (B k q) ca ra b k q Hkq Hwf
               (Htgt k q Hkq) Hne). }
    { intros k q [Hk Hq]. cbn [comm_size comm_peer comm_rank fst snd].
      split; [apply Hsrc|]. split; [apply Hdst|].
      split; [split; [exact Hk | apply Hsrc]|].
      split; [split; [exact Hk | apply Hdst]|].
      unfold src, dst. split; apply send_recv_inverse; assumption. }
    assert (HlhMax : forall q, lh q <= MaxLocalLength h c).
    { intros q. apply LocalLength_le_Max; [exact Hc | apply Shift_range; exact Hc]. }
    assert (HM0 : 0 <= MaxLocalLength w r) by apply LocalLength_nonneg.
    apply (Hfinal (fun _ => P) w2); [intros q; specialize (HlhMax q); unfold P; nia | | exact Hrun].
    intros k q Hkq. destruct (Hw2 k q Hkq) as [g [Hg Hspec]].
    exists g. split; [exact Hg|].
    intros m jL i Hm HjL Hi.
    assert (Hfit : 0 <= jL * lh q + i < P).
    { apply (portion_fits (lh q) (LocalLength w (Shift m ca r) r) (MaxLocalLength w r));
        [exact Hi | exact HjL | | specialize (HlhMax q); unfold P; nia].
      apply LocalLength_le_Max; [exact Hr | apply Shift_range; exact Hr]. }
    rewrite (Hspec m (jL * lh q + i) Hm Hfit).
    cbn [comm_peer fst snd]. change (src m q) with (src 0 q).
    rewrite (Hlhsrc q).
    rewrite pack_transposed by assumption.
    rewrite Hent; [| split; [exact Hm | apply Hsrc] | rewrite Hlhsrc; exact Hi | exact HjL].
    unfold src. rewrite recv_shift by exact Hc. reflexivity.
Qed.

(** ** Redistribution from [VR,* ]: gathering rows within a grid column *)

(** The shift of a process over all [r*c] processes refines its shift over
    the grid columns. *)
Lemma VR_shift_refines (q k v : Z) :
  0 <= q < c -> 0 <= k < r -> 0 <= v ->
  let sk := Shift (q + c * k) v (r * c) in
  let s := Shift q (v mod c) c in
  0 <= sk < r * c /\ 0 <= s < c /\ sk mod c = s /\
  0 <= (sk - s) / c < r /\ s + (sk - s) / c * c = sk /\
  Z.quot (sk - s) c = (sk - s) / c.
Proof.
  intros Hq Hk Hv sk s.
  assert (Hp : 0 < r * c) by nia.
  pose proof (Shift_range (q + c * k) v (r * c) Hp) as Hsk. fold sk in Hsk.
  pose proof (Shift_range q (v mod c) c Hc) as Hs. fold s in Hs.
  assert (Hmod : sk mod c = s).
  { unfold sk, s, Shift.
    rewrite (Z.mod_mod_divide _ (r * c) c) by (exists r; reflexivity).
    rewrite (mod_eq_by (q + c * k - v + r * c) (q - v) c (k + r)) by lia.
    rewrite <- (Zplus_mod_idemp_l (q - v mod c)), Zminus_mod_idemp_r, Zplus_mod_idemp_l.
    symmetry. apply (mod_eq_by _ _ c 1). lia. }
  pose proof (Z.div_mod sk c ltac:(lia)) as Hdm. rewrite Hmod in Hdm.
  assert (Hdiv : (sk - s) / c = sk / c).
  { symmetry. apply Z.div_unique with (r := 0); lia. }
  assert (Hdr : 0 <= sk / c < r).
  { split; [apply Z.div_pos; lia | apply Z.div_lt_upper_bound; lia]. }
  rewrite Hdiv.
  repeat split; try lia.
  rewrite Z.quot_div_nonneg by lia. exact Hdiv.
Qed.

(** The local row of the target that holds local row [iA] of the portion of
    grid row [k]. *)
Lemma VR_row (q k v iA : Z) :
  0 <= q < c -> 0 <= k < r -> 0 <= v ->
  let sk := Shift (q + c * k) v (r * c) in
  let s := Shift q (v mod c) c in
  0 <= iA < LocalLength h sk (r * c) ->
  0 <= (sk - s) / c + iA * r < LocalLength h s c /\
  s + ((sk - s) / c + iA * r) * c = sk + iA * (r * c).
Proof.
  intros Hq Hk Hv sk s HiA.
  destruct (VR_shift_refines q k v Hq Hk Hv) as [Hsk [Hs [Hmod [Ht [Hts _]]]]].
  fold sk s in Hsk, Hs, Hmod, Ht, Hts.
  assert (Hp : 0 < r * c) by nia.
  destruct (global_index iA h sk (r * c) Hp Hsk HiA) as [Hrow _].
  assert (E : s + ((sk - s) / c + iA * r) * c = sk + iA * (r * c)) by nia.
  split; [|exact E].
  split; [nia|].
  apply (LocalLength_lt h s c _ Hc Hs); [nia|]. rewrite E. lia.
Qed.

(** The grid row whose portion holds global row [i] of process column
    [q], and the local row there. *)
Lemma VR_owner (q v i : Z) :
  0 <= q < c -> 0 <= v -> 0 <= i < h -> i mod c = Shift q (v mod c) c ->
  let k0 := ((i + v) mod (r * c)) / c in
  0 <= k0 < r /\ Shift (q + c * k0) v (r * c) = i mod (r * c) /\
  0 <= (i - i mod (r * c)) / (r * c) < LocalLength h (i mod (r * c)) (r * c) /\
  i mod (r * c) + (i - i mod (r * c)) / (r * c) * (r * c) = i.
Proof.
  intros Hq Hv Hi Him k0.
  assert (Hp : 0 < r * c) by nia.
  pose proof (Z.mod_pos_bound (i + v) (r * c) Hp) as Hrho.
  set (rho := (i + v) mod (r * c)) in *.
  assert (Hrc : rho mod c = q).
  { unfold rho. rewrite (Z.mod_mod_divide _ (r * c) c) by (exists r; reflexivity).
    rewrite <- Zplus_mod_idemp_l, Him. unfold Shift.
    rewrite Zplus_mod_idemp_l.
    rewrite <- (Zplus_mod_idemp_r v), <- Z.add_assoc, (Z.add_comm c), Z.add_assoc.
    rewrite <- (Zplus_mod_idemp_l (q - v mod c + v mod c)).
    replace (q - v mod c + v mod c) with q by lia.
    rewrite Zplus_mod_idemp_l.
    rewrite (mod_eq_by (q + c) q c 1) by lia. apply Z.mod_small. exact Hq. }
  pose proof (Z.div_mod rho c ltac:(lia)) as Hdm. rewrite Hrc in Hdm.
  assert (Hk0 : 0 <= k0 < r).
  { unfold k0. split; [apply Z.div_pos; lia | apply Z.div_lt_upper_bound; lia]. }
  split; [exact Hk0|].
  assert (Erho : q + c * k0 = rho) by (unfold k0; lia).
  rewrite Erho. unfold rho.
  split; [apply owner_shift; exact Hp|].
  destruct (local_index i h (i mod (r * c)) (r * c) Hp Hi eq_refl) as [Hloc [Hglob _]].
  split; assumption.
Qed.

(** The unpack loop of the redistribution from [VR,* ]: local row [iL] of
    the target, that is global row [i = s + iL*c], comes from the portion
    of grid row [((i + v) mod (r*c)) / c], where it is local row
    [(i - i mod (r*c)) / (r*c)]. *)
Lemma unpack_VR_STAR_entry (q v ld off P : Z) (gathered init : Buffer) (iL j : Z) :
  0 <= q < c -> 0 <= v ->
  let s := Shift q (v mod c) c in
  LocalLength h s c <= ld -> 0 <= iL < LocalLength h s c -> 0 <= j < w ->
  let i := s + iL * c in
  unpack_VR_STAR r c (r * c) q h w s ld v gathered off P init (iL + j * ld) =
  gathered (off + ((i + v) mod (r * c)) / c * P +
            ((i - i mod (r * c)) / (r * c) + j * LocalLength h (i mod (r * c)) (r * c))).
Proof.
  intros Hq Hv s Hld HiL Hj i.
  assert (Hp : 0 < r * c) by nia.
  unfold unpack_VR_STAR, RawShift, RawLocalLength.
  set (sk := fun k => Shift (q + c * k) v (r * c)).
  assert (Hquot : forall k, 0 <= k < r -> Z.quot (sk k - s) c = (sk k - s) / c).
  { intros k Hk. destruct (VR_shift_refines q k v Hq Hk Hv) as [_ [_ [_ [_ [_ E]]]]]. exact E. }
  assert (Hinj : forall k1 j1 i1 k2 j2 i2 : Z,
    0 <= k1 < Z.of_nat (Z.to_nat r) -> 0 <= j1 < Z.of_nat (Z.to_nat w) ->
    0 <= i1 < Z.of_nat (Z.to_nat (LocalLength h (sk k1) (r * c))) ->
    0 <= k2 < Z.of_nat (Z.to_nat r) -> 0 <= j2 < Z.of_nat (Z.to_nat w) ->
    0 <= i2 < Z.of_nat (Z.to_nat (LocalLength h (sk k2) (r * c))) ->
    Z.quot (sk k1 - s) c + i1 * r + j1 * ld = Z.quot (sk k2 - s) c + i2 * r + j2 * ld ->
    k1 = k2 /\ j1 = j2 /\ i1 = i2).
  { intros k1 j1 i1 k2 j2 i2 Hk1 Hj1 Hi1 Hk2 Hj2 Hi2 E.
    rewrite Z2Nat.id in Hi1, Hi2 by apply LocalLength_nonneg.
    rewrite Z2Nat.id in Hk1, Hk2 by lia.
    rewrite (Hquot k1 Hk1), (Hquot k2 Hk2) in E.
    destruct (VR_row q k1 v i1 Hq Hk1 Hv Hi1) as [Hr1 Hg1].
    destruct (VR_row q k2 v i2 Hq Hk2 Hv Hi2) as [Hr2 Hg2].
    fold s in Hr1, Hg1, Hr2, Hg2. fold (sk k1) in Hr1, Hg1. fold (sk k2) in Hr2, Hg2.
    destruct (panel_index_inj ((sk k1 - s) / c + i1 * r) j1 ((sk k2 - s) / c + i2 * r) j2 ld)
      as [Erow Ej]; [lia | lia | exact E |].
    assert (Eg : sk k1 + i1 * (r * c) = sk k2 + i2 * (r * c)) by (rewrite <- Hg1, <- Hg2, Erow; reflexivity).
    pose proof (Shift_range (q + c * k1) v (r * c) Hp) as Hs1. fold (sk k1) in Hs1.
    pose proof (Shift_range (q + c * k2) v (r * c) Hp) as Hs2. fold (sk k2) in Hs2.
    assert (Es : sk k1 = sk k2).
    { rewrite <- (Z.mod_small (sk k1) (r * c)) by lia.
      rewrite <- (Z.mod_small (sk k2) (r * c)) by lia.
      apply (mod_eq_by _ _ (r * c) (i2 - i1)). lia. }
    assert (Ek : q + c * k1 = q + c * k2).
    { apply (Shift_inj _ _ v (r * c)); [nia | nia | exact Es]. }
    assert (Ek' : k1 = k2) by nia.
    repeat split; [exact Ek' | exact Ej |]. nia. }
  assert (HW := Writes_fill3 (Z.to_nat r) (fun _ => Z.to_nat w)
                  (fun k _ => Z.to_nat (LocalLength h (sk k) (r * c)))
                  (fun k j iLocal => Z.quot (sk k - s) c + iLocal * r + j * ld)
                  (fun k j iLocal =>
                     gathered (off + k * P + (iLocal + j * LocalLength h (sk k) (r * c))))
                  Hinj).
  cbv beta in HW.
  apply (Writes_hit _ _ init _ _ HW).
  destruct (VR_shift_refines q 0 v Hq ltac:(lia) Hv) as [_ [Hs _]]. fold s in Hs.
  destruct (global_index iL h s c Hc Hs HiL) as [Hrow [Hmodc _]]. fold i in Hrow, Hmodc.
  destruct (VR_owner q v i Hq Hv Hrow Hmodc) as [Hk0 [Hsk0 [Hloc Hglob]]].
  set (k0 := ((i + v) mod (r * c)) / c) in *.
  exists k0. split; [lia|].
  exists j. split; [lia|].
  exists ((i - i mod (r * c)) / (r * c)). unfold sk. rewrite Hsk0.
  split; [rewrite Z2Nat.id by apply LocalLength_nonneg; exact Hloc|].
  split; [|reflexivity].
  pose proof (Hquot k0 Hk0) as Hq0. unfold sk in Hq0. rewrite Hsk0 in Hq0. rewrite Hq0.
  destruct (VR_shift_refines q k0 v Hq Hk0 Hv) as [_ [_ [_ [_ [Hts _]]]]].
  fold s in Hts. rewrite Hsk0 in Hts.
  assert (E : iL = (i mod (r * c) - s) / c + (i - i mod (r * c)) / (r * c) * r).
  { unfold i in *. nia. }
  rewrite E at 1. reflexivity.
Qed.

(** The program of one process for [B = A], [A] a [VR,* ] matrix, when the
    column alignment of the target is that of the source modulo the grid
    width. *)
Lemma assign_VR_STAR_aligned (A B : DistMatrix) (a k q : Z) :
  on_grid r c k q ->
  VR_STAR_wf r c k q A h w a -> MR_STAR_target r c k q B (a mod c) (a mod c) ->
  let lhA := LocalLength h (Shift (q + c * k) a (r * c)) (r * c) in
  let lh := LocalLength h (Shift q (a mod c) c) c in
  let P := Z.max (MaxLocalLength h (r * c) * w) MIN_COLL_MSG in
  assign_VR_STAR A B =
  AllGather
    (for_loop (Z.to_nat w)
       (fun j buf => memcpy buf (0 + j * lhA) (m_data (_localMatrix A))
                            (j * m_ldim (_localMatrix A)) lhA)
       uninit)
    0 P P MCComm
    (fun gathered =>
       Ret (Normal tt,
            set_localMatrix (resized r c h w k q (a mod c) B)
              (Matrix_with_data (_localMatrix (resized r c h w k q (a mod c) B))
                 (unpack_VR_STAR r c (r * c) q h w (Shift q (a mod c) c) (Z.max lh 1) a
                    gathered P P uninit)))).
Proof.
  intros Hkq Hwf Htgt lhA lh P. subst lhA lh P.
  destruct Hwf as [HgA [HhA [HwA [Hh0 [Hw0 [HaA [Har [HsA [HmhA [HmwA _]]]]]]]]]].
  destruct Htgt as [HgB [HvB [HmvB [HlB [HmlB [Hbr Hcon]]]]]].
  assert (Hneg : (h <? 0) || (w <? 0) = false).
  { destruct (Z.ltb_spec h 0), (Z.ltb_spec w 0); try lia; reflexivity. }
  assert (Hgrid : Grid.eqb (Grid.mk r c k q) (Grid.mk r c k q) = true)
    by apply Grid_eqb_refl.
  assert (Hrem : Z.rem a c = a mod c) by (apply Z.rem_mod_nonneg; lia).
  assert (Haa : (a mod c =? a mod c) = true) by apply Z.eqb_refl.
  unfold assign_VR_STAR, assign_asserts, ResizeTo, allgather, resized, debug.
  destruct (_constrainedColAlignment B) eqn:HcB;
    [destruct Hcon as [HaB HsB]|];
    destruct release; unfold_monad;
    unfold Viewing, ConstrainedColAlignment, ColAlignment, RowAlignment, ColShift, Height,
      Width, LocalHeight, LocalWidth, LocalLDim, LocalBuffer, LockedLocalBuffer,
      Matrix_ResizeTo;
    repeat (progress (cbn; rewrite ?HvB, ?HlB, ?HmvB, ?HgA, ?HgB, ?Hgrid, ?HhA, ?HwA, ?Hneg,
                        ?HcB, ?HaB, ?HaA, ?HsB, ?Hrem, ?Haa, ?HmhA, ?HmwA));
    unfold set_localMatrix, set_size, set_colAlignment, Matrix_with_data; cbn;
    rewrite ?HvB, ?HlB, ?HgB, ?HcB, ?HaB, ?HsB; reflexivity.
Qed.

(** The program of one process when the alignments differ. *)
Lemma assign_VR_STAR_unaligned (A B : DistMatrix) (a b k q : Z) :
  on_grid r c k q ->
  VR_STAR_wf r c k q A h w a -> MR_STAR_target r c k q B (a mod c) b -> a mod c <> b ->
  let lhA := LocalLength h (Shift (q + c * k) a (r * c)) (r * c) in
  let lh := LocalLength h (Shift q b c) c in
  let P := Z.max (MaxLocalLength h (r * c) * w) MIN_COLL_MSG in
  assign_VR_STAR A B =
  SendRecv
    (for_loop (Z.to_nat w)
       (fun j buf => memcpy buf (P + j * lhA) (m_data (_localMatrix A))
                            (j * m_ldim (_localMatrix A)) lhA)
       uninit)
    P P ((q + c * k + r * c + b - a) mod (r * c)) 0 P
    ((q + c * k + r * c + a - b) mod (r * c)) VRComm
    (fun received =>
       AllGather received 0 P P MCComm
         (fun gathered =>
            Ret (Normal tt,
                 set_localMatrix (resized r c h w k q b B)
                   (Matrix_with_data (_localMatrix (resized r c h w k q b B))
                      (unpack_VR_STAR r c (r * c) q h w (Shift q b c) (Z.max lh 1) b
                         gathered P P uninit))))).
Proof.
  intros Hkq Hwf Htgt Hne lhA lh P. subst lhA lh P.
  destruct Hwf as [HgA [HhA [HwA [Hh0 [Hw0 [HaA [Har [HsA [HmhA [HmwA _]]]]]]]]]].
  destruct Htgt as [HgB [HvB [HmvB [HlB [HmlB [Hbr Hcon]]]]]].
  assert (Hneg : (h <? 0) || (w <? 0) = false).
  { destruct (Z.ltb_spec h 0), (Z.ltb_spec w 0); try lia; reflexivity. }
  assert (Hgrid : Grid.eqb (Grid.mk r c k q) (Grid.mk r c k q) = true)
    by apply Grid_eqb_refl.
  assert (Hrem : Z.rem a c = a mod c) by (apply Z.rem_mod_nonneg; lia).
  assert (Hba : (b =? a mod c) = false) by (apply Z.eqb_neq; lia).
  assert (Hs1 : Z.rem (q + c * k + r * c + b - a) (r * c) =
                (q + c * k + r * c + b - a) mod (r * c)).
  { apply Z.rem_mod_nonneg; destruct Hkq; nia. }
  assert (Hs2 : Z.rem (q + c * k + r * c + a - b) (r * c) =
                (q + c * k + r * c + a - b) mod (r * c)).
  { apply Z.rem_mod_nonneg; destruct Hkq; nia. }
  destruct (_constrainedColAlignment B) eqn:HcB; [|congruence].
  destruct Hcon as [HaB HsB].
  unfold assign_VR_STAR, assign_asserts, ResizeTo, allgather, sendrecv, resized, debug.
  destruct release; unfold_monad;
    unfold Viewing, ConstrainedColAlignment, ColAlignment, RowAlignment, ColShift, Height,
      Width, LocalHeight, LocalWidth, LocalLDim, LocalBuffer, LockedLocalBuffer,
      Matrix_ResizeTo, Grid.Size, Grid.VRRank;
    repeat (progress (cbn; rewrite ?HvB, ?HlB, ?HmvB, ?HgA, ?HgB, ?Hgrid, ?HhA, ?HwA, ?Hneg,
                        ?HcB, ?HaB, ?HaA, ?HsB, ?Hrem, ?Hba, ?Hs1, ?Hs2, ?HmhA, ?HmwA));
    unfold set_localMatrix, set_size, set_colAlignment, Matrix_with_data; cbn;
    rewrite ?HvB, ?HlB, ?HgB, ?HcB, ?HaB, ?HsB; reflexivity.
Qed.

(** The target of process [(k,q)] once the portions of its grid column are
    unpacked, when the portion of grid row [m] holds the rows
    [Shift (q + c*m) v (r*c) + iA*(r*c)]. *)
Lemma gathered_rows_represent (G : Z -> Z -> T) (B : DistMatrix) (v k q P : Z)
    (g : Buffer) :
  on_grid r c k q -> 0 <= h -> 0 <= w -> 0 <= v ->
  let b := v mod c in
  let lh := LocalLength h (Shift q b c) c in
  (forall m iA j, 0 <= m < r ->
     0 <= iA < LocalLength h (Shift (q + c * m) v (r * c)) (r * c) -> 0 <= j < w ->
     g (P + m * P + (iA + j * LocalLength h (Shift (q + c * m) v (r * c)) (r * c))) =
     G (Shift (q + c * m) v (r * c) + iA * (r * c)) j) ->
  let B' := set_localMatrix (resized r c h w k q b B)
              (Matrix_with_data (_localMatrix (resized r c h w k q b B))
                 (unpack_VR_STAR r c (r * c) q h w (Shift q b c) (Z.max lh 1) v
                    g P P uninit)) in
  MR_STAR_wf r c k q B' h w b /\
  forall iLocal j, 0 <= iLocal < LocalHeight B' -> 0 <= j < w ->
    GetLocalEntry B' iLocal j = G (ColShift B' + iLocal * c) j.
Proof.
  intros Hkq Hh0 Hw0 Hv b lh Hg B'. subst B' lh b.
  set (b := v mod c) in *.
  set (lh := LocalLength h (Shift q b c) c) in *.
  assert (Hlh0 : 0 <= lh) by apply LocalLength_nonneg.
  assert (Hb : 0 <= b < c) by (apply Z.mod_pos_bound; exact Hc).
  destruct Hkq as [Hk Hq].
  split.
  - unfold MR_STAR_wf, Matrix_wf, resized. cbn. fold lh. repeat split; lia.
  - unfold LocalHeight, GetLocalEntry, Matrix_Get, ColShift, resized. cbn. fold lh.
    intros iLocal j HiL Hj.
    pose proof (unpack_VR_STAR_entry q v (Z.max lh 1) P P g uninit iLocal j Hq Hv) as Hun.
    cbv zeta in Hun. fold b in Hun. fold lh in Hun.
    rewrite Hun by lia.
    pose proof (Shift_range q b c Hc) as Hs.
    destruct (global_index iLocal h (Shift q b c) c Hc Hs HiL) as [Hrow [Hmodc _]].
    destruct (VR_owner q v (Shift q b c + iLocal * c) Hq Hv Hrow Hmodc)
      as [Hk0 [Hsk0 [Hloc Hglob]]].
    rewrite <- Hsk0 in Hloc, Hglob |- *.
    rewrite Hg by assumption.
    rewrite Hglob. reflexivity.
Qed.

(** X9. [B = A] from a [VR,* ] matrix, on the whole grid.  Whatever the
    alignments, every process returns normally within two rounds of
    collectives (a send-receive over the whole grid when the target's
    column alignment differs from the source's modulo the grid width,
    then an all-gather within the grid column), and the [MR,* ] target
    holds the matrix of the source under its own column alignment. *)
Theorem assign_VR_STAR_world (G : Z -> Z -> T) (A B : World DistMatrix) (a b : Z) :
  VR_STAR_represents r c A h w a G ->
  (forall k q, on_grid r c k q -> MR_STAR_target r c k q (B k q) (a mod c) b) ->
  exists B',
    returns r c (call r c 2 (fun k q => assign_VR_STAR (A k q)) B) (fun _ _ => tt) B' /\
    MR_STAR_represents r c B' h w b G.
Proof.
  intros Hrep Htgt.
  assert (H00 : on_grid r c 0 0) by (unfold on_grid; lia).
  assert (Hp : 0 < r * c) by nia.
  destruct (Hrep 0 0 H00) as [[_ [_ [_ [Hh0 [Hw0 [_ [Har _]]]]]]] _].
  destruct (Htgt 0 0 H00) as [_ [_ [_ [_ [_ [Hbr _]]]]]].
  set (W := fun k q => assign_VR_STAR (A k q) (B k q)).
  set (P := Z.max (MaxLocalLength h (r * c) * w) MIN_COLL_MSG).
  set (lh := fun q => LocalLength h (Shift q b c) c).
  set (lhA := fun k q => LocalLength h (Shift (q + c * k) a (r * c)) (r * c)).
  set (fin := fun v k q g =>
         set_localMatrix (resized r c h w k q b (B k q))
           (Matrix_with_data (_localMatrix (resized r c h w k q b (B k q)))
              (unpack_VR_STAR r c (r * c) q h w (Shift q b c) (Z.max (lh q) 1) v
                 g P P uninit))).
  assert (Hent : forall k q iA j, on_grid r c k q ->
            0 <= iA < lhA k q -> 0 <= j < w ->
            m_data (_localMatrix (A k q)) (iA + j * m_ldim (_localMatrix (A k q))) =
            G (Shift (q + c * k) a (r * c) + iA * (r * c)) j).
  { intros k q iA j Hkq HiA Hj. destruct (Hrep k q Hkq) as [Hwf He].
    destruct Hwf as [_ [_ [_ [_ [_ [_ [_ [HsA [HmhA _]]]]]]]]].
    unfold GetLocalEntry, Matrix_Get, LocalHeight, ColShift in He.
    rewrite He by (rewrite ?HmhA; assumption). rewrite HsA. reflexivity. }
  assert (Hfit : forall lhm iA j, 0 <= iA < lhm -> lhm <= MaxLocalLength h (r * c) ->
            0 <= j < w -> 0 <= iA + j * lhm < P).
  { intros lhm iA j HiA Hmax Hj. unfold P. nia. }
  assert (Hfinal : forall v w2, 0 <= v -> v mod c = b ->
            (forall k q, on_grid r c k q -> exists g,
               w2 k q = Ret (Normal tt, fin v k q g) /\
               forall m iA j, 0 <= m < r ->
                 0 <= iA < LocalLength h (Shift (q + c * m) v (r * c)) (r * c) -> 0 <= j < w ->
                 g (P + m * P + (iA + j * LocalLength h (Shift (q + c * m) v (r * c)) (r * c))) =
                 G (Shift (q + c * m) v (r * c) + iA * (r * c)) j) ->
            run_world r c 2 W = Some w2 ->
            exists B',
              returns r c (call r c 2 (fun k q => assign_VR_STAR (A k q)) B) (fun _ _ => tt) B' /\
              MR_STAR_represents r c B' h w b G).
  { intros v w2 Hv Hvb Hw2 Hrun.
    exists (fun k q => match w2 k q with Ret (_, d') => d' | _ => B k q end). split.
    - exists w2. split; [exact Hrun|].
      intros k q Hkq. destruct (Hw2 k q Hkq) as [g [-> _]]. reflexivity.
    - intros k q Hkq. destruct (Hw2 k q Hkq) as [g [-> Hg]].
      pose proof (gathered_rows_represent G (B k q) v k q P g Hkq Hh0 Hw0 Hv) as H.
      cbv zeta in H. rewrite Hvb in H. apply H. exact Hg. }
  destruct (Z.eq_dec (a mod c) b) as [Eab|Hne].
  - (* aligned: one all-gather *)
    subst b.
    destruct (gather_world r c W (fun _ => 0) (fun _ => P) (fun _ => P)
                (fun k q => for_loop (Z.to_nat w)
                   (fun j buf => memcpy buf (0 + j * lhA k q) (m_data (_localMatrix (A k q)))
                                        (j * m_ldim (_localMatrix (A k q))) (lhA k q))
                   uninit)
                (fin a) Hr Hc) as [w2 [Hrun Hw2]].
    { intros k q Hkq. destruct (Hrep k q Hkq) as [Hwf _].
      exact (assign_VR_STAR_aligned (A k q) (B k q) a k q Hkq Hwf (Htgt k q Hkq)). }
    apply (Hfinal a w2); [lia | reflexivity | | exact Hrun].
    intros k q Hkq. destruct (Hw2 k q Hkq) as [g [Hg Hspec]].
    exists g. split; [exact Hg|].
    intros m iA j Hm HiA Hj. fold (lhA m q) in HiA |- *.
    assert (Hmax : lhA m q <= MaxLocalLength h (r * c)).
    { apply LocalLength_le_Max; [exact Hp | apply Shift_range; exact Hp]. }
    rewrite (Hspec m (iA + j * lhA m q) Hm (Hfit _ _ _ HiA Hmax Hj)).
    replace (iA + j * lhA m q) with (j * lhA m q + iA) by lia.
    rewrite pack_columns by lia.
    apply Hent; [destruct Hkq; split; assumption | exact HiA | exact Hj].
  - (* unaligned: a send-receive over the whole grid first *)
    set (src := fun k q => (q + c * k + r * c + a - b) mod (r * c)).
    set (dst := fun k q => (q + c * k + r * c + b - a) mod (r * c)).
    assert (Hsrc : forall k q, 0 <= src k q < r * c)
      by (intros k q; apply Z.mod_pos_bound; exact Hp).
    assert (Hdst : forall k q, 0 <= dst k q < r * c)
      by (intros k q; apply Z.mod_pos_bound; exact Hp).
    assert (Hpeer : forall rho, 0 <= rho < r * c ->
              on_grid r c (rho / c) (rho mod c) /\ rho mod c + c * (rho / c) = rho).
    { intros rho Hrho. pose proof (Z.div_mod rho c ltac:(lia)) as Hdm.
      pose proof (Z.mod_pos_bound rho c Hc) as Hm.
      split; [|lia]. split; [|exact Hm].
      split; [apply Z.div_pos; lia | apply Z.div_lt_upper_bound; lia]. }
    assert (Hlhsrc : forall k q,
              Shift (src k q) a (r * c) = Shift (q + c * k) b (r * c)).
    { intros k q. unfold src.
      replace (q + c * k + r * c + a - b) with (q + c * k + (r * c) + a - b) by lia.
      apply recv_shift. exact Hp. }
    destruct (exchange_gather_world r c W VRComm P P 0 P src dst
                (fun k q => for_loop (Z.to_nat w)
                   (fun j buf => memcpy buf (P + j * lhA k q) (m_data (_localMatrix (A k q)))
                                        (j * m_ldim (_localMatrix (A k q))) (lhA k q))
                   uninit)
                (fin b) Hr Hc) as [w2 [Hrun Hw2]].
    { intros k q Hkq. destruct (Hrep k q Hkq) as [Hwf _].
      exact (assign_VR_STAR_unaligned (A k q) (B k q) a b k q Hkq Hwf (Htgt k q Hkq) Hne). }
    { intros k q [Hk Hq]. cbn [comm_size comm_peer comm_rank fst snd].
      destruct (Hpeer (src k q) (Hsrc k q)) as [Hgs Es].
      destruct (Hpeer (dst k q) (Hdst k q)) as [Hgd Ed].
      split; [apply Hsrc|]. split; [apply Hdst|].
      split; [exact Hgs|]. split; [exact Hgd|].
      assert (Hrank : 0 <= q + c * k < r * c) by nia.
      split.
      - unfold dst at 1. rewrite Es. unfold src.
        replace (q + c * k + r * c + a - b) with (q + c * k + (r * c) + a - b) by lia.
        replace ((q + c * k + (r * c) + a - b) mod (r * c) + r * c + b - a)
          with ((q + c * k + (r * c) + a - b) mod (r * c) + (r * c) + b - a) by lia.
        apply send_recv_inverse; assumption.
      - unfold src at 1. rewrite Ed. unfold dst.
        replace (q + c * k + r * c + b - a) with (q + c * k + (r * c) + b - a) by lia.
        replace ((q + c * k + (r * c) + b - a) mod (r * c) + r * c + a - b)
          with ((q + c * k + (r * c) + b - a) mod (r * c) + (r * c) + a - b) by lia.
        apply send_recv_inverse; assumption. }
    apply (Hfinal b w2); [lia | apply Z.mod_small; exact Hbr | | exact Hrun].
    intros k q Hkq. destruct (Hw2 k q Hkq) as [g [Hg Hspec]].
    exists g. split; [exact Hg|].
    intros m iA j Hm HiA Hj.
    cbn [comm_peer fst snd] in Hspec.
    destruct Hkq as [Hk Hq].
    destruct (Hpeer (src m q) (Hsrc m q)) as [Hgs Es].
    assert (ElhA : lhA (src m q / c) (src m q mod c) =
                   LocalLength h (Shift (q + c * m) b (r * c)) (r * c)).
    { unfold lhA. rewrite Es, Hlhsrc. reflexivity. }
    set (lhm := LocalLength h (Shift (q + c * m) b (r * c)) (r * c)) in *.
    assert (Hmax : lhm <= MaxLocalLength h (r * c)).
    { apply LocalLength_le_Max; [exact Hp | apply Shift_range; exact Hp]. }
    rewrite (Hspec m (iA + j * lhm) Hm (Hfit _ _ _ HiA Hmax Hj)).
    rewrite ElhA.
    replace (iA + j * lhm) with (j * lhm + iA) by lia.
    rewrite pack_columns by lia.
    rewrite Hent; [| exact Hgs | rewrite ElhA; exact HiA | exact Hj].
    rewrite Es, Hlhsrc. reflexivity.
Qed.

(** ** The collectives of a redistribution, and the locked-view guard *)


(** X10. The collectives one process issues for an assignment into an
    owning [MR,* ] target, by source distribution.  When the column
    alignments agree (as they do whenever the target's alignment is free)
    there is no send-receive: nothing at all from [MR,* ], one all-gather
    within the grid column from [MR,MC], [VR,* ] and for the transposes.
    When they differ, one send-receive comes first (within the grid row,
    over the whole grid from [VR,* ]).  Every count but that of the
    [MR,* ] exchange is padded to at least [MIN_COLL_MSG]. *)
Theorem redistribution_collectives (k q b : Z) (B : DistMatrix) :
  on_grid r c k q ->
  let lh := fun a => LocalLength h (Shift q a c) c in
  let Pu := Z.max (MaxLocalLength h c * MaxLocalLength w r) MIN_COLL_MSG in
  let Pv := Z.max (MaxLocalLength h (r * c) * w) MIN_COLL_MSG in
  let gather := fun a =>
    if a =? b
    then [(AllGatherOp, MCComm, Z.max (lh a * MaxLocalLength w r) MIN_COLL_MSG)]
    else [(SendRecvOp, MRComm, Pu); (AllGatherOp, MCComm, Pu)] in
  (forall A a, MR_STAR_wf r c k q A h w a -> MR_STAR_target r c k q B a b ->
     collectives (assign_MR_STAR A B) =
     if a =? b then [] else [(SendRecvOp, MRComm, lh a * w)]) /\
  (forall A a ra, MR_MC_wf r c k q A h w a ra -> MR_STAR_target r c k q B a b ->
     collectives (assign_MR_MC A B) = gather a) /\
  (forall op A ca ra, MC_MR_wf r c k q A w h ca ra -> MR_STAR_target r c k q B ra b ->
     collectives (TransposeFrom_with op A B) = gather ra) /\
  (forall A a, VR_STAR_wf r c k q A h w a -> MR_STAR_target r c k q B (a mod c) b ->
     collectives (assign_VR_STAR A B) =
     if a mod c =? b then [(AllGatherOp, MCComm, Pv)]
     else [(SendRecvOp, VRComm, Pv); (AllGatherOp, MCComm, Pv)]).
Proof.
  intros Hkq lh Pu Pv gather. subst gather.
  split; [|split; [|split]].
  - intros A a Hwf Htgt. destruct (Z.eqb_spec a b) as [<-|Hne].
    + destruct (assign_MR_STAR_aligned_owning r c h w A B a k q Hkq Hwf Htgt) as [m' [-> _]].
      reflexivity.
    + rewrite (assign_MR_STAR_unaligned r c h w Hc A B a b k q Hkq Hwf Htgt Hne). reflexivity.
  - intros A a ra Hwf Htgt. destruct (Z.eqb_spec a b) as [<-|Hne].
    + rewrite (assign_MR_MC_aligned A B a ra k q Hkq Hwf Htgt). reflexivity.
    + rewrite (assign_MR_MC_unaligned A B a b ra k q Hkq Hwf Htgt Hne). reflexivity.
  - intros op A ca ra Hwf Htgt. destruct (Z.eqb_spec ra b) as [<-|Hne].
    + rewrite (TransposeFrom_aligned op A B ca ra k q Hkq Hwf Htgt). reflexivity.
    + rewrite (TransposeFrom_unaligned op A B ca ra b k q Hkq Hwf Htgt Hne). reflexivity.
  - intros A a Hwf Htgt. destruct (Z.eqb_spec (a mod c) b) as [<-|Hne].
    + rewrite (assign_VR_STAR_aligned A B a k q Hkq Hwf Htgt). reflexivity.
    + rewrite (assign_VR_STAR_unaligned A B a b k q Hkq Hwf Htgt Hne). reflexivity.
Qed.

(** ** The sample objects hold the matrix they were built from *)

Lemma sample_MR_MC_represents (G : Z -> Z -> T) (a ra : Z) :
  0 <= h -> 0 <= w -> 0 <= a < c -> 0 <= ra < r ->
  MR_MC_represents r c (fun k q => sample_MR_MC (Grid.mk r c k q) h w a ra G) h w a ra G.
Proof.
  intros Hh Hw Ha Hra k q Hkq.
  pose proof (LocalLength_nonneg h (Shift q a c) c) as Hlh.
  split.
  - unfold MR_MC_wf, Matrix_wf, sample_MR_MC. cbn. repeat split; lia.
  - intros iLocal j Hi Hj.
    unfold LocalHeight, LocalWidth, GetLocalEntry, Matrix_Get, ColShift, RowShift,
      sample_MR_MC in *. cbn in *.
    set (lh := LocalLength h (Shift q a c) c) in *.
    assert (Hld : 0 < Z.max lh 1) by lia.
    rewrite Z_mod_plus_full, Z.mod_small by lia.
    rewrite Z_div_plus_full, Z.div_small by lia.
    reflexivity.
Qed.

Lemma sample_MC_MR_represents (G : Z -> Z -> T) (ca ra : Z) :
  0 <= h -> 0 <= w -> 0 <= ca < r -> 0 <= ra < c ->
  MC_MR_represents r c (fun k q => sample_MC_MR (Grid.mk r c k q) w h ca ra G) w h ca ra G.
Proof.
  intros Hh Hw Hca Hra k q Hkq.
  pose proof (LocalLength_nonneg w (Shift k ca r) r) as Hlh.
  split.
  - unfold MC_MR_wf, Matrix_wf, sample_MC_MR. cbn. repeat split; lia.
  - intros iLocal j Hi Hj.
    unfold LocalHeight, LocalWidth, GetLocalEntry, Matrix_Get, ColShift, RowShift,
      sample_MC_MR in *. cbn in *.
    set (lh := LocalLength w (Shift k ca r) r) in *.
    assert (Hld : 0 < Z.max lh 1) by lia.
    rewrite Z_mod_plus_full, Z.mod_small by lia.
    rewrite Z_div_plus_full, Z.div_small by lia.
    reflexivity.
Qed.

Lemma sample_VR_STAR_represents (G : Z -> Z -> T) (a : Z) :
  0 <= h -> 0 <= w -> 0 <= a < r * c ->
  VR_STAR_represents r c (fun k q => sample_VR_STAR (Grid.mk r c k q) h w a G) h w a G.
Proof.
  intros Hh Hw Ha k q Hkq.
  pose proof (LocalLength_nonneg h (Shift (q + c * k) a (r * c)) (r * c)) as Hlh.
  split.
  - unfold VR_STAR_wf, Matrix_wf, sample_VR_STAR. cbn. repeat split; lia.
  - intros iLocal j Hi Hj.
    unfold LocalHeight, GetLocalEntry, Matrix_Get, ColShift, sample_VR_STAR in *. cbn in *.
    set (lh := LocalLength h (Shift (q + c * k) a (r * c)) (r * c)) in *.
    assert (Hld : 0 < Z.max lh 1) by lia.
    rewrite Z_mod_plus_full, Z.mod_small by lia.
    rewrite Z_div_plus_full, Z.div_small by lia.
    reflexivity.
Qed.

(** A fresh shell follows the alignment of any source. *)
Lemma shell_follows (a k q : Z) :
  0 <= a < c -> MR_STAR_target r c k q (shell (Grid.mk r c k q)) a a.
Proof. intros Ha. unfold MR_STAR_target, shell. cbn. repeat split; lia. Qed.

Lemma sample_STAR_STAR_represents (G : Z -> Z -> T) :
  0 <= h -> 0 <= w ->
  STAR_STAR_represents r c (fun k q => sample_STAR_STAR (Grid.mk r c k q) h w G) h w G.
Proof.
  intros Hh Hw k q Hkq.
  unfold Matrix_wf, GetLocalEntry, Matrix_Get, sample_STAR_STAR. cbn.
  repeat split; try lia.
  intros i j Hi Hj.
  assert (Hld : 0 < Z.max h 1) by lia.
  rewrite Z_mod_plus_full, Z.mod_small by lia.
  rewrite Z_div_plus_full, Z.div_small by lia.
  reflexivity.
Qed.

(** A sample aligned at [b] is an owning target aligned at [b]. *)
Lemma sample_owner (h' w' b k q : Z) (G' : Z -> Z -> T) :
  0 <= b < c ->
  MR_STAR_owner r c k q (sample (Grid.mk r c k q) h' w' b G') b.
Proof. intros Hb. unfold MR_STAR_owner, sample. cbn. repeat split; lia. Qed.

(** ** [SetToRandom] and [SumOverCol]: one collective within the grid column *)

Lemma silent2_Ret {R : Type} (p : Prog2 R) : silent2 p = true -> exists x, p = Ret2 x.
Proof. destruct p; cbn; intros H; try discriminate H. eexists; reflexivity. Qed.

Lemma run_one_round2 {R : Type} (W : World (Prog2 R)) :
  (forall k q, on_grid r c k q -> exists x, deliver2 r c W k q = Some (Ret2 x)) ->
  exists w'', run_world2 r c 1 W = Some w'' /\
    forall k q, on_grid r c k q -> deliver2 r c W k q = Some (w'' k q).
Proof.
  intros Hdel. cbn [run_world2].
  destruct (finished2 r c W) eqn:Hfin.
  - exists W. split; [reflexivity|]. intros k q Hkq.
    unfold finished2 in Hfin. rewrite all_grid_true in Hfin.
    destruct (silent2_Ret _ (Hfin k q Hkq)) as [x Hx].
    unfold deliver2. rewrite Hx. reflexivity.
  - unfold step_world2.
    assert (Hall : all_grid r c (fun k q => negb (is_some (deliver2 r c W k q))) = false).
    { destruct (all_grid r c (fun k q => negb (is_some (deliver2 r c W k q)))) eqn:E;
        [|reflexivity].
      rewrite all_grid_true in E.
      assert (H00 : on_grid r c 0 0) by (unfold on_grid; lia).
      specialize (E 0 0 H00). destruct (Hdel 0 0 H00) as [x Hx]. rewrite Hx in E.
      discriminate E. }
    rewrite Hall.
    assert (Hfin' : finished2 r c
              (fun k q => match deliver2 r c W k q with Some p => p | None => W k q end) = true).
    { apply all_grid_true. intros k q Hkq. destruct (Hdel k q Hkq) as [x ->]. reflexivity. }
    rewrite Hfin'. eexists. split; [reflexivity|].
    intros k q Hkq. cbn. destruct (Hdel k q Hkq) as [x ->]. reflexivity.
Qed.

Lemma Tsum_ext (n : nat) (f g : Z -> T) :
  (forall m, 0 <= m < Z.of_nat n -> f m = g m) -> Tsum n f = Tsum n g.
Proof.
  induction n as [|n IH]; intros H; [reflexivity|].
  destruct n as [|n].
  - cbn. apply H. lia.
  - change (Tsum (S (S n)) f) with (addT (Tsum (S n) f) (f (Z.of_nat (S n)))).
    change (Tsum (S (S n)) g) with (addT (Tsum (S n) g) (g (Z.of_nat (S n)))).
    rewrite IH by (intros m Hm; apply H; lia). rewrite H by lia. reflexivity.
Qed.

(** The program of one process for [SetToRandom] and [SumOverCol]. *)
Lemma reductions_prog (rng : Z -> T) (this : DistMatrix) (a k q : Z) :
  MR_STAR_wf r c k q this h w a -> _lockedView this = false ->
  let lh := LocalLength h (Shift q a c) c in
  let ld := m_ldim (_localMatrix this) in
  let P := Z.max (lh * w) MIN_COLL_MSG in
  SetToRandom rng this =
  BroadcastBuf
    (if k =? 0
     then for_loop (Z.to_nat w)
            (fun j buf =>
               for_loop (Z.to_nat lh)
                 (fun i buf => upd buf (i + j * lh) (rng (i + j * lh))) buf)
            uninit
     else uninit)
    (lh * w) 0 MCComm
    (fun buffer =>
       Ret2 (Normal tt,
             set_localMatrix this
               (Matrix_with_data (_localMatrix this)
                  (for_loop (Z.to_nat w)
                     (fun j tb =>
                        for_loop (Z.to_nat lh)
                          (fun iLocal tb => upd tb (iLocal + j * ld) (buffer (iLocal + j * lh)))
                          tb)
                     (m_data (_localMatrix this)))))) /\
  SumOverCol this =
  AllReduceSum
    (for_loop (Z.to_nat w)
       (fun j buf => memcpy buf (0 + j * lh) (m_data (_localMatrix this)) (j * ld) lh)
       uninit)
    0 P P MCComm
    (fun buffer =>
       Ret2 (Normal tt,
             set_localMatrix this
               (Matrix_with_data (_localMatrix this)
                  (for_loop (Z.to_nat w)
                     (fun j tb => memcpy tb (j * ld) buffer (P + j * lh) lh)
                     (m_data (_localMatrix this)))))).
Proof.
  intros Hwf Hl lh ld P. subst lh ld P.
  destruct Hwf as [Hg [Hh [Hw [Hh0 [Hw0 [Ha [Har [Hs [Hmh [Hmw _]]]]]]]]]].
  unfold SetToRandom, SumOverCol, locally, debug.
  destruct release; unfold_monad;
    unfold Width, LocalHeight, LocalLDim, LocalBuffer;
    cbn; rewrite ?Hl, ?andb_false_r; cbn; rewrite ?Hg, ?Hw, ?Hmh; cbn;
    split; reflexivity.
Qed.

(** The owner and the local row of a global row, read back from the local
    row. *)
Lemma local_row_back (q a iLocal : Z) :
  0 <= q < c -> 0 <= iLocal < LocalLength h (Shift q a c) c ->
  let i := Shift q a c + iLocal * c in
  (i + a) mod c = q /\ i mod c = Shift q a c /\ (i - i mod c) / c = iLocal.
Proof.
  intros Hq HiL i.
  pose proof (Shift_range q a c Hc) as Hs.
  destruct (global_index iLocal h (Shift q a c) c Hc Hs HiL) as [_ [Hm Hb]].
  fold i in Hm, Hb. rewrite Hm.
  split; [apply owner_of_local; assumption|]. split; [reflexivity | exact Hb].
Qed.

(** X11. [SetToRandom()], called on every process of a grid of [MR,* ]
    objects of shape [h x w], returns after one broadcast within each
    grid column and leaves a consistent matrix: every grid row holds the
    values that the process of grid row 0 drew, call number
    [iLocal + j*localHeight] at local entry [(iLocal, j)]; what the other
    grid rows would have drawn is not used. *)
Theorem SetToRandom_replicates (rng : World (Z -> T)) (d : World DistMatrix) (a : Z) :
  (forall k q, on_grid r c k q ->
     MR_STAR_wf r c k q (d k q) h w a /\ _lockedView (d k q) = false) ->
  exists d',
    returns2 r c (call2 r c 1 (fun k q => SetToRandom (rng k q)) d) (fun _ _ => tt) d' /\
    MR_STAR_represents r c d' h w a
      (fun i j => rng 0 ((i + a) mod c)
                    ((i - i mod c) / c + j * LocalLength h (i mod c) c)).
Proof.
  intros Hd.
  set (W := fun k q => SetToRandom (rng k q) (d k q)).
  assert (Hprog : forall k q, on_grid r c k q -> W k q = _) by
    (intros k q Hkq; destruct (Hd k q Hkq) as [Hwf Hl];
     exact (proj1 (reductions_prog (rng k q) (d k q) a k q Hwf Hl))).
  cbv zeta in Hprog.
  assert (Hone : forall k q, on_grid r c k q -> exists d1,
    deliver2 r c W k q = Some (Ret2 (Normal tt, d1)) /\
    MR_STAR_wf r c k q d1 h w a /\
    forall iLocal j, 0 <= iLocal < LocalHeight d1 -> 0 <= j < w ->
      GetLocalEntry d1 iLocal j =
      rng 0 q (iLocal + j * LocalLength h (Shift q a c) c)).
  { intros k q [Hk Hq].
    destruct (Hd k q (conj Hk Hq)) as [Hwf Hl].
    destruct Hwf as [Hg [Hh [Hw [Hh0 [Hw0 [Ha [Har [Hs [Hmh [Hmw [Hld Hld1]]]]]]]]]]].
    unfold deliver2. rewrite (Hprog k q (conj Hk Hq)).
    cbn [comm_size comm_peer fst snd].
    rewrite (in_range_true 0 r 0) by lia.
    assert (H0 : 0 <= 0 < r) by lia.
    rewrite (Hprog 0 q (conj H0 Hq)).
    rewrite !Z.eqb_refl. cbn [andb Comm_eqb].
    eexists. split; [reflexivity|].
    set (lh := LocalLength h (Shift q a c) c) in *.
    split.
    - unfold MR_STAR_wf, Matrix_wf. cbn. fold lh. repeat split; assumption || lia.
    - unfold GetLocalEntry, Matrix_Get, LocalHeight. cbn.
      intros iLocal j HiL Hj. rewrite Hmh in HiL.
      rewrite (panel_fill w lh (m_ldim (_localMatrix (d k q)))) by lia.
      cbv beta. rewrite in_range_true by nia.
      rewrite (panel_fill w lh lh) by lia. reflexivity. }
  destruct (run_one_round2 W) as [w'' [Hrun Hw'']].
  { intros k q Hkq. destruct (Hone k q Hkq) as [d1 [Hd1 _]]. eexists. exact Hd1. }
  exists (fun k q => match w'' k q with Ret2 (_, d1) => d1 | _ => d k q end).
  split.
  - exists w''. split; [exact Hrun|].
    intros k q Hkq. destruct (Hone k q Hkq) as [d1 [Hd1 _]].
    rewrite (Hw'' k q Hkq) in Hd1. injection Hd1 as ->. reflexivity.
  - intros k q Hkq. destruct (Hone k q Hkq) as [d1 [Hd1 [Hwf1 Hent1]]].
    rewrite (Hw'' k q Hkq) in Hd1. injection Hd1 as ->.
    split; [exact Hwf1|].
    intros iLocal j HiL Hj. rewrite (Hent1 iLocal j HiL Hj).
    destruct Hwf1 as [_ [_ [_ [_ [_ [_ [_ [Hs1 [Hmh1 _]]]]]]]]].
    unfold LocalHeight in HiL. rewrite Hmh1 in HiL. unfold ColShift. rewrite Hs1.
    destruct Hkq as [Hk Hq].
    destruct (local_row_back q a iLocal Hq HiL) as [E1 [E2 E3]].
    rewrite E1, E3, E2. reflexivity.
Qed.

(** X12. [SumOverCol()], called on every process of a grid of [MR,* ]
    objects of shape [h x w] whose grid rows hold different
    contributions, returns after one all-reduce within each grid column
    and leaves a consistent matrix: every entry is the sum, in the order
    of the grid rows, of the entries the processes of its grid column
    held. *)
Theorem SumOverCol_sums (d : World DistMatrix) (a : Z) :
  (forall k q, on_grid r c k q ->
     MR_STAR_wf r c k q (d k q) h w a /\ _lockedView (d k q) = false) ->
  exists d',
    returns2 r c (call2 r c 1 (fun _ _ => SumOverCol) d) (fun _ _ => tt) d' /\
    MR_STAR_represents r c d' h w a
      (fun i j => Tsum (Z.to_nat r)
                    (fun m => GetLocalEntry (d m ((i + a) mod c)) ((i - i mod c) / c) j)).
Proof.
  intros Hd.
  set (W := fun k q => SumOverCol (d k q)).
  assert (Hprog : forall k q, on_grid r c k q -> W k q = _) by
    (intros k q Hkq; destruct (Hd k q Hkq) as [Hwf Hl];
     exact (proj2 (reductions_prog (fun _ => uninitT) (d k q) a k q Hwf Hl))).
  cbv zeta in Hprog.
  assert (Hone : forall k q, on_grid r c k q -> exists d1,
    deliver2 r c W k q = Some (Ret2 (Normal tt, d1)) /\
    MR_STAR_wf r c k q d1 h w a /\
    forall iLocal j, 0 <= iLocal < LocalHeight d1 -> 0 <= j < w ->
      GetLocalEntry d1 iLocal j =
      Tsum (Z.to_nat r) (fun m => GetLocalEntry (d m q) iLocal j)).
  { intros k q [Hk Hq].
    destruct (Hd k q (conj Hk Hq)) as [Hwf Hl].
    destruct Hwf as [Hg [Hh [Hw [Hh0 [Hw0 [Ha [Har [Hs [Hmh [Hmw [Hld Hld1]]]]]]]]]]].
    unfold deliver2. rewrite (Hprog k q (conj Hk Hq)).
    cbn [comm_size comm_peer fst snd].
    match goal with
    | |- context [forallb ?f (ranks r)] => assert (Hfa : forallb f (ranks r) = true)
    end.
    { apply forallb_forall. intros m Hm. apply ranks_In in Hm.
      rewrite (Hprog m q (conj Hm Hq)). rewrite Z.eqb_refl. reflexivity. }
    rewrite Hfa. eexists. split; [reflexivity|].
    set (lh := LocalLength h (Shift q a c) c) in *.
    set (P := Z.max (lh * w) MIN_COLL_MSG) in *.
    assert (Hlh0 : 0 <= lh) by apply LocalLength_nonneg.
    split.
    - unfold MR_STAR_wf, Matrix_wf. cbn. fold lh. repeat split; assumption || lia.
    - unfold GetLocalEntry, Matrix_Get, LocalHeight. cbn.
      intros iLocal j HiL Hj. rewrite Hmh in HiL.
      replace (iLocal + j * m_ldim (_localMatrix (d k q)))
        with (0 + j * m_ldim (_localMatrix (d k q)) + iLocal) by lia.
      rewrite (panel_copy w lh 0 (m_ldim (_localMatrix (d k q))) P lh) by lia.
      rewrite in_range_true by (unfold P; nia).
      apply Tsum_ext. intros m Hm. rewrite Z2Nat.id in Hm by lia.
      rewrite (Hprog m q (conj Hm Hq)). fold lh.
      replace (0 + (P + j * lh + iLocal - P)) with (0 + j * lh + iLocal) by lia.
      rewrite (panel_copy w lh 0 lh 0 (m_ldim (_localMatrix (d m q)))) by lia.
      f_equal. lia. }
  destruct (run_one_round2 W) as [w'' [Hrun Hw'']].
  { intros k q Hkq. destruct (Hone k q Hkq) as [d1 [Hd1 _]]. eexists. exact Hd1. }
  exists (fun k q => match w'' k q with Ret2 (_, d1) => d1 | _ => d k q end).
  split.
  - exists w''. split; [exact Hrun|].
    intros k q Hkq. destruct (Hone k q Hkq) as [d1 [Hd1 _]].
    rewrite (Hw'' k q Hkq) in Hd1. injection Hd1 as ->. reflexivity.
  - intros k q Hkq. destruct (Hone k q Hkq) as [d1 [Hd1 [Hwf1 Hent1]]].
    rewrite (Hw'' k q Hkq) in Hd1. injection Hd1 as ->.
    split; [exact Hwf1|].
    intros iLocal j HiL Hj. rewrite (Hent1 iLocal j HiL Hj).
    destruct Hwf1 as [_ [_ [_ [_ [_ [_ [_ [Hs1 [Hmh1 _]]]]]]]]].
    unfold LocalHeight in HiL. rewrite Hmh1 in HiL. unfold ColShift. rewrite Hs1.
    destruct Hkq as [Hk Hq].
    destruct (local_row_back q a iLocal Hq HiL) as [E1 [E2 E3]].
    rewrite E1, E3. reflexivity.
Qed.

(** ** [Print]: a reduction to the root of grid row 0, then a barrier *)

(** A sum with at most one term that is not zero. *)
Lemma Tsum_single (zeroT : T) (n : nat) (f : Z -> T) (m0 : Z) :
  (forall x, addT zeroT x = x) -> (forall x, addT x zeroT = x) ->
  0 <= m0 < Z.of_nat n ->
  (forall m, 0 <= m < Z.of_nat n -> m <> m0 -> f m = zeroT) ->
  Tsum n f = f m0.
Proof.
  intros Hl Hr0 Hm0 Hz.
  assert (Hzero : forall k : nat, (1 <= k)%nat -> Z.of_nat k <= m0 -> Z.of_nat k <= Z.of_nat n ->
            Tsum k f = zeroT).
  { induction k as [|k IH]; intros Hk Hle Hn; [lia|].
    destruct k as [|k].
    - cbn. apply Hz; lia.
    - change (Tsum (S (S k)) f) with (addT (Tsum (S k) f) (f (Z.of_nat (S k)))).
      rewrite IH by lia. rewrite Hl. apply Hz; lia. }
  induction n as [|n IH]; [lia|].
  destruct n as [|n].
  - cbn. f_equal. lia.
  - change (Tsum (S (S n)) f) with (addT (Tsum (S n) f) (f (Z.of_nat (S n)))).
    destruct (Z.eq_dec m0 (Z.of_nat (S n))) as [E|E].
    + rewrite Hzero by lia. rewrite Hl. rewrite E. reflexivity.
    + rewrite (Hz (Z.of_nat (S n))) by lia. rewrite Hr0.
      apply IH;
        first [ lia
              | intros m Hm Hne; apply Hz; lia
              | intros k Hk Hle Hn; apply Hzero; lia ].
Qed.

(** A loop that appends to a stream. *)
Lemma for_loop_app {X : Type} (n : nat) (body : Z -> list X -> list X)
    (F : Z -> list X) (init : list X) :
  (forall i os, 0 <= i < Z.of_nat n -> body i os = os ++ F i) ->
  for_loop n body init = init ++ flat_map F (map Z.of_nat (seq 0 n)).
Proof.
  induction n as [|n IH]; intros H.
  - cbn. rewrite app_nil_r. reflexivity.
  - cbn [for_loop]. rewrite H by lia. rewrite IH by (intros; apply H; lia).
    rewrite seq_S, map_app, flat_map_app. cbn [map flat_map Nat.add].
    rewrite app_nil_r, app_assoc. reflexivity.
Qed.

Lemma flat_map_ext_ranks {X : Type} (n : Z) (f g : Z -> list X) :
  (forall i, 0 <= i < n -> f i = g i) -> flat_map f (ranks n) = flat_map g (ranks n).
Proof.
  intros H.
  assert (Hl : forall l, (forall i, In i l -> 0 <= i < n) -> flat_map f l = flat_map g l).
  { induction l as [|x l IH]; intros Hin; [reflexivity|].
    cbn. rewrite (H x) by (apply Hin; left; reflexivity).
    rewrite IH by (intros i Hi; apply Hin; right; exact Hi). reflexivity. }
  apply Hl. intros i Hi. apply ranks_In. exact Hi.
Qed.

(** What a process of grid row 0 contributes to the reduction: its own
    rows of the matrix, and zero elsewhere. *)
Lemma Print_contribution (zeroT : T) (G : Z -> Z -> T) (this : DistMatrix) (a k q i j : Z) :
  0 <= q < c -> MR_STAR_wf r c k q this h w a ->
  (forall iLocal j, 0 <= iLocal < LocalHeight this -> 0 <= j < w ->
     GetLocalEntry this iLocal j = G (ColShift this + iLocal * c) j) ->
  0 <= i < h -> 0 <= j < w ->
  for_loop (Z.to_nat (LocalHeight this))
    (fun iLocal sb =>
       for_loop (Z.to_nat (Width this))
         (fun j sb =>
            upd sb ((ColShift this + iLocal * Grid.Width (_grid this)) + j * Height this)
                (LockedLocalBuffer this (iLocal + j * LocalLDim this)))
         sb)
    (fun _ => zeroT) (i + j * Height this) =
  if q =? (i + a) mod c then G i j else zeroT.
Proof.
  intros Hq Hwf Hent Hi Hj.
  destruct Hwf as [Hg [Hh [Hw [Hh0 [Hw0 [Ha [Har [Hs [Hmh [Hmw [Hld Hld1]]]]]]]]]]].
  pose proof (Shift_range q a c Hc) as Hsr.
  unfold LocalHeight, Width, ColShift, Height, LockedLocalBuffer, LocalLDim,
    GetLocalEntry, Matrix_Get in *.
  rewrite Hg, Hh, Hw, Hs, Hmh in *. cbn [Grid.Width].
  set (lh := LocalLength h (Shift q a c) c) in *.
  assert (Hinj : forall i1 j1 i2 j2,
            0 <= i1 < Z.of_nat (Z.to_nat lh) -> 0 <= j1 < Z.of_nat (Z.to_nat w) ->
            0 <= i2 < Z.of_nat (Z.to_nat lh) -> 0 <= j2 < Z.of_nat (Z.to_nat w) ->
            Shift q a c + i1 * c + j1 * h = Shift q a c + i2 * c + j2 * h ->
            i1 = i2 /\ j1 = j2).
  { intros i1 j1 i2 j2 H1 H2 H3 H4 E.
    rewrite Z2Nat.id in H1, H3 by apply LocalLength_nonneg.
    destruct (global_index i1 h (Shift q a c) c Hc Hsr H1) as [Hr1 _].
    destruct (global_index i2 h (Shift q a c) c Hc Hsr H3) as [Hr2 _].
    destruct (panel_index_inj (Shift q a c + i1 * c) j1 (Shift q a c + i2 * c) j2 h)
      as [E1 E2]; [lia | lia | exact E |].
    split; [nia | exact E2]. }
  assert (HW := Writes_fill2 (Z.to_nat lh) (fun _ => Z.to_nat w)
                  (fun iLocal j => Shift q a c + iLocal * c + j * h)
                  (fun iLocal j =>
                     m_data (_localMatrix this) (iLocal + j * m_ldim (_localMatrix this)))
                  Hinj).
  cbv beta in HW.
  destruct (Z.eqb_spec q ((i + a) mod c)) as [Hown|Hnot].
  - assert (Hsh : Shift q a c = i mod c) by (rewrite Hown; apply owner_shift; exact Hc).
    destruct (local_index i h (Shift q a c) c Hc Hi Hsh) as [Hloc [Hglob _]].
    rewrite (Writes_hit _ _ (fun _ => zeroT) (i + j * h)
               (m_data (_localMatrix this)
                  ((i - Shift q a c) / c + j * m_ldim (_localMatrix this))) HW).
    + rewrite Hent by (fold lh in Hloc; lia).
      rewrite Hglob. reflexivity.
    + exists ((i - Shift q a c) / c). split; [fold lh in Hloc; lia|].
      exists j. split; [lia|]. split; [lia | reflexivity].
  - destruct (HW (fun _ => zeroT) (i + j * h)) as [_ Hmiss]. apply Hmiss.
    intros v [i1 [Hi1 [j1 [Hj1 [E _]]]]].
    rewrite Z2Nat.id in Hi1 by apply LocalLength_nonneg.
    destruct (global_index i1 h (Shift q a c) c Hc Hsr Hi1) as [Hr1 _].
    destruct (panel_index_inj i j (Shift q a c + i1 * c) j1 h) as [E1 _];
      [lia | lia | exact E |].
    apply Hnot. rewrite E1. symmetry.
    apply owner_of_local; assumption.
Qed.

Lemma VCRank_zero (k q : Z) :
  on_grid r c k q -> (k + r * q =? 0) = (k =? 0) && (q =? 0).
Proof.
  intros [Hk Hq].
  destruct (Z.eqb_spec k 0) as [->|Hk0]; destruct (Z.eqb_spec q 0) as [->|Hq0]; cbn [andb].
  - apply Z.eqb_eq. lia.
  - apply Z.eqb_neq. nia.
  - apply Z.eqb_neq. nia.
  - apply Z.eqb_neq. nia.
Qed.

(** The program of a process of grid row 0: it packs its rows into a
    zeroed buffer, reduces over its grid row to the root 0, prints at the
    root, and waits at the barrier. *)
Lemma Print_row0 (zeroT : T) (msg : string) (G : Z -> Z -> T) (this : DistMatrix) (a q : Z) :
  0 < h -> 0 < w -> 0 <= q < c ->
  MR_STAR_wf r c 0 q this h w a ->
  (forall iLocal j, 0 <= iLocal < LocalHeight this -> 0 <= j < w ->
     GetLocalEntry this iLocal j = G (ColShift this + iLocal * c) j) ->
  exists sb kont,
    Print zeroT msg this = ReduceSum sb uninit (h * w) 0 MRComm kont /\
    (forall i j, 0 <= i < h -> 0 <= j < w ->
       sb (i + j * h) = if q =? (i + a) mod c then G i j else zeroT) /\
    (forall rb, kont rb =
       Barrier VCComm
         (Ret2 (if q =? 0
                then (if negb (String.eqb msg EmptyString) then [Msg msg; Endl] else [])
                     ++ matrix_tokens h w (fun i j => rb (i + j * h))
                else []))).
Proof.
  intros Hh0 Hw0 Hq Hwf Hent.
  pose proof Hwf as [Hg [Hh [Hw _]]].
  assert (E1 : Height this = h) by exact Hh.
  assert (E2 : Width this = w) by exact Hw.
  pose proof (fun i j => Print_contribution zeroT G this a 0 q i j Hq Hwf Hent) as Hsb.
  unfold Print. cbv zeta. rewrite Hg in *. rewrite E1, E2 in *.
  unfold Grid.VCRank.
  cbn [Grid.Width Grid.MCRank Grid.MRRank Grid.Height] in *.
  replace ((h =? 0) || (w =? 0)) with false
    by (symmetry; apply orb_false_iff; split; apply Z.eqb_neq; lia).
  rewrite Z.eqb_refl.
  eexists. eexists. split; [reflexivity|]. split.
  - intros i j Hi Hj. apply Hsb; assumption.
  - intros rb. f_equal. f_equal.
    rewrite (VCRank_zero 0 q) by (unfold on_grid; lia). rewrite Z.eqb_refl. cbn [andb].
    destruct (q =? 0); [|reflexivity]. cbn [andb].
    rewrite (for_loop_app (Z.to_nat h) _
               (fun i => flat_map (fun j => [Entry (rb (i + j * h)); Space]) (ranks w)
                         ++ [Newline])).
    + unfold matrix_tokens, ranks. rewrite app_assoc. reflexivity.
    + intros i os Hi.
      rewrite (for_loop_app (Z.to_nat w) _ (fun j => [Entry (rb (i + j * h)); Space]))
        by (intros; reflexivity).
      rewrite app_assoc. reflexivity.
Qed.

(** The program of a process of another grid row: the barrier only. *)
Lemma Print_waits (zeroT : T) (msg : string) (this : DistMatrix) (a k q : Z) :
  0 < h -> 0 < w -> on_grid r c k q -> k <> 0 ->
  MR_STAR_wf r c k q this h w a ->
  Print zeroT msg this = Barrier VCComm (Ret2 []).
Proof.
  intros Hh0 Hw0 Hkq Hk [Hg [Hh [Hw _]]].
  assert (E1 : Height this = h) by exact Hh.
  assert (E2 : Width this = w) by exact Hw.
  unfold Print. cbv zeta. rewrite Hg, E1, E2.
  unfold Grid.VCRank.
  cbn [Grid.Width Grid.MCRank Grid.MRRank Grid.Height].
  replace ((h =? 0) || (w =? 0)) with false
    by (symmetry; apply orb_false_iff; split; apply Z.eqb_neq; lia).
  rewrite (VCRank_zero k q Hkq).
  replace (k =? 0) with false by (symmetry; apply Z.eqb_neq; exact Hk).
  reflexivity.
Qed.

(** A world in which every process is at the barrier of the whole grid
    passes it in one round. *)
Lemma barrier_round {R : Type} (W1 : World (Prog2 R)) (out : Z -> Z -> R) :
  (forall k q, on_grid r c k q -> W1 k q = Barrier VCComm (Ret2 (out k q))) ->
  exists w2, run_world2 r c 1 W1 = Some w2 /\
    forall k q, on_grid r c k q -> w2 k q = Ret2 (out k q).
Proof.
  intros H.
  assert (D : forall k q, on_grid r c k q -> deliver2 r c W1 k q = Some (Ret2 (out k q))).
  { intros k q Hkq. unfold deliver2. rewrite (H k q Hkq).
    replace (forallb _ _) with true; [reflexivity|].
    symmetry. apply forallb_forall. intros m Hm. apply ranks_In in Hm.
    cbn [comm_size comm_peer fst snd] in *.
    rewrite H; [reflexivity|].
    split; [apply Z.mod_pos_bound; lia|].
    split; [apply Z.div_pos; lia | apply Z.div_lt_upper_bound; lia]. }
  destruct (run_one_round2 W1) as [w2 [Hrun Hdel]].
  - intros k q Hkq. exists (out k q). apply D. exact Hkq.
  - exists w2. split; [exact Hrun|]. intros k q Hkq.
    specialize (Hdel k q Hkq). rewrite (D k q Hkq) in Hdel.
    injection Hdel as <-. reflexivity.
Qed.

(** X16. [Print] on an [MR,* ] matrix of [G].  A matrix without rows or
    columns is not communicated: every process returns at once, and only
    the process of rank 0 has written the message line.  Otherwise the
    processes of grid row 0 reduce their rows, packed into zeroed buffers,
    over their grid row to the root 0, the other grid rows wait at the
    barrier over all processes, and after two rounds every process has
    returned: process (0,0) has written the message line and then the
    whole matrix [G] row by row, every other process has written
    nothing.  The entries are sums with a single term that is not zero,
    whence the laws of zero. *)
Theorem Print_prints (zeroT : T) (msg : string) (d : World DistMatrix) (a : Z)
    (G : Z -> Z -> T) :
  (forall x, addT zeroT x = x) -> (forall x, addT x zeroT = x) ->
  MR_STAR_represents r c d h w a G ->
  let header := if negb (String.eqb msg EmptyString) then [Msg msg; Endl] else [] in
  let out := fun (k q : Z) (body : list Token) =>
               if (k =? 0) && (q =? 0) then header ++ body else [] in
  (h = 0 \/ w = 0 ->
   forall k q, on_grid r c k q -> Print zeroT msg (d k q) = Ret2 (out k q [])) /\
  (0 < h -> 0 < w ->
   (exists w2,
      run_world2 r c 2 (fun k q => Print zeroT msg (d k q)) = Some w2 /\
      forall k q, on_grid r c k q -> w2 k q = Ret2 (out k q (matrix_tokens h w G))) /\
   (forall k q, on_grid r c k q ->
      if k =? 0
      then exists sb kont,
             Print zeroT msg (d k q) = ReduceSum sb uninit (h * w) 0 MRComm kont /\
             forall rb, exists os, kont rb = Barrier VCComm (Ret2 os)
      else Print zeroT msg (d k q) = Barrier VCComm (Ret2 []))).
Proof.
  intros Hl Hr0 Hrep header out. split.
  - intros Hz k q Hkq. destruct (Hrep k q Hkq) as [[Hg [Hh [Hw _]]] _].
    assert (E1 : Height (d k q) = h) by exact Hh.
    assert (E2 : Width (d k q) = w) by exact Hw.
    unfold Print. cbv zeta. rewrite Hg, E1, E2.
    unfold Grid.VCRank.
  cbn [Grid.Width Grid.MCRank Grid.MRRank Grid.Height].
    replace ((h =? 0) || (w =? 0)) with true
      by (symmetry; apply orb_true_iff; destruct Hz as [-> | ->]; [left | right]; reflexivity).
    rewrite (VCRank_zero k q Hkq). unfold out, header.
    destruct ((k =? 0) && (q =? 0)); cbn [andb]; [|reflexivity].
    rewrite app_nil_r. reflexivity.
  - intros Hh0 Hw0.
    set (W := fun k q => Print zeroT msg (d k q)).
    assert (F0 : forall q, 0 <= q < c ->
              exists sb kont,
                W 0 q = ReduceSum sb uninit (h * w) 0 MRComm kont /\
                (forall i j, 0 <= i < h -> 0 <= j < w ->
                   sb (i + j * h) = if q =? (i + a) mod c then G i j else zeroT) /\
                (forall rb, kont rb =
                   Barrier VCComm
                     (Ret2 (if q =? 0
                            then header ++ matrix_tokens h w (fun i j => rb (i + j * h))
                            else [])))).
    { intros q Hq. assert (H0q : on_grid r c 0 q) by (unfold on_grid; lia).
      destruct (Hrep 0 q H0q) as [Hwf Hent].
      apply (Print_row0 zeroT msg G (d 0 q) a q Hh0 Hw0 Hq Hwf Hent). }
    assert (F1 : forall k q, on_grid r c k q -> k <> 0 -> W k q = Barrier VCComm (Ret2 [])).
    { intros k q Hkq Hk. destruct (Hrep k q Hkq) as [Hwf _].
      apply (Print_waits zeroT msg (d k q) a k q Hh0 Hw0 Hkq Hk Hwf). }
    split.
    + assert (D0 : forall q, 0 <= q < c ->
                deliver2 r c W 0 q =
                Some (Barrier VCComm (Ret2 (out 0 q (matrix_tokens h w G))))).
      { intros q Hq. unfold deliver2.
        destruct (F0 q Hq) as [sb [kont [E [Hsb Hk]]]]. rewrite E.
        replace (forallb _ _) with true.
        2:{ symmetry. apply forallb_forall. intros m Hm. apply ranks_In in Hm.
            cbn [comm_size comm_peer fst snd] in *.
            destruct (F0 m Hm) as [sb' [kont' [E' _]]]. rewrite E'.
            rewrite !Z.eqb_refl. reflexivity. }
        rewrite Hk. f_equal. f_equal. f_equal.
        cbn [comm_rank comm_size comm_peer fst snd]. unfold out. cbn [Z.eqb andb].
        destruct (q =? 0); [|reflexivity].
        f_equal. unfold matrix_tokens. f_equal.
        apply flat_map_ext_ranks. intros i Hi. f_equal.
        apply flat_map_ext_ranks. intros j Hj. f_equal. f_equal.
        replace (in_range 0 (h * w) (i + j * h)) with true
          by (symmetry; apply in_range_iff; nia).
        assert (Hm0 : 0 <= (i + a) mod c < c) by (apply Z.mod_pos_bound; lia).
        rewrite (Tsum_single zeroT (Z.to_nat c) _ ((i + a) mod c) Hl Hr0).
        * destruct (F0 _ Hm0) as [sb' [kont' [E' [Hsb' _]]]]. rewrite E'.
          rewrite Hsb' by assumption. rewrite Z.eqb_refl. reflexivity.
        * lia.
        * intros m Hm Hne.
          assert (Hmc : 0 <= m < c) by lia.
          destruct (F0 m Hmc) as [sb' [kont' [E' [Hsb' _]]]]. rewrite E'.
          rewrite Hsb' by assumption.
          destruct (Z.eqb_spec m ((i + a) mod c)); [contradiction | reflexivity]. }
      assert (D1 : forall k q, on_grid r c k q -> k <> 0 -> deliver2 r c W k q = None).
      { intros k q Hkq Hk. unfold deliver2. rewrite (F1 k q Hkq Hk).
        destruct (forallb _ _) eqn:E; [|reflexivity].
        rewrite forallb_forall in E.
        assert (Hin : In 0 (ranks (comm_size r c VCComm)))
          by (apply ranks_In; cbn [comm_size]; nia).
        specialize (E 0 Hin). cbn [comm_peer fst snd] in E.
        rewrite Zmod_0_l, Zdiv_0_l in E.
        destruct (F0 0 ltac:(lia)) as [sb [kont [E0 _]]]. rewrite E0 in E.
        discriminate E. }
      set (W1 := fun k q => match deliver2 r c W k q with Some p => p | None => W k q end).
      assert (HW1 : forall k q, on_grid r c k q ->
                W1 k q = Barrier VCComm (Ret2 (out k q (matrix_tokens h w G)))).
      { intros k q Hkq. unfold W1.
        destruct (Z.eq_dec k 0) as [->|Hk].
        - rewrite D0 by apply Hkq. reflexivity.
        - rewrite (D1 k q Hkq Hk), (F1 k q Hkq Hk). unfold out.
          replace (k =? 0) with false by (symmetry; apply Z.eqb_neq; exact Hk).
          reflexivity. }
      destruct (barrier_round W1 _ HW1) as [w2 [Hrun Hw2]].
      exists w2. split; [|exact Hw2].
      assert (H00 : on_grid r c 0 0) by (unfold on_grid; lia).
      change (run_world2 r c 2 W) with
        (if finished2 r c W then Some W
         else match step_world2 r c W with
              | Some w' => run_world2 r c 1 w'
              | None => None
              end).
      replace (finished2 r c W) with false.
      2:{ symmetry. destruct (finished2 r c W) eqn:E; [|reflexivity].
          unfold finished2 in E. rewrite all_grid_true in E. specialize (E 0 0 H00).
          destruct (F0 0 ltac:(lia)) as [sb [kont [E0 _]]]. rewrite E0 in E.
          discriminate E. }
      unfold step_world2.
      replace (all_grid r c (fun k q => negb (is_some (deliver2 r c W k q)))) with false.
      2:{ symmetry.
          destruct (all_grid r c (fun k q => negb (is_some (deliver2 r c W k q)))) eqn:E;
            [|reflexivity].
          rewrite all_grid_true in E. specialize (E 0 0 H00).
          rewrite (D0 0 ltac:(lia)) in E. discriminate E. }
      exact Hrun.
    + intros k q Hkq. destruct (Z.eqb_spec k 0) as [->|Hk].
      * destruct (F0 q (proj2 Hkq)) as [sb [kont [E [_ Hk]]]].
        exists sb, kont. split; [exact E|]. intros rb. eexists. apply Hk.
      * apply (F1 k q Hkq Hk).
Qed.

End Gathers.

(** X13. In a build with the debug assertions, the member functions that
    open with [AssertNotLockedView] refuse a locked view before doing
    anything else: [ResizeTo], [MakeTrapezoidal], [ScaleTrapezoidal],
    [SetToIdentity], [SetToRandom], [SumOverCol], [AdjointFrom] and
    [TransposeFrom], and [operator=] from [MR,MC], [MR,* ], [VR,* ],
    [* ,* ], [MD,* ] and [* ,MD] end in the same logic error, with the
    object unchanged and no collective issued.  [Set] and [Update] do not
    open with that assertion: on a process that does not own the row of
    the entry they return normally on a locked view, and leave it
    unchanged. *)
Theorem locked_view_refused (this A : DistMatrix) (zeroT oneT alpha : T)
    (mulT : T -> T -> T) (op : T -> T) (rng : Z -> T) (side : Side) (shape : Shape)
    (offset height width : Z) :
  release = false -> _viewing this = true -> _lockedView this = true ->
  let refused := fun m : Method unit =>
    m this =
    Ret (Raised (logic_error "Assertion that matrix not be a locked view failed."), this) in
  refused (ResizeTo height width) /\
  refused (MakeTrapezoidal zeroT side shape offset) /\
  refused (ScaleTrapezoidal mulT alpha side shape offset) /\
  refused (SetToIdentity zeroT oneT) /\
  refused (TransposeFrom_with op A) /\
  refused (assign_MR_MC A) /\ refused (assign_MR_STAR A) /\
  refused (assign_VR_STAR A) /\ refused (assign_STAR_STAR A) /\
  refused (assign_MD_STAR A) /\ refused (assign_STAR_MD A) /\
  SetToRandom rng this =
    Ret2 (Raised (logic_error "Assertion that matrix not be a locked view failed."), this) /\
  SumOverCol this =
    Ret2 (Raised (logic_error "Assertion that matrix not be a locked view failed."), this) /\
  (forall (i j : Z) (u : T),
     0 <= i < Height this -> 0 <= j < Width this ->
     Grid.MRRank (_grid this) <>
       Z.rem (i + ColAlignment this) (Grid.Width (_grid this)) ->
     Set_ i j u this = Ret (Normal tt, this) /\
     Update i j u this = Ret (Normal tt, this)).
Proof.
  intros Hrel Hv Hl refused. subst refused. cbv beta.
  assert (Hguard :
    (ResizeTo height width this =
       Ret (Raised (logic_error "Assertion that matrix not be a locked view failed."), this)) /\
    (MakeTrapezoidal zeroT side shape offset this =
       Ret (Raised (logic_error "Assertion that matrix not be a locked view failed."), this)) /\
    (ScaleTrapezoidal mulT alpha side shape offset this =
       Ret (Raised (logic_error "Assertion that matrix not be a locked view failed."), this)) /\
    (SetToIdentity zeroT oneT this =
       Ret (Raised (logic_error "Assertion that matrix not be a locked view failed."), this)) /\
    (TransposeFrom_with op A this =
       Ret (Raised (logic_error "Assertion that matrix not be a locked view failed."), this)) /\
    (assign_MR_MC A this =
       Ret (Raised (logic_error "Assertion that matrix not be a locked view failed."), this)) /\
    (assign_MR_STAR A this =
       Ret (Raised (logic_error "Assertion that matrix not be a locked view failed."), this)) /\
    (assign_VR_STAR A this =
       Ret (Raised (logic_error "Assertion that matrix not be a locked view failed."), this)) /\
    (assign_STAR_STAR A this =
       Ret (Raised (logic_error "Assertion that matrix not be a locked view failed."), this)) /\
    (assign_MD_STAR A this =
       Ret (Raised (logic_error "Assertion that matrix not be a locked view failed."), this)) /\
    (assign_STAR_MD A this =
       Ret (Raised (logic_error "Assertion that matrix not be a locked view failed."), this)) /\
    SetToRandom rng this =
      Ret2 (Raised (logic_error "Assertion that matrix not be a locked view failed."), this) /\
    SumOverCol this =
      Ret2 (Raised (logic_error "Assertion that matrix not be a locked view failed."), this)).
  { unfold SetToRandom, SumOverCol, locally, ResizeTo, MakeTrapezoidal, ScaleTrapezoidal,
      SetToIdentity, TransposeFrom_with,
      assign_MR_MC, assign_MR_STAR, assign_VR_STAR, assign_STAR_STAR, assign_MD_STAR,
      assign_STAR_MD, assign_asserts, debug.
    rewrite Hrel. unfold_monad. rewrite Hv, Hl. cbn.
    repeat split. }
  repeat (split; [apply Hguard|]).
  intros i j u Hi Hj Hown.
  assert (Hin : (i <? 0) || (i >=? Height this) || (j <? 0) || (j >=? Width this) = false).
  { rewrite !Z.geb_leb.
    destruct (Z.ltb_spec i 0), (Z.leb_spec (Height this) i),
      (Z.ltb_spec j 0), (Z.leb_spec (Width this) j); try lia; reflexivity. }
  assert (Hno : (Grid.MRRank (_grid this) =?
                 Z.rem (i + ColAlignment this) (Grid.Width (_grid this))) = false)
    by (apply Z.eqb_neq; exact Hown).
  unfold Set_, Update, debug. rewrite Hrel. unfold_monad.
  rewrite Hin. cbn. rewrite Hno. split; reflexivity.
Qed.

(** X14. [AlignWith] and [AlignColsWith] from a [VR,* ] or a [* ,VR]
    matrix copy the source's alignment as it is, though it ranges over
    all [r*c] processes.  In either build, whenever the call returns
    normally the [MR,* ] object is empty, constrained to the source's
    column (respectively row) alignment, and satisfies its alignment
    invariant exactly when that alignment lies below the grid width.  In
    a build with [RELEASE] defined the call on an owning object always
    returns normally, whatever the alignment. *)
Theorem AlignWith_VR_invariant_iff (this A : DistMatrix) :
  let copied := fun (al : Z) (p : Prog (Outcome unit * DistMatrix)) =>
    ensures (fun r => fst r = Normal tt ->
               ColAlignment (snd r) = al /\ ConstrainedColAlignment (snd r) = true /\
               Height (snd r) = 0 /\ Width (snd r) = 0 /\
               (col_aligned (snd r) <-> 0 <= al < Grid.Width (_grid this))) p in
  copied (ColAlignment A) (AlignWith_VR_STAR A this) /\
  copied (ColAlignment A) (AlignColsWith_VR_STAR A this) /\
  copied (RowAlignment A) (AlignWith_STAR_VR A this) /\
  copied (RowAlignment A) (AlignColsWith_STAR_VR A this) /\
  (release = true -> m_viewing (_localMatrix this) = false ->
   exists this1 this2,
     AlignWith_VR_STAR A this = Ret (Normal tt, this1) /\
     AlignColsWith_VR_STAR A this = Ret (Normal tt, this1) /\
     AlignWith_STAR_VR A this = Ret (Normal tt, this2) /\
     AlignColsWith_STAR_VR A this = Ret (Normal tt, this2)).
Proof.
  intros copied. subst copied. cbv beta.
  unfold AlignColsWith_VR_STAR, AlignColsWith_STAR_VR, AlignWith_VR_STAR,
    AlignWith_STAR_VR, debug.
  repeat split;
    try (destruct release; unfold_monad; unfold Matrix_ResizeTo; cbn;
         repeat match goal with
                | |- context [if ?b then _ else _] => destruct b; cbn
                end;
         try (intros H; discriminate H); intros _;
         unfold col_aligned, Shift, ColAlignment, RowAlignment, ConstrainedColAlignment,
           Height, Width; cbn;
         repeat split; tauto).
  intros Hrel Hmv. rewrite Hrel. unfold_monad. unfold Matrix_ResizeTo. cbn.
  rewrite Hmv. cbn. eexists. eexists. repeat split.
Qed.

End Elemental.

(** * Instances

    The statements above at concrete objects: entries of type [Z], fresh
    storage reading 0, and the matrix [G i j = 10*i + j] of shape 7 x 2
    on a 2 x 3 grid, column-aligned at 1. *)

Lemma Get_correct_witness :
  let G0 := fun i j : Z => 10 * i + j in
  let A := fun k q => sample Z (Grid.mk 2 3 k q) 7 2 1 G0 in
  returns Z 2 3 (call Z 2 3 1 (fun _ _ => Get Z (-1) false 4 1) A) (fun _ _ => G0 4 1) A /\
  (forall k q, on_grid 2 3 k q ->
     collectives Z (Get Z (-1) false 4 1 (A k q)) = [(BroadcastOp, MRComm, 1)] /\
     exists u kont,
       Get Z (-1) false 4 1 (A k q) = @Broadcast Z _ u ((4 + 1) mod 3) MRComm kont /\
       (q = (4 + 1) mod 3 ->
        u = GetLocalEntry Z (A k q) ((4 - ColShift Z (A k q)) / 3) 1 /\ u = G0 4 1)) /\
  (forall k q u,
     collectives Z (Set_ Z false 4 1 u (A k q)) = [] /\
     collectives Z (Update Z Z.add false 4 1 u (A k q)) = []).
Proof.
  intros G0 A.
  apply (Get_correct Z Z.add (-1) false 2 3 A 7 2 1 G0 4 1); try lia.
  apply (sample_represents Z 2 3 7 2 G0 1); lia.
Defined.

(** C3 as stated fails: on a 2 x 2 grid, assigning an empty (0 x 0)
    [VR,* ] or [MR,MC] matrix to an empty [MR,* ] shell makes the process
    issue an all-gather of [MIN_COLL_MSG = 1] entries over its grid
    column. *)
Lemma zero_extent_not_short_circuited :
  let uz := fun _ : Z => 0 in
  let this := shell Z uz (Grid.mk 2 2 0 1) in
  let A := shell Z uz (Grid.mk 2 2 0 1) in
  Height Z A = 0 /\ Width Z A = 0 /\
  collectives Z (assign_VR_STAR Z uz false 1 A this) = [(AllGatherOp, MCComm, 1)] /\
  collectives Z (assign_MR_MC Z uz false 1 A this) = [(AllGatherOp, MCComm, 1)].
Proof. cbv zeta. repeat split. Qed.

Lemma zero_extent_still_gathers_witness :
  let uz := fun _ : Z => 0 in
  let this := shell Z uz (Grid.mk 2 2 0 1) in
  let A := shell Z uz (Grid.mk 2 2 0 1) in
  let empty (r : Outcome unit * DistMatrix Z) :=
    fst r = Normal tt /\ Height Z (snd r) = Height Z A /\ Width Z (snd r) = Width Z A /\
    LocalHeight Z (snd r) * LocalWidth Z (snd r) = 0 in
  collectives Z (assign_VR_STAR Z uz false 1 A this) = [(AllGatherOp, MCComm, 1)] /\
  ensures Z empty (assign_VR_STAR Z uz false 1 A this) /\
  collectives Z (assign_MR_MC Z uz false 1 A this) = [(AllGatherOp, MCComm, 1)] /\
  ensures Z empty (assign_MR_MC Z uz false 1 A this).
Proof.
  intros uz this A empty.
  apply (zero_extent_still_gathers Z uz false 1 this A);
    cbn; try lia; reflexivity.
Defined.

Lemma assign_MR_STAR_fast_path_witness :
  let uz := fun _ : Z => 0 in
  let G0 := fun i j : Z => 10 * i + j in
  let this := shell Z uz (Grid.mk 2 3 0 1) in
  let A := sample Z (Grid.mk 2 3 0 1) 7 2 1 G0 in
  collectives Z (assign_MR_STAR Z uz false A this) = [] /\
  exists this',
    assign_MR_STAR Z uz false A this = @Ret Z _ (Normal tt, this') /\
    Height Z this' = Height Z A /\ Width Z this' = Width Z A /\
    ColAlignment Z this' = ColAlignment Z A /\
    LocalHeight Z this' = LocalHeight Z A /\ LocalWidth Z this' = LocalWidth Z A /\
    forall i j, 0 <= i < LocalHeight Z A -> 0 <= j < LocalWidth Z A ->
      GetLocalEntry Z this' i j = GetLocalEntry Z A i j.
Proof.
  intros uz G0 this A.
  apply (assign_MR_STAR_fast_path Z uz false this A);
    first [ reflexivity
          | cbn; lia
          | intros H; discriminate H
          | vm_compute; discriminate
          | right; split; reflexivity ].
Defined.

Lemma Set_Update_frame_witness :
  let G0 := fun i j : Z => 10 * i + j in
  let this := sample Z (Grid.mk 2 3 0 1) 7 2 1 G0 in
  collectives Z (Set_ Z false 3 1 42 this) = [] /\
  collectives Z (Update Z Z.add false 3 1 42 this) = [] /\
  exists this1 this2,
    Set_ Z false 3 1 42 this = @Ret Z _ (Normal tt, this1) /\
    Update Z Z.add false 3 1 42 this = @Ret Z _ (Normal tt, this2) /\
    (1 <> (3 + 1) mod 3 -> this1 = this /\ this2 = this) /\
    (1 = (3 + 1) mod 3 ->
     0 <= (3 - 0) / 3 < LocalHeight Z this /\
     GetLocalEntry Z this1 ((3 - 0) / 3) 1 = 42 /\
     GetLocalEntry Z this2 ((3 - 0) / 3) 1 = GetLocalEntry Z this ((3 - 0) / 3) 1 + 42 /\
     (forall i' j', 0 <= i' < LocalHeight Z this -> 0 <= j' < LocalWidth Z this ->
        (i', j') <> ((3 - 0) / 3, 1) ->
        GetLocalEntry Z this1 i' j' = GetLocalEntry Z this i' j' /\
        GetLocalEntry Z this2 i' j' = GetLocalEntry Z this i' j') /\
     (exists b1, this1 = set_localMatrix Z this (Matrix_with_data Z (_localMatrix Z this) b1)) /\
     (exists b2, this2 = set_localMatrix Z this (Matrix_with_data Z (_localMatrix Z this) b2))).
Proof.
  intros G0 this.
  apply (Set_Update_frame Z Z.add (fun _ => 0) 0 false 1 this 3 1 42).
  - cbn. lia.
  - unfold col_aligned. cbn. split; [lia | reflexivity].
  - unfold Matrix_wf. cbn. repeat split; vm_compute; congruence.
  - reflexivity.
  - cbn. lia.
  - cbn. lia.
Defined.

(** C8 as stated fails: in a build with [RELEASE] defined, [AlignCols] on
    an object whose column alignment is already constrained is not
    refused; it returns normally and re-aligns the object. *)
Lemma AlignCols_release_not_refused :
  let uz := fun _ : Z => 0 in
  let G0 := fun i j : Z => 10 * i + j in
  let this := sample Z (Grid.mk 2 3 0 1) 7 2 1 G0 in
  ConstrainedColAlignment Z this = true /\
  exists this',
    AlignCols Z uz true 2 this = @Ret Z _ (Normal tt, this') /\
    ColAlignment Z this' = 2 /\ Height Z this' = 0.
Proof.
  cbv zeta. split; [reflexivity|]. eexists.
  split; [vm_compute; reflexivity|]. split; reflexivity.
Qed.

(** [Align_contract] at objects that hold data, in a build with the debug
    assertions: [held] is the 7 x 2 sample, constrained to alignment 2,
    and is refused; [free] holds 7 x 2 data under the free alignment 0,
    as [ResizeTo] on a fresh object leaves it, and is emptied and
    re-aligned. *)
Lemma Align_contract_witness :
  let uz := fun _ : Z => 0 in
  let G0 := fun i j : Z => 10 * i + j in
  let g := Grid.mk 2 3 0 1 in
  let A := sample Z g 7 2 1 G0 in
  let held := sample Z g 7 2 2 G0 in
  let free := mkDistMatrix Z false false 7 2 (_localMatrix Z (sample Z g 7 2 0 G0))
                false false 0 0 (Shift 1 0 3) 0 g in
  (ConstrainedColAlignment Z held = true /\ Height Z held = 7 /\ LocalHeight Z held = 2 /\
   exists e,
     AlignCols Z uz false 2 held = @Ret Z _ (Raised e, held) /\
     AlignWith_MR_MC Z uz false A held = @Ret Z _ (Raised e, held) /\
     AlignWith_MR_STAR Z uz false A held = @Ret Z _ (Raised e, held)) /\
  (ConstrainedColAlignment Z free = false /\ Height Z free = 7 /\ LocalHeight Z free = 2 /\
   aligned_empty Z (AlignCols Z uz false 2 free) g 2 /\
   aligned_empty Z (AlignWith_MR_MC Z uz false A free) g 1 /\
   aligned_empty Z (AlignWith_MR_STAR Z uz false A free) g 1).
Proof.
  intros uz G0 g A held free. split.
  - destruct (Align_contract Z uz false held A 2) as [Hrefused _];
      try reflexivity; try (cbn; lia).
    repeat (split; [reflexivity|]).
    apply Hrefused; reflexivity.
  - destruct (Align_contract Z uz false free A 2) as [_ Hemptied];
      try reflexivity; try (cbn; lia).
    repeat (split; [reflexivity|]).
    apply Hemptied. right. reflexivity.
Defined.

(** C9 as stated fails: a view of the 7 x 2 sample on process (0,1), which
    holds the rows 0, 3 and 6, accepts [ResizeTo(8,2)], in both builds:
    the size differs from the view's, but the local shape it calls for
    is still 3 x 2.  The view then claims the global shape 8 x 2. *)
Lemma ResizeTo_view_accepts_other_size :
  let uz := fun _ : Z => 0 in
  let G0 := fun i j : Z => 10 * i + j in
  let g := Grid.mk 2 3 0 1 in
  let A := sample Z g 7 2 1 G0 in
  exists view,
    View Z false A (shell Z uz g) = @Ret Z _ (Normal tt, view) /\
    Viewing Z view = true /\ Height Z view = 7 /\ Width Z view = 2 /\
    LocalHeight Z view = 3 /\
    exists this',
      ResizeTo Z uz false 8 2 view = @Ret Z _ (Normal tt, this') /\
      ResizeTo Z uz true 8 2 view = @Ret Z _ (Normal tt, this') /\
      Viewing Z this' = true /\ Height Z this' = 8 /\ Width Z this' = 2 /\
      LocalHeight Z this' = 3.
Proof.
  cbv zeta. eexists. split; [vm_compute; reflexivity|].
  repeat (split; [reflexivity|]).
  eexists. split; [vm_compute; reflexivity|].
  repeat split.
Qed.

Lemma ResizeTo_contract_witness :
  let uz := fun _ : Z => 0 in
  let G0 := fun i j : Z => 10 * i + j in
  let g := Grid.mk 2 3 0 1 in
  let A := sample Z g 7 2 1 G0 in
  let view := mkDistMatrix Z true false 7 2 (Matrix_View Z (LocalMatrix Z A) 0 0 3 2)
                false false 1 0 0 0 g in
  (exists e this', ResizeTo Z uz false 4 2 view = @Ret Z _ (Raised e, this')) /\
  (exists this',
     ResizeTo Z uz false 8 2 view = @Ret Z _ (Normal tt, this') /\
     Height Z this' = 8 /\ Width Z this' = 2 /\
     _localMatrix Z this' = _localMatrix Z view) /\
  (exists this',
     ResizeTo Z uz false 4 2 A = @Ret Z _ (Normal tt, this') /\
     Height Z this' = 4 /\ Width Z this' = 2 /\
     LocalHeight Z this' = LocalLength 4 (ColShift Z A) 3 /\
     LocalWidth Z this' = 2 /\ LocalBuffer Z this' = uz).
Proof.
  intros uz G0 g A view.
  destruct (ResizeTo_contract Z uz false view 4 2) as [Hview _].
  destruct (ResizeTo_contract Z uz false view 8 2) as [_ [Hsame _]].
  destruct (ResizeTo_contract Z uz false A 4 2) as [_ [_ Hown]].
  split; [|split].
  - apply Hview; [reflexivity|]. left. vm_compute. discriminate.
  - destruct Hsame as [this' [H1 [H2 [H3 [H4 _]]]]];
      try reflexivity.
    + right. split; [reflexivity|]. lia.
    + exists this'. repeat split; assumption.
  - destruct Hown as [this' [H1 [H2 [H3 [H4 [H5 [H6 _]]]]]]];
      try reflexivity; try lia.
    exists this'. repeat split; assumption.
Defined.

(** ** The model at work

    The 7 x 2 matrix [G i j = 10*i + j] on a 2 x 3 grid, aligned at 1:
    process column 0 owns the rows 2 and 5, column 1 the rows 0, 3 and 6,
    column 2 the rows 1 and 4. *)

(** The local entries of the object a process ended with, column by
    column; empty when the grid did not finish or the call raised. *)
Definition local_columns {A : Type}
    (res : option (World (Prog Z (Outcome A * DistMatrix Z)))) (k q : Z) : list (list Z) :=
  match res with
  | Some w =>
      match w k q with
      | @Ret _ _ (Normal _, d) =>
          map (fun j => map (fun i => GetLocalEntry Z d i j) (ranks (LocalHeight Z d)))
              (ranks (Width Z d))
      | _ => []
      end
  | None => []
  end.

(** Assigning it to objects aligned at 2 moves the rows one process column
    to the right: after the send-receive, column 0 holds the rows 1 and 4,
    column 1 the rows 2 and 5, column 2 the rows 0, 3 and 6. *)
Example realigned_by_send_receive :
  let uz := fun _ : Z => 0 in
  let G0 := fun i j : Z => 10 * i + j in
  let A := fun k q => sample Z (Grid.mk 2 3 k q) 7 2 1 G0 in
  let B := fun k q => sample Z (Grid.mk 2 3 k q) 0 0 2 (fun _ _ => 0) in
  let res := call Z 2 3 1 (fun k q => assign_MR_STAR Z uz false (A k q)) B in
  map (local_columns res 1) [0; 1; 2] =
  [ [[10; 40]; [11; 41]];
    [[20; 50]; [21; 51]];
    [[0; 30; 60]; [1; 31; 61]] ].
Proof. vm_compute. reflexivity. Qed.

(** [Get(4,1)] returns 41 on all six processes. *)
Example Get_on_every_process :
  let G0 := fun i j : Z => 10 * i + j in
  let A := fun k q => sample Z (Grid.mk 2 3 k q) 7 2 1 G0 in
  match call Z 2 3 1 (fun _ _ => Get Z (-1) false 4 1) A with
  | Some w =>
      map (fun kq => match w (fst kq) (snd kq) with
                     | @Ret _ _ (Normal v, _) => v
                     | _ => -1
                     end)
          [(0, 0); (0, 1); (0, 2); (1, 0); (1, 1); (1, 2)]
  | None => []
  end = [41; 41; 41; 41; 41; 41].
Proof. vm_compute. reflexivity. Qed.

(** * Further instances

    The further properties at the same concrete objects: entries of type
    [Z], a 2 x 3 grid, and the matrix [G i j = 10*i + j]. *)

Lemma ViewSub_represents_witness :
  let uz := fun _ : Z => 0 in
  let G0 := fun i j : Z => 10 * i + j in
  let A := fun k q => sample Z (Grid.mk 2 3 k q) 7 2 1 G0 in
  let V := fun k q => shell Z uz (Grid.mk 2 3 k q) in
  let sub := fun i' j' => G0 (2 + i') (0 + j') in
  exists V1 V2,
    returns Z 2 3 (call Z 2 3 0 (fun k q => ViewSub Z false (A k q) 2 0 4 2) V)
            (fun _ _ => tt) V1 /\
    returns Z 2 3 (call Z 2 3 0 (fun k q => LockedViewSub Z false (A k q) 2 0 4 2) V)
            (fun _ _ => tt) V2 /\
    MR_STAR_represents Z 2 3 V1 4 2 ((1 + 2) mod 3) sub /\
    MR_STAR_represents Z 2 3 V2 4 2 ((1 + 2) mod 3) sub /\
    forall k q, on_grid 2 3 k q ->
      Viewing Z (V1 k q) = true /\ _lockedView Z (V1 k q) = false /\
      m_lockedView Z (_localMatrix Z (V1 k q)) = false /\
      Viewing Z (V2 k q) = true /\ _lockedView Z (V2 k q) = true /\
      m_lockedView Z (_localMatrix Z (V2 k q)) = true.
Proof.
  intros uz G0 A V sub.
  apply (ViewSub_represents Z false 2 3 A V 7 2 1 G0 2 0 4 2); try lia.
  - apply (sample_represents Z 2 3 7 2 G0 1); lia.
  - intros k q _. split; [reflexivity|]. right. split; [reflexivity | cbn; lia].
Defined.

Lemma View_whole_witness :
  let uz := fun _ : Z => 0 in
  let G0 := fun i j : Z => 10 * i + j in
  let A := sample Z (Grid.mk 2 3 0 1) 7 2 1 G0 in
  let V := shell Z uz (Grid.mk 2 3 0 1) in
  View Z false A V = ViewSub Z false A 0 0 7 2 V /\
  LockedView Z false A V = LockedViewSub Z false A 0 0 7 2 V /\
  exists V1 V2,
    View Z false A V = @Ret Z _ (Normal tt, V1) /\
    LockedView Z false A V = @Ret Z _ (Normal tt, V2) /\
    Viewing Z V1 = true /\ _lockedView Z V1 = false /\
    Viewing Z V2 = true /\ _lockedView Z V2 = true /\
    Height Z V1 = 7 /\ Width Z V1 = 2 /\ ColAlignment Z V1 = 1 /\
    ColShift Z V1 = ColShift Z A /\
    Height Z V2 = 7 /\ Width Z V2 = 2 /\ ColAlignment Z V2 = 1 /\
    ColShift Z V2 = ColShift Z A /\
    LocalHeight Z V1 = LocalHeight Z A /\ LocalWidth Z V1 = LocalWidth Z A /\
    LocalHeight Z V2 = LocalHeight Z A /\ LocalWidth Z V2 = LocalWidth Z A /\
    forall iLocal j,
      GetLocalEntry Z V1 iLocal j = GetLocalEntry Z A iLocal j /\
      GetLocalEntry Z V2 iLocal j = GetLocalEntry Z A iLocal j.
Proof.
  intros uz G0 A V.
  apply (View_whole Z false 2 3 0 1 7 2 1 A V).
  - lia.
  - unfold on_grid. lia.
  - apply (sample_represents Z 2 3 7 2 G0 1); unfold on_grid; lia.
  - reflexivity.
  - right. split; [reflexivity | cbn; lia].
Defined.

Lemma Set_Update_represents_witness :
  let G0 := fun i j : Z => 10 * i + j in
  let d := fun k q => sample Z (Grid.mk 2 3 k q) 7 2 1 G0 in
  let put := fun v i' j' => if (i' =? 3) && (j' =? 1) then v else G0 i' j' in
  exists d1 d2,
    returns Z 2 3 (call Z 2 3 0 (fun _ _ => Set_ Z false 3 1 42) d) (fun _ _ => tt) d1 /\
    returns Z 2 3 (call Z 2 3 0 (fun _ _ => Update Z Z.add false 3 1 42) d)
            (fun _ _ => tt) d2 /\
    MR_STAR_represents Z 2 3 d1 7 2 1 (put 42) /\
    MR_STAR_represents Z 2 3 d2 7 2 1 (put (G0 3 1 + 42)).
Proof.
  intros G0 d put.
  apply (Set_Update_represents Z Z.add false 2 3 d 7 2 1 G0 3 1 42); try lia.
  - apply (sample_represents Z 2 3 7 2 G0 1); lia.
  - intros k q _. reflexivity.
Defined.

Lemma MakeTrapezoidal_represents_witness :
  let G0 := fun i j : Z => 10 * i + j in
  let d := fun k q => sample Z (Grid.mk 2 3 k q) 7 2 1 G0 in
  exists d',
    returns Z 2 3 (call Z 2 3 0 (fun _ _ => MakeTrapezoidal Z false 0 RIGHT UPPER 1) d)
            (fun _ _ => tt) d' /\
    MR_STAR_represents Z 2 3 d' 7 2 1
      (fun i j => if in_trapezoid RIGHT UPPER 1 7 2 i j then G0 i j else 0).
Proof.
  intros G0 d.
  apply (MakeTrapezoidal_represents Z false 0 2 3 d 7 2 1 G0 RIGHT UPPER 1); try lia.
  - apply (sample_represents Z 2 3 7 2 G0 1); lia.
  - intros k q _. reflexivity.
Defined.

Lemma ScaleTrapezoidal_represents_witness :
  let G0 := fun i j : Z => 10 * i + j in
  let d := fun k q => sample Z (Grid.mk 2 3 k q) 7 2 1 G0 in
  exists d',
    returns Z 2 3 (call Z 2 3 0 (fun _ _ => ScaleTrapezoidal Z false Z.mul 3 LEFT LOWER 0) d)
            (fun _ _ => tt) d' /\
    MR_STAR_represents Z 2 3 d' 7 2 1
      (fun i j => if in_trapezoid LEFT LOWER 0 7 2 i j then G0 i j * 3 else G0 i j).
Proof.
  intros G0 d.
  apply (ScaleTrapezoidal_represents Z false Z.mul 3 2 3 d 7 2 1 G0 LEFT LOWER 0); try lia.
  - apply (sample_represents Z 2 3 7 2 G0 1); lia.
  - intros k q _. reflexivity.
Defined.

Lemma SetToIdentity_represents_witness :
  let G0 := fun i j : Z => 10 * i + j in
  let d := fun k q => sample Z (Grid.mk 2 3 k q) 4 4 1 G0 in
  exists d',
    returns Z 2 3 (call Z 2 3 0 (fun _ _ => SetToIdentity Z false 0 1) d) (fun _ _ => tt) d' /\
    MR_STAR_represents Z 2 3 d' 4 4 1 (fun i j => if i =? j then 1 else 0).
Proof.
  intros G0 d.
  apply (SetToIdentity_represents Z false 0 1 2 3 d 4 4 1 G0); try lia.
  - apply (sample_represents Z 2 3 4 4 G0 1); lia.
  - intros k q _. split; reflexivity.
Defined.

Lemma assign_MR_MC_world_witness :
  let uz := fun _ : Z => 0 in
  let G0 := fun i j : Z => 10 * i + j in
  let A := fun k q => sample_MR_MC Z (Grid.mk 2 3 k q) 7 2 1 1 G0 in
  let B := fun k q => sample Z (Grid.mk 2 3 k q) 0 0 2 (fun _ _ => 0) in
  exists B',
    returns Z 2 3 (call Z 2 3 2 (fun k q => assign_MR_MC Z uz false 1 (A k q)) B)
            (fun _ _ => tt) B' /\
    MR_STAR_represents Z 2 3 B' 7 2 2 G0.
Proof.
  intros uz G0 A B.
  apply (assign_MR_MC_world Z uz false 1 2 3 7 2 ltac:(lia) ltac:(lia) G0 A B 1 2 1).
  - apply (sample_MR_MC_represents Z 2 3 7 2 G0 1 1); lia.
  - intros k q _. apply sample_target. lia.
Defined.

Lemma TransposeFrom_world_witness :
  let uz := fun _ : Z => 0 in
  let G0 := fun i j : Z => 10 * i + j in
  let A := fun k q => sample_MC_MR Z (Grid.mk 2 3 k q) 2 7 1 1 G0 in
  let B := fun k q => sample Z (Grid.mk 2 3 k q) 0 0 2 (fun _ _ => 0) in
  (exists B',
     returns Z 2 3 (call Z 2 3 2 (fun k q => TransposeFrom Z uz false 1 (A k q)) B)
             (fun _ _ => tt) B' /\
     MR_STAR_represents Z 2 3 B' 7 2 2 (fun i j => G0 j i)) /\
  (exists B',
     returns Z 2 3 (call Z 2 3 2 (fun k q => AdjointFrom Z uz false 1 Z.opp (A k q)) B)
             (fun _ _ => tt) B' /\
     MR_STAR_represents Z 2 3 B' 7 2 2 (fun i j => - G0 j i)).
Proof.
  intros uz G0 A B.
  apply (TransposeFrom_world Z uz false 1 2 3 7 2 ltac:(lia) ltac:(lia) Z.opp G0 A B 1 1 2).
  - apply (sample_MC_MR_represents Z 2 3 7 2 G0 1 1); lia.
  - intros k q _. apply sample_target. lia.
Defined.

Lemma assign_VR_STAR_world_witness :
  let uz := fun _ : Z => 0 in
  let G0 := fun i j : Z => 10 * i + j in
  let A := fun k q => sample_VR_STAR Z (Grid.mk 2 3 k q) 7 2 4 G0 in
  let B := fun k q => sample Z (Grid.mk 2 3 k q) 0 0 2 (fun _ _ => 0) in
  exists B',
    returns Z 2 3 (call Z 2 3 2 (fun k q => assign_VR_STAR Z uz false 1 (A k q)) B)
            (fun _ _ => tt) B' /\
    MR_STAR_represents Z 2 3 B' 7 2 2 G0.
Proof.
  intros uz G0 A B.
  apply (assign_VR_STAR_world Z uz false 1 2 3 7 2 ltac:(lia) ltac:(lia) G0 A B 4 2).
  - apply (sample_VR_STAR_represents Z 2 3 7 2 G0 4); lia.
  - intros k q _. apply sample_target. lia.
Defined.

Lemma redistribution_collectives_witness :
  let uz := fun _ : Z => 0 in
  let B := sample Z (Grid.mk 2 3 0 1) 0 0 2 (fun _ _ => 0) in
  let lh := fun a => LocalLength 7 (Shift 1 a 3) 3 in
  let Pu := Z.max (MaxLocalLength 7 3 * MaxLocalLength 2 2) 1 in
  let Pv := Z.max (MaxLocalLength 7 (2 * 3) * 2) 1 in
  let gather := fun a =>
    if a =? 2
    then [(AllGatherOp, MCComm, Z.max (lh a * MaxLocalLength 2 2) 1)]
    else [(SendRecvOp, MRComm, Pu); (AllGatherOp, MCComm, Pu)] in
  (forall A a, MR_STAR_wf Z 2 3 0 1 A 7 2 a -> MR_STAR_target Z 2 3 0 1 B a 2 ->
     collectives Z (assign_MR_STAR Z uz false A B) =
     if a =? 2 then [] else [(SendRecvOp, MRComm, lh a * 2)]) /\
  (forall A a ra, MR_MC_wf Z 2 3 0 1 A 7 2 a ra -> MR_STAR_target Z 2 3 0 1 B a 2 ->
     collectives Z (assign_MR_MC Z uz false 1 A B) = gather a) /\
  (forall op A ca ra, MC_MR_wf Z 2 3 0 1 A 2 7 ca ra -> MR_STAR_target Z 2 3 0 1 B ra 2 ->
     collectives Z (TransposeFrom_with Z uz false 1 op A B) = gather ra) /\
  (forall A a, VR_STAR_wf Z 2 3 0 1 A 7 2 a -> MR_STAR_target Z 2 3 0 1 B (a mod 3) 2 ->
     collectives Z (assign_VR_STAR Z uz false 1 A B) =
     if a mod 3 =? 2 then [(AllGatherOp, MCComm, Pv)]
     else [(SendRecvOp, VRComm, Pv); (AllGatherOp, MCComm, Pv)]).
Proof.
  intros uz B lh Pu Pv gather.
  apply (redistribution_collectives Z uz false 1 2 3 7 2 ltac:(lia) ltac:(lia) 0 1 2 B).
  unfold on_grid. lia.
Defined.

Lemma locked_view_refused_witness :
  let uz := fun _ : Z => 0 in
  let G0 := fun i j : Z => 10 * i + j in
  let A := sample Z (Grid.mk 2 3 0 1) 7 2 1 G0 in
  let this := set_view Z A true true in
  let refused := fun m : Method Z unit =>
    m this =
    @Ret Z _ (Raised (logic_error "Assertion that matrix not be a locked view failed."),
              this) in
  refused (ResizeTo Z uz false 7 2) /\
  refused (MakeTrapezoidal Z false 0 LEFT LOWER 0) /\
  refused (ScaleTrapezoidal Z false Z.mul 3 LEFT LOWER 0) /\
  refused (SetToIdentity Z false 0 1) /\
  refused (TransposeFrom_with Z uz false 1 Z.opp A) /\
  refused (assign_MR_MC Z uz false 1 A) /\ refused (assign_MR_STAR Z uz false A) /\
  refused (assign_VR_STAR Z uz false 1 A) /\ refused (assign_STAR_STAR Z uz false A) /\
  refused (assign_MD_STAR Z false A) /\ refused (assign_STAR_MD Z false A) /\
  SetToRandom Z uz false (fun n => n) this =
    @Ret2 Z _ (Raised (logic_error "Assertion that matrix not be a locked view failed."),
               this) /\
  SumOverCol Z uz false 1 this =
    @Ret2 Z _ (Raised (logic_error "Assertion that matrix not be a locked view failed."),
               this) /\
  Set_ Z false 1 0 42 this = @Ret Z _ (Normal tt, this) /\
  Update Z Z.add false 1 0 42 this = @Ret Z _ (Normal tt, this).
Proof.
  intros uz G0 A this refused.
  pose proof (locked_view_refused Z Z.add uz false 1 this A 0 1 3 Z.mul Z.opp (fun n => n)
                LEFT LOWER 0 7 2 eq_refl eq_refl eq_refl) as H.
  cbv zeta in H.
  repeat (let H1 := fresh in destruct H as [H1 H]; split; [exact H1|]).
  apply (H 1 0 42); cbn; lia.
Defined.


Lemma SetToRandom_replicates_witness :
  let uz := fun _ : Z => 0 in
  let d := fun k q => sample Z (Grid.mk 2 3 k q) 7 2 1 (fun i j => 100 * k + 10 * i + j) in
  let rng := fun k q n : Z => 1000 * k + 100 * q + n in
  exists d',
    returns2 Z 2 3 (call2 Z Z.add 0 2 3 1 (fun k q => SetToRandom Z uz false (rng k q)) d)
             (fun _ _ => tt) d' /\
    MR_STAR_represents Z 2 3 d' 7 2 1
      (fun i j => rng 0 ((i + 1) mod 3) ((i - i mod 3) / 3 + j * LocalLength 7 (i mod 3) 3)).
Proof.
  intros uz d rng.
  apply (SetToRandom_replicates Z Z.add uz 0 false 1 2 3 7 2 ltac:(lia) ltac:(lia) rng d 1).
  intros k q Hkq. split; [|reflexivity].
  apply (sample_represents Z 2 3 7 2 (fun i j => 100 * k + 10 * i + j) 1); try lia.
  exact Hkq.
Defined.

Lemma SumOverCol_sums_witness :
  let uz := fun _ : Z => 0 in
  let d := fun k q => sample Z (Grid.mk 2 3 k q) 7 2 1 (fun i j => 100 * k + 10 * i + j) in
  exists d',
    returns2 Z 2 3 (call2 Z Z.add 0 2 3 1 (fun _ _ => SumOverCol Z uz false 1) d)
             (fun _ _ => tt) d' /\
    MR_STAR_represents Z 2 3 d' 7 2 1
      (fun i j => Tsum Z Z.add 0 (Z.to_nat 2)
                    (fun m => GetLocalEntry Z (d m ((i + 1) mod 3)) ((i - i mod 3) / 3) j)).
Proof.
  intros uz d.
  apply (SumOverCol_sums Z Z.add uz 0 false 1 2 3 7 2 ltac:(lia) ltac:(lia) d 1).
  intros k q Hkq. split; [|reflexivity].
  apply (sample_represents Z 2 3 7 2 (fun i j => 100 * k + 10 * i + j) 1); try lia.
  exact Hkq.
Defined.

Lemma AlignWith_VR_invariant_iff_witness :
  let uz := fun _ : Z => 0 in
  let g := Grid.mk 2 2 0 0 in
  let this := shell Z uz g in
  let A := set_colAlignment Z (shell Z uz g) 3 (Shift (Grid.VRRank g) 3 (Grid.Size g)) in
  exists this1 this2,
    AlignWith_VR_STAR Z uz true A this = @Ret Z _ (Normal tt, this1) /\
    AlignColsWith_VR_STAR Z uz true A this = @Ret Z _ (Normal tt, this1) /\
    AlignWith_STAR_VR Z uz true A this = @Ret Z _ (Normal tt, this2) /\
    AlignColsWith_STAR_VR Z uz true A this = @Ret Z _ (Normal tt, this2).
Proof.
  intros uz g this A.
  destruct (AlignWith_VR_invariant_iff Z Z.add uz 0 true 1 this A) as [_ [_ [_ [_ H]]]].
  apply H; reflexivity.
Defined.

Lemma Print_prints_witness :
  let uz := fun _ : Z => 0 in
  let G0 := fun i j : Z => 10 * i + j in
  let d := fun k q => sample Z (Grid.mk 2 3 k q) 7 2 1 G0 in
  let e := fun k q => sample Z (Grid.mk 2 3 k q) 0 2 1 G0 in
  let out := fun (k q : Z) (body : list (Token Z)) =>
               if (k =? 0) && (q =? 0) then [Msg Z "A"; Endl Z] ++ body else [] in
  (forall k q, on_grid 2 3 k q ->
     Print Z uz 0 "A" (e k q) = Ret2 Z (list (Token Z)) (out k q [])) /\
  (exists w2,
     run_world2 Z Z.add 0 2 3 2 (fun k q => Print Z uz 0 "A" (d k q)) = Some w2 /\
     forall k q, on_grid 2 3 k q ->
       w2 k q = Ret2 Z (list (Token Z)) (out k q (matrix_tokens Z 7 2 G0))).
Proof.
  intros uz G0 d e out. split.
  - destruct (Print_prints Z Z.add uz 0 2 3 0 2 ltac:(lia) ltac:(lia) 0 "A" e 1 G0
                (fun x => eq_refl) Z.add_0_r) as [Hzero _].
    + apply (sample_represents Z 2 3 0 2 G0 1); lia.
    + apply Hzero. left. reflexivity.
  - destruct (Print_prints Z Z.add uz 0 2 3 7 2 ltac:(lia) ltac:(lia) 0 "A" d 1 G0
                (fun x => eq_refl) Z.add_0_r) as [_ Hrun].
    + apply (sample_represents Z 2 3 7 2 G0 1); lia.
    + destruct Hrun as [Hrun _]; [lia | lia | exact Hrun].
Defined.

Lemma realign_round_trip_witness :
  let uz := fun _ : Z => 0 in
  let G0 := fun i j : Z => 10 * i + j in
  let A := fun k q => sample Z (Grid.mk 2 3 k q) 7 2 1 G0 in
  let B := fun k q => sample Z (Grid.mk 2 3 k q) 0 0 2 (fun _ _ => 0) in
  let A2 := fun k q => sample Z (Grid.mk 2 3 k q) 0 0 1 (fun _ _ => 0) in
  exists B' A2',
    returns Z 2 3 (call Z 2 3 1 (fun k q => assign_MR_STAR Z uz false (A k q)) B)
            (fun _ _ => tt) B' /\
    MR_STAR_represents Z 2 3 B' 7 2 2 G0 /\
    returns Z 2 3 (call Z 2 3 1 (fun k q => assign_MR_STAR Z uz false (B' k q)) A2)
            (fun _ _ => tt) A2' /\
    MR_STAR_represents Z 2 3 A2' 7 2 1 G0 /\
    same_entries Z 2 3 A2' A.
Proof.
  intros uz G0 A B A2.
  apply (realign_round_trip Z uz false 2 3 7 2 G0 ltac:(lia) A B A2 1 2).
  - apply (sample_represents Z 2 3 7 2 G0 1); lia.
  - intros k q _. apply sample_target. lia.
  - intros k q _. apply sample_target. lia.
Defined.

Lemma assign_STAR_STAR_world_witness :
  let uz := fun _ : Z => 0 in
  let G0 := fun i j : Z => 10 * i + j in
  let S := fun k q => sample_STAR_STAR Z (Grid.mk 2 3 k q) 7 2 G0 in
  let B := fun k q => sample Z (Grid.mk 2 3 k q) 0 0 2 (fun _ _ => 0) in
  exists B',
    returns Z 2 3 (call Z 2 3 0 (fun k q => assign_STAR_STAR Z uz false (S k q)) B)
            (fun _ _ => tt) B' /\
    MR_STAR_represents Z 2 3 B' 7 2 2 G0 /\
    (forall k q, on_grid 2 3 k q ->
       collectives Z (assign_STAR_STAR Z uz false (S k q) (B k q)) = [] /\
       ConstrainedColAlignment Z (B' k q) = ConstrainedColAlignment Z (B k q)).
Proof.
  intros uz G0 S B.
  apply (assign_STAR_STAR_world Z uz false 2 3 7 2 G0 ltac:(lia) S B 2).
  - apply (sample_STAR_STAR_represents Z 2 3 7 2 G0); lia.
  - intros k q _. apply sample_owner. lia.
Defined.

(** Assigning the same matrix from an [MR,MC] source aligned at (1,1), from
    a [VR,* ] source aligned at 4 and as the transpose of an [MC,MR]
    source gives the same objects: two rounds of collectives, after which
    column 0 holds the rows 1 and 4, column 1 the rows 2 and 5, column 2
    the rows 0, 3 and 6. *)
Example gathered_into_alignment_2 :
  let uz := fun _ : Z => 0 in
  let G0 := fun i j : Z => 10 * i + j in
  let B := fun k q => sample Z (Grid.mk 2 3 k q) 0 0 2 (fun _ _ => 0) in
  let A1 := fun k q => sample_MR_MC Z (Grid.mk 2 3 k q) 7 2 1 1 G0 in
  let A2 := fun k q => sample_VR_STAR Z (Grid.mk 2 3 k q) 7 2 4 G0 in
  let A3 := fun k q => sample_MC_MR Z (Grid.mk 2 3 k q) 2 7 1 1 (fun i j => G0 j i) in
  let expected := [ [[10; 40]; [11; 41]];
                    [[20; 50]; [21; 51]];
                    [[0; 30; 60]; [1; 31; 61]] ] in
  map (local_columns (call Z 2 3 2 (fun k q => assign_MR_MC Z uz false 1 (A1 k q)) B) 1)
      [0; 1; 2] = expected /\
  map (local_columns (call Z 2 3 2 (fun k q => assign_VR_STAR Z uz false 1 (A2 k q)) B) 0)
      [0; 1; 2] = expected /\
  map (local_columns (call Z 2 3 2 (fun k q => TransposeFrom Z uz false 1 (A3 k q)) B) 1)
      [0; 1; 2] = expected.
Proof. vm_compute. repeat split. Qed.

(** The lower triangle and the identity of a 4 x 4 matrix aligned at 1:
    process column 0 owns row 2, column 1 the rows 0 and 3, column 2
    row 1. *)
Example triangle_and_identity :
  let G0 := fun i j : Z => 10 * i + j in
  let A := fun k q => sample Z (Grid.mk 2 3 k q) 4 4 1 G0 in
  map (local_columns (call Z 2 3 0 (fun _ _ => MakeTrapezoidal Z false 0 LEFT LOWER 0) A) 1)
      [0; 1; 2] =
  [ [[20]; [21]; [22]; [0]];
    [[0; 30]; [0; 31]; [0; 32]; [0; 33]];
    [[10]; [11]; [0]; [0]] ] /\
  map (local_columns (call Z 2 3 0 (fun _ _ => SetToIdentity Z false 0 1) A) 1)
      [0; 1; 2] =
  [ [[0]; [0]; [1]; [0]];
    [[1; 0]; [0; 0]; [0; 0]; [0; 1]];
    [[0]; [1]; [0]; [0]] ].
Proof. vm_compute. repeat split. Qed.

Definition local_columns2 {A : Type}
    (res : option (World (Prog2 Z (Outcome A * DistMatrix Z)))) (k q : Z) : list (list Z) :=
  match res with
  | Some w =>
      match w k q with
      | @Ret2 _ _ (Normal _, d) =>
          map (fun j => map (fun i => GetLocalEntry Z d i j) (ranks (LocalHeight Z d)))
              (ranks (Width Z d))
      | _ => []
      end
  | None => []
  end.

(** Two grid rows that hold [G] and [G + 100]: after [SumOverCol] both hold
    [2*G + 100].  After [SetToRandom] both hold what grid row 0 drew. *)
Example summed_and_drawn :
  let uz := fun _ : Z => 0 in
  let d := fun k q => sample Z (Grid.mk 2 3 k q) 7 2 1 (fun i j => 100 * k + 10 * i + j) in
  let rng := fun k q n : Z => 1000 * k + 100 * q + n in
  let summed := call2 Z Z.add 0 2 3 1 (fun _ _ => SumOverCol Z uz false 1) d in
  let drawn := call2 Z Z.add 0 2 3 1 (fun k q => SetToRandom Z uz false (rng k q)) d in
  map (local_columns2 summed 0) [0; 1; 2] =
  [ [[140; 200]; [142; 202]];
    [[100; 160; 220]; [102; 162; 222]];
    [[120; 180]; [122; 182]] ] /\
  map (local_columns2 summed 1) [0; 1; 2] = map (local_columns2 summed 0) [0; 1; 2] /\
  map (local_columns2 drawn 1) [0; 1; 2] =
  [ [[0; 1]; [2; 3]];
    [[100; 101; 102]; [103; 104; 105]];
    [[200; 201]; [202; 203]] ].
Proof. vm_compute. repeat split. Qed.

(** [Print] of a 3 x 2 matrix: after two rounds process (0,0) has written
    the message and the rows, the others nothing; one round is not
    enough. *)
Example printed_by_root :
  let uz := fun _ : Z => 0 in
  let d := fun k q => sample Z (Grid.mk 2 3 k q) 3 2 1 (fun i j => 10 * i + j) in
  let written (res : option (World (Prog2 Z (list (Token Z))))) (k q : Z) :=
    match res with
    | Some w => match w k q with @Ret2 _ _ os => Some os | _ => None end
    | None => None
    end in
  let run n := run_world2 Z Z.add 0 2 3 n (fun k q => Print Z uz 0 "A" (d k q)) in
  written (run 2%nat) 0 0 =
    Some [Msg Z "A"; Endl Z;
          Entry Z 0; Space Z; Entry Z 1; Space Z; Newline Z;
          Entry Z 10; Space Z; Entry Z 11; Space Z; Newline Z;
          Entry Z 20; Space Z; Entry Z 21; Space Z; Newline Z; Endl Z] /\
  written (run 2%nat) 0 1 = Some [] /\ written (run 2%nat) 1 0 = Some [] /\
  written (run 2%nat) 1 2 = Some [] /\
  run 1%nat = None.
Proof. vm_compute. repeat split. Qed.
